(** * Sequencer effects (source/blender/sequencer/intern/effects.cc)

    A shallow embedding of the per-pixel compositing effects of the video
    sequencer and of the effect-handle registry, with the properties the
    specification states about them.

    Conventions of the embedding:
    - [float] is IEEE-754 binary32, computed with the specification floats
      of the standard library ([prec = 24], [emax = 128], round to nearest
      even);
    - [int] is a 32-bit two's complement integer, held in [Z] with the
      wrap-around written out ([int32]); [uchar] is a [Z] in [0, 255] and a
      store into a [uchar] keeps the low eight bits;
    - a pixel buffer is a flat list of channels, four per pixel; a pointer
      into a buffer is an offset, and [p[i] = v] is the list update
      [<[p + i := v]>]. *)

From Stdlib Require Import ZArith Bool Lia.
From Stdlib Require Import Floats.SpecFloat.
From Stdlib Require Import QArith Qpower Lqa.
From stdpp Require Import base list.

Local Open Scope Z_scope.

(* ===================================================================== *)
(** ** Machine integers *)

Module Int.

Definition INT_MIN : Z := - 2 ^ 31.
Definition INT_MAX : Z := 2 ^ 31 - 1.

(** Wrap-around of a signed 32-bit [int]. *)
Definition int32 (z : Z) : Z := (z + 2 ^ 31) mod 2 ^ 32 - 2 ^ 31.

(** Store of an integer value into an [unsigned char]. *)
Definition to_uchar (z : Z) : Z := z mod 256.

Definition add (a b : Z) : Z := int32 (a + b).
Definition sub (a b : Z) : Z := int32 (a - b).
Definition mul (a b : Z) : Z := int32 (a * b).
(** [a >> n] on a signed int: arithmetic shift. *)
Definition shr (a n : Z) : Z := Z.shiftr a n.

End Int.

(* ===================================================================== *)
(** ** Single-precision floats *)

Module F32.

Definition prec : Z := 24.
Definition emax : Z := 128.

Definition float : Type := spec_float.

Definition add : float -> float -> float := SFadd prec emax.
Definition sub : float -> float -> float := SFsub prec emax.
Definition mul : float -> float -> float := SFmul prec emax.
Definition div : float -> float -> float := SFdiv prec emax.
Definition sqrt : float -> float := SFsqrt prec emax.
Definition neg : float -> float := SFopp.

Definition eqb : float -> float -> bool := SFeqb.
Definition ltb : float -> float -> bool := SFltb.
Definition leb : float -> float -> bool := SFleb.
Definition gtb (a b : float) : bool := SFltb b a.
Definition geb (a b : float) : bool := SFleb b a.

(** The float [m * 2^e], rounded to single precision. *)
Definition lit (m e : Z) : float := binary_normalize prec emax m e false.

(** Conversion [int -> float]. *)
Definition of_int (z : Z) : float := lit z 0.

Definition zero : float := S754_zero false.
Definition one : float := Eval cbv in lit 1 0.
Definition infinity : float := S754_infinity false.
Definition nan : float := S754_nan.

(** Value of a finite float rounded toward zero; [None] for an infinity
    or a NaN. *)
Definition trunc (x : float) : option Z :=
  match x with
  | S754_zero _ => Some 0
  | S754_finite s m e => Some (cond_Zopp s (Z.shiftl (Zpos m) e))
  | S754_infinity _ | S754_nan => None
  end.

(** Conversion [float -> int]: truncation; a value that does not fit (or
    a NaN) gives the "integer indefinite" value [INT_MIN], as the x86
    conversion instruction does (the C++ standard leaves it undefined). *)
Definition to_int (x : float) : Z :=
  match trunc x with
  | Some z => if (Int.INT_MIN <=? z) && (z <=? Int.INT_MAX) then z else Int.INT_MIN
  | None => Int.INT_MIN
  end.

(** Conversion [float -> unsigned char] on a store. *)
Definition to_uchar (x : float) : Z := Int.to_uchar (to_int x).

Definition is_nan (x : float) : bool :=
  match x with S754_nan => true | _ => false end.

Definition is_zero (x : float) : bool :=
  match x with S754_zero _ => true | _ => false end.

(** Finite: a zero or a finite non-zero number (not an infinity, not a
    NaN). *)
Definition is_finite (x : float) : bool :=
  match x with S754_zero _ | S754_finite _ _ _ => true | _ => false end.

(** A well-formed single-precision value: the mantissa and exponent of a
    finite number are in canonical form. *)
Definition valid (x : float) : bool := valid_binary prec emax x.

#[global] Instance float_inhabited : Inhabited float := populate zero.

(** The possible results of a rounding: a zero, a finite number or an
    infinity, of the sign asked for. *)
Definition signed_as (s : bool) (x : float) : Prop :=
  x = S754_zero s \/ x = S754_infinity s \/ exists m e, x = S754_finite s m e.

End F32.

Abbreviation float := F32.float.

(** Float literals of the source. *)
Definition f0_5 : float := Eval cbv in F32.lit 1 (-1).
Definition f256 : float := Eval cbv in F32.lit 256 0.

(* ===================================================================== *)
(** ** Buffers, pixels and loops *)

(** A pixel: four channels, R, G, B and A. *)
Definition px (A : Type) : Type := (A * A * A * A)%type.

Definition chan {A} (c : nat) (v : px A) : A :=
  let '(v0, v1, v2, v3) := v in
  match c with
  | O => v0
  | 1%nat => v1
  | 2%nat => v2
  | _ => v3
  end.

(** [b[p]]: read at an offset.  A read outside the buffer, undefined in
    the source, gives the default value of the type; the properties below
    are stated for buffers that hold every pixel the effect visits. *)
Definition rd {A} `{Inhabited A} (b : list A) (p : nat) : A := b !!! p.

(** The four channels at [p], [p + 1], [p + 2] and [p + 3]. *)
Definition load4 {A} `{Inhabited A} (b : list A) (p : nat) : px A :=
  (rd b p, rd b (p + 1), rd b (p + 2), rd b (p + 3))%nat.

(** [rt[0] = v0; rt[1] = v1; rt[2] = v2; rt[3] = v3] with [rt] at offset
    [p]. *)
Definition store4 {A} (p : nat) (v : px A) (b : list A) : list A :=
  let '(v0, v1, v2, v3) := v in
  <[(p + 3)%nat := v3]> (<[(p + 2)%nat := v2]> (<[(p + 1)%nat := v1]> (<[p := v0]> b))).

(** [for (i = a; n-- > 0; i++) s = body(i, s)]: a counted loop threading
    the state [s]. *)
Fixpoint for_loop {St : Type} (n : nat) (i : Z) (body : Z -> St -> St) (s : St) : St :=
  match n with
  | O => s
  | S n' => for_loop n' (i + 1) body (body i s)
  end.

(** [for (i = a; i < b; i++)]. *)
Definition for_range {St : Type} (a b : Z) (body : Z -> St -> St) (s : St) : St :=
  for_loop (Z.to_nat (b - a)) a body s.

(** The loop nest shared by the per-pixel effects,

      for (i = 0; i < y; i++)
        for (j = 0; j < x; j++) { body; rt1 += 4; rt2 += 4; rt += 4; }

    The three pointers advance together, so the state carries their common
    offset [p] beside the memory [s] the body writes. *)
Definition pixel_loop {St : Type} (x y : Z) (body : nat -> St -> St) (s : St) : St :=
  snd (for_range 0 y
         (fun _ st => for_range 0 x
            (fun _ '(p, s) => ((p + 4)%nat, body p s)) st)
         (0%nat, s)).

(** The pixels visited by the loop nest, in order: [n] pixels from offset
    [p] on. *)
Fixpoint pixel_steps {St : Type} (n : nat) (body : nat -> St -> St) (p : nat) (s : St) : St :=
  match n with
  | O => s
  | S n' => pixel_steps n' body (p + 4) (body p s)
  end.

(* ===================================================================== *)
(** ** Cross effect *)

Definition do_cross_effect_byte (fac : float) (x y : Z)
    (rect1 rect2 out : list Z) : list Z :=
  let temp_fac := F32.to_int (F32.mul f256 fac) in
  let temp_mfac := Int.sub 256 temp_fac in
  let blend a b :=
    Int.to_uchar (Int.shr (Int.add (Int.mul temp_mfac a) (Int.mul temp_fac b)) 8) in
  pixel_loop x y
    (fun p rt =>
       store4 p (blend (rd rect1 p) (rd rect2 p),
                 blend (rd rect1 (p + 1)) (rd rect2 (p + 1)),
                 blend (rd rect1 (p + 2)) (rd rect2 (p + 2)),
                 blend (rd rect1 (p + 3)) (rd rect2 (p + 3)))%nat rt)
    out.

Definition do_cross_effect_float (fac : float) (x y : Z)
    (rect1 rect2 out : list float) : list float :=
  let mfac := F32.sub F32.one fac in
  let blend a b := F32.add (F32.mul mfac a) (F32.mul fac b) in
  pixel_loop x y
    (fun p rt =>
       store4 p (blend (rd rect1 p) (rd rect2 p),
                 blend (rd rect1 (p + 1)) (rd rect2 (p + 1)),
                 blend (rd rect1 (p + 2)) (rd rect2 (p + 2)),
                 blend (rd rect1 (p + 3)) (rd rect2 (p + 3)))%nat rt)
    out.

(** Two floats that are the same number: equal under [==], and identical
    unless the number is a zero (whose sign [==] does not see). *)
Definition same_number (a b : float) : Prop :=
  F32.eqb a b = true /\ (F32.is_zero b = false -> a = b).

(** A channel that holds a well-formed finite number. *)
Definition finite_channel (v : float) : Prop :=
  F32.is_finite v = true /\ F32.valid v = true.

(** A channel of a byte buffer. *)
Definition byte_channel (b : Z) : Prop := 0 <= b < 256.

(** The end-to-end scenario of the spec: two 2x2 opaque images, pure red
    and pure blue, and the factor 0.25. *)
Definition f0_25 : float := Eval cbv in F32.lit 1 (-2).

Definition red_2x2 : list Z :=
  [255; 0; 0; 255;  255; 0; 0; 255;  255; 0; 0; 255;  255; 0; 0; 255].

Definition blue_2x2 : list Z :=
  [0; 0; 255; 255;  0; 0; 255; 255;  0; 0; 255; 255;  0; 0; 255; 255].

(* ===================================================================== *)
(** ** Color add, subtract and multiply effects *)

Section AddSub.

(** [min_ii], [max_ii] and [max_ff] belong to BLI_math_base, outside the
    excerpt: the smaller and the larger of two ints, the larger of two
    floats. *)
Variables min_ii max_ii : Z -> Z -> Z.
Variable max_ff : float -> float -> float.

Definition do_add_effect_byte (fac : float) (x y : Z)
    (rect1 rect2 out : list Z) : list Z :=
  let temp_fac := F32.to_int (F32.mul f256 fac) in
  pixel_loop x y
    (fun p rt =>
       let temp_fac2 := Int.mul temp_fac (rd rect2 (p + 3)) in
       let ch c :=
         Int.to_uchar
           (min_ii (Int.add (rd rect1 (p + c))
                          (Int.shr (Int.mul temp_fac2 (rd rect2 (p + c))) 16)) 255) in
       store4 p (ch 0, ch 1, ch 2, rd rect1 (p + 3))%nat rt)
    out.

Definition do_add_effect_float (fac : float) (x y : Z)
    (rect1 rect2 out : list float) : list float :=
  pixel_loop x y
    (fun p rt =>
       let temp_fac :=
         F32.mul (F32.sub F32.one (F32.mul (rd rect1 (p + 3)) (F32.sub F32.one fac)))
                 (rd rect2 (p + 3)) in
       let ch c := F32.add (rd rect1 (p + c)) (F32.mul temp_fac (rd rect2 (p + c))) in
       store4 p (ch 0, ch 1, ch 2, rd rect1 (p + 3))%nat rt)
    out.

Definition do_sub_effect_byte (fac : float) (x y : Z)
    (rect1 rect2 out : list Z) : list Z :=
  let temp_fac := F32.to_int (F32.mul f256 fac) in
  pixel_loop x y
    (fun p rt =>
       let temp_fac2 := Int.mul temp_fac (rd rect2 (p + 3)) in
       let ch c :=
         Int.to_uchar
           (max_ii (Int.sub (rd rect1 (p + c))
                          (Int.shr (Int.mul temp_fac2 (rd rect2 (p + c))) 16)) 0) in
       store4 p (ch 0, ch 1, ch 2, rd rect1 (p + 3))%nat rt)
    out.

Definition do_sub_effect_float (fac : float) (x y : Z)
    (rect1 rect2 out : list float) : list float :=
  let mfac := F32.sub F32.one fac in
  pixel_loop x y
    (fun p rt =>
       let temp_fac :=
         F32.mul (F32.sub F32.one (F32.mul (rd rect1 (p + 3)) mfac)) (rd rect2 (p + 3)) in
       let ch c :=
         max_ff (F32.sub (rd rect1 (p + c)) (F32.mul temp_fac (rd rect2 (p + c)))) F32.zero in
       store4 p (ch 0, ch 1, ch 2, rd rect1 (p + 3))%nat rt)
    out.

End AddSub.

Definition do_mul_effect_byte (fac : float) (x y : Z)
    (rect1 rect2 out : list Z) : list Z :=
  let temp_fac := F32.to_int (F32.mul f256 fac) in
  pixel_loop x y
    (fun p rt =>
       let ch c :=
         Int.to_uchar
           (Int.add (rd rect1 (p + c))
              (Int.shr (Int.mul (Int.mul temp_fac (rd rect1 (p + c)))
                                (Int.sub (rd rect2 (p + c)) 255)) 16)) in
       store4 p (ch 0, ch 1, ch 2, ch 3)%nat rt)
    out.

Definition do_mul_effect_float (fac : float) (x y : Z)
    (rect1 rect2 out : list float) : list float :=
  pixel_loop x y
    (fun p rt =>
       let ch c :=
         F32.add (rd rect1 (p + c))
           (F32.mul (F32.mul fac (rd rect1 (p + c)))
                    (F32.sub (rd rect2 (p + c)) F32.one)) in
       store4 p (ch 0, ch 1, ch 2, ch 3)%nat rt)
    out.

(* ===================================================================== *)
(** ** Alpha over effect *)

Section AlphaOver.

(** [straight_uchar_to_premul_float] and [premul_float_to_straight_uchar]
    belong to BLI_math_color, outside the excerpt: the conversion of a
    straight-alpha byte pixel to a premultiplied float pixel, and back. *)
Variable straight_uchar_to_premul_float : px Z -> px float.
Variable premul_float_to_straight_uchar : px float -> px Z.

Definition do_alphaover_effect_byte (fac : float) (x y : Z)
    (rect1 rect2 out : list Z) : list Z :=
  pixel_loop x y
    (fun p rt =>
       (* rt = rt1 over rt2  (alpha from rt1) *)
       let cp1 := load4 rect1 p in
       let cp2 := load4 rect2 p in
       let rt1 := straight_uchar_to_premul_float cp1 in
       let rt2 := straight_uchar_to_premul_float cp2 in
       let mfac := F32.sub F32.one (F32.mul fac (chan 3 rt1)) in
       if F32.leb fac F32.zero then store4 p cp2 rt
       else if F32.leb mfac F32.zero then store4 p cp1 rt
       else
         let ch c := F32.add (F32.mul fac (chan c rt1)) (F32.mul mfac (chan c rt2)) in
         store4 p (premul_float_to_straight_uchar (ch 0, ch 1, ch 2, ch 3)%nat) rt)
    out.

End AlphaOver.

Definition do_alphaover_effect_float (fac : float) (x y : Z)
    (rect1 rect2 out : list float) : list float :=
  pixel_loop x y
    (fun p rt =>
       (* rt = rt1 over rt2  (alpha from rt1) *)
       let mfac := F32.sub F32.one (F32.mul fac (rd rect1 (p + 3))) in
       if F32.leb fac F32.zero then store4 p (load4 rect2 p) rt
       else if F32.leb mfac F32.zero then store4 p (load4 rect1 p) rt
       else
         let ch c :=
           F32.add (F32.mul fac (rd rect1 (p + c))) (F32.mul mfac (rd rect2 (p + c))) in
         store4 p (ch 0, ch 1, ch 2, ch 3)%nat rt)
    out.

(** Modelled from the spec: the conversions between the two alpha
    conventions for float pixels, which the source does not contain (the
    glossary: straight alpha stores the color channels independent of the
    opacity, premultiplied alpha stores them pre-scaled by the opacity).
    They serve only to write down what a decode and a re-encode of a float
    pixel would give. *)
Definition straight_to_premul_v4 (c : px float) : px float :=
  let '(r, g, b, a) := c in (F32.mul r a, F32.mul g a, F32.mul b a, a).

(** Modelled from the spec: the conversion of a premultiplied float pixel
    to straight alpha (see [straight_to_premul_v4]): the color channels are
    divided by the opacity, unless it is 0 or 1. *)
Definition premul_to_straight_v4 (c : px float) : px float :=
  let '(r, g, b, a) := c in
  if F32.eqb a F32.zero || F32.eqb a F32.one then c
  else (F32.div r a, F32.div g a, F32.div b a, a).

(** The alpha-over rule for one pixel, as the spec words it, given the
    two inputs in premultiplied form ([rt1], [rt2]) and as stored ([cp1],
    [cp2]): input 2 when [fac <= 0], else input 1 when [mfac <= 0], else
    the blend [fac * rt1 + mfac * rt2] of the four channels, passed through
    [encode]. *)
Definition alphaover_rule {A : Type} (encode : px float -> px A) (fac : float)
    (rt1 rt2 : px float) (cp1 cp2 : px A) : px A :=
  let mfac := F32.sub F32.one (F32.mul fac (chan 3 rt1)) in
  if F32.leb fac F32.zero then cp2
  else if F32.leb mfac F32.zero then cp1
  else
    encode (F32.add (F32.mul fac (chan 0 rt1)) (F32.mul mfac (chan 0 rt2)),
            F32.add (F32.mul fac (chan 1 rt1)) (F32.mul mfac (chan 1 rt2)),
            F32.add (F32.mul fac (chan 2 rt1)) (F32.mul mfac (chan 2 rt2)),
            F32.add (F32.mul fac (chan 3 rt1)) (F32.mul mfac (chan 3 rt2))).

(* ===================================================================== *)
(** ** Sequence (strip) types *)

(** The values of [seq->type] and [seq->blend_mode] that effects.cc
    switches on; [SEQ_TYPE_other] stands for every value that is none of
    them (the [default] branches). *)
Inductive seq_type : Set :=
  | SEQ_TYPE_CROSS | SEQ_TYPE_GAMCROSS
  | SEQ_TYPE_ADD | SEQ_TYPE_SUB | SEQ_TYPE_MUL
  | SEQ_TYPE_SCREEN | SEQ_TYPE_OVERLAY | SEQ_TYPE_COLOR_BURN
  | SEQ_TYPE_LINEAR_BURN | SEQ_TYPE_DARKEN | SEQ_TYPE_LIGHTEN
  | SEQ_TYPE_DODGE | SEQ_TYPE_SOFT_LIGHT | SEQ_TYPE_HARD_LIGHT
  | SEQ_TYPE_PIN_LIGHT | SEQ_TYPE_LIN_LIGHT | SEQ_TYPE_VIVID_LIGHT
  | SEQ_TYPE_BLEND_COLOR | SEQ_TYPE_HUE | SEQ_TYPE_SATURATION
  | SEQ_TYPE_VALUE | SEQ_TYPE_DIFFERENCE | SEQ_TYPE_EXCLUSION
  | SEQ_TYPE_COLORMIX
  | SEQ_TYPE_ALPHAOVER | SEQ_TYPE_OVERDROP | SEQ_TYPE_ALPHAUNDER
  | SEQ_TYPE_WIPE | SEQ_TYPE_GLOW | SEQ_TYPE_TRANSFORM | SEQ_TYPE_SPEED
  | SEQ_TYPE_COLOR | SEQ_TYPE_MULTICAM | SEQ_TYPE_ADJUSTMENT
  | SEQ_TYPE_GAUSSIAN_BLUR | SEQ_TYPE_TEXT
  | SEQ_TYPE_other.

#[global] Instance seq_type_eq_dec : EqDecision seq_type.
Proof. solve_decision. Defined.

(* ===================================================================== *)
(** ** Blend mode effect *)

(** The blend functions of BLI_math_color_blend that the blend-mode
    effect dispatches to, each with a [_byte] and a [_float] variant. *)
Inductive IMB_blend_func : Set :=
  | blend_color_add | blend_color_sub | blend_color_mul
  | blend_color_darken | blend_color_burn | blend_color_linearburn
  | blend_color_screen | blend_color_lighten | blend_color_dodge
  | blend_color_overlay | blend_color_softlight | blend_color_hardlight
  | blend_color_pinlight | blend_color_linearlight | blend_color_vividlight
  | blend_color_color | blend_color_hue | blend_color_saturation
  | blend_color_luminosity | blend_color_difference | blend_color_exclusion.

(** The [switch (btype)] of [do_blend_effect_byte] and
    [do_blend_effect_float]; [None] is the [default: break]. *)
Definition blend_case (btype : seq_type) : option IMB_blend_func :=
  match btype with
  | SEQ_TYPE_ADD => Some blend_color_add
  | SEQ_TYPE_SUB => Some blend_color_sub
  | SEQ_TYPE_MUL => Some blend_color_mul
  | SEQ_TYPE_DARKEN => Some blend_color_darken
  | SEQ_TYPE_COLOR_BURN => Some blend_color_burn
  | SEQ_TYPE_LINEAR_BURN => Some blend_color_linearburn
  | SEQ_TYPE_SCREEN => Some blend_color_screen
  | SEQ_TYPE_LIGHTEN => Some blend_color_lighten
  | SEQ_TYPE_DODGE => Some blend_color_dodge
  | SEQ_TYPE_OVERLAY => Some blend_color_overlay
  | SEQ_TYPE_SOFT_LIGHT => Some blend_color_softlight
  | SEQ_TYPE_HARD_LIGHT => Some blend_color_hardlight
  | SEQ_TYPE_PIN_LIGHT => Some blend_color_pinlight
  | SEQ_TYPE_LIN_LIGHT => Some blend_color_linearlight
  | SEQ_TYPE_VIVID_LIGHT => Some blend_color_vividlight
  | SEQ_TYPE_BLEND_COLOR => Some blend_color_color
  | SEQ_TYPE_HUE => Some blend_color_hue
  | SEQ_TYPE_SATURATION => Some blend_color_saturation
  | SEQ_TYPE_VALUE => Some blend_color_luminosity
  | SEQ_TYPE_DIFFERENCE => Some blend_color_difference
  | SEQ_TYPE_EXCLUSION => Some blend_color_exclusion
  | _ => None
  end.

(** [apply_blend_function_byte]: the function writes [out] and, for the
    time of each call of [blend_function], the alpha byte of [rect2]; the
    result is the final content of [rect2] and of [out].  A blend function
    [blend_function(dst, src1, src2)] is the pixel it stores in [dst] as a
    function of the two source pixels. *)
Definition apply_blend_function_byte (fac : float) (x y : Z)
    (rect1 rect2 out : list Z) (blend_function : px Z -> px Z -> px Z)
    : list Z * list Z :=
  pixel_loop x y
    (fun p '(rt2, rt) =>
       let achannel := rd rt2 (p + 3) in
       let rt2 := <[(p + 3)%nat := F32.to_uchar (F32.mul (F32.of_int achannel) fac)]> rt2 in
       let rt := store4 p (blend_function (load4 rect1 p) (load4 rt2 p)) rt in
       let rt2 := <[(p + 3)%nat := achannel]> rt2 in
       let rt := <[(p + 3)%nat := rd rect1 (p + 3)]> rt in
       (rt2, rt))
    (rect2, out).

Definition apply_blend_function_float (fac : float) (x y : Z)
    (rect1 rect2 out : list float) (blend_function : px float -> px float -> px float)
    : list float * list float :=
  pixel_loop x y
    (fun p '(rt2, rt) =>
       let achannel := rd rt2 (p + 3) in
       let rt2 := <[(p + 3)%nat := F32.mul achannel fac]> rt2 in
       let rt := store4 p (blend_function (load4 rect1 p) (load4 rt2 p)) rt in
       let rt2 := <[(p + 3)%nat := achannel]> rt2 in
       let rt := <[(p + 3)%nat := rd rect1 (p + 3)]> rt in
       (rt2, rt))
    (rect2, out).

(** The pixel of input 2 as a blend function sees it: the color channels
    as stored, the alpha replaced by the pre-scaled value. *)
Definition with_alpha {A} `{Inhabited A} (b : list A) (p : nat) (alpha : A) : px A :=
  (rd b p, rd b (p + 1), rd b (p + 2), alpha)%nat.

Section BlendEffect.

(** The bodies of the blend functions are outside the excerpt. *)
Variable blend_byte : IMB_blend_func -> px Z -> px Z -> px Z.
Variable blend_float : IMB_blend_func -> px float -> px float -> px float.

Definition do_blend_effect_float (fac : float) (x y : Z)
    (rect1 rect2 : list float) (btype : seq_type) (out : list float)
    : list float * list float :=
  match blend_case btype with
  | Some f => apply_blend_function_float fac x y rect1 rect2 out (blend_float f)
  | None => (rect2, out)
  end.

Definition do_blend_effect_byte (fac : float) (x y : Z)
    (rect1 rect2 : list Z) (btype : seq_type) (out : list Z)
    : list Z * list Z :=
  match blend_case btype with
  | Some f => apply_blend_function_byte fac x y rect1 rect2 out (blend_byte f)
  | None => (rect2, out)
  end.

End BlendEffect.

(* ===================================================================== *)
(** ** Early-out classification *)

Inductive early_out_t : Set :=
  | EARLY_NO_INPUT
  | EARLY_DO_EFFECT
  | EARLY_USE_INPUT_1
  | EARLY_USE_INPUT_2.

Definition early_out_noop (fac : float) : early_out_t := EARLY_DO_EFFECT.

Definition early_out_fade (fac : float) : early_out_t :=
  if F32.eqb fac F32.zero then EARLY_USE_INPUT_1
  else if F32.eqb fac F32.one then EARLY_USE_INPUT_2
  else EARLY_DO_EFFECT.

Definition early_out_mul_input2 (fac : float) : early_out_t :=
  if F32.eqb fac F32.zero then EARLY_USE_INPUT_1 else EARLY_DO_EFFECT.

Definition early_out_mul_input1 (fac : float) : early_out_t :=
  if F32.eqb fac F32.zero then EARLY_USE_INPUT_2 else EARLY_DO_EFFECT.

Definition early_out_speed (fac : float) : early_out_t := EARLY_DO_EFFECT.
Definition early_out_color (fac : float) : early_out_t := EARLY_NO_INPUT.
Definition early_out_multicam (fac : float) : early_out_t := EARLY_NO_INPUT.
Definition early_out_adjustment (fac : float) : early_out_t := EARLY_NO_INPUT.

(** The part of [GaussianBlurVars] the effect reads. *)
Record GaussianBlurVars : Type := {
  size_x : float;
  size_y : float
}.

Definition early_out_gaussian_blur (data : GaussianBlurVars) (fac : float) : early_out_t :=
  if F32.eqb (size_x data) F32.zero && F32.eqb (size_y data) (F32.of_int 0)
  then EARLY_USE_INPUT_1
  else EARLY_DO_EFFECT.

(** Modelled from the spec: the caller that acts on the early-out
    classification (the strip renderer, render.cc) is not part of the
    excerpt.  The spec: the classification is "evaluated once before
    dispatch to avoid unnecessary buffer allocation/copy"; "use input 1
    verbatim" and "use input 2 verbatim" return that input, "no additional
    input needed" and "run full algorithm" run the effect, which allocates
    its output.  The result is the returned buffer and the number of output
    buffers allocated on the way. *)
Definition render_effect_strip {Buf : Type} (early_out : early_out_t)
    (input1 input2 : Buf) (execute : option Buf -> option Buf -> Buf) : Buf * nat :=
  match early_out with
  | EARLY_USE_INPUT_1 => (input1, 0%nat)
  | EARLY_USE_INPUT_2 => (input2, 0%nat)
  | EARLY_NO_INPUT => (execute None None, 1%nat)
  | EARLY_DO_EFFECT => (execute (Some input1) (Some input2), 1%nat)
  end.

(* ===================================================================== *)
(** ** Speed effect *)

(** Modelled from the spec: the [CLAMP(a, b, c)] macro of BLI_utildefines.h
    is not part of the excerpt.  The spec has the value "always clamped to
    the source clip's valid range": [a] becomes [b] when it is below [b],
    [c] when it is above [c], and is kept otherwise. *)
Definition CLAMP (a b c : float) : float :=
  if F32.ltb a b then b else if F32.gtb a c then c else a.

(** The part of [SpeedControlVars] that the rebuild of the frame map
    touches; [None] is the null pointer. *)
Record SpeedControlVars : Type := {
  frameMap : option (list float)
}.

(** [lo <= e] and [e <= hi], with the comparisons of [float]: the entry
    [e] lies within [[lo, hi]]. *)
Definition within (lo hi e : float) : Prop :=
  F32.leb lo e = true /\ F32.leb e hi = true.

Section Speed.

(** The scene, the strips and the animation curves belong to the data
    model outside the excerpt; the accessors are the collaborators of the
    source. *)
Variables Scene Sequence FCurve : Type.
Variable seq1 : Sequence -> option Sequence.
Variable SEQ_time_left_handle_frame_get : Scene -> Sequence -> Z.
Variable SEQ_time_right_handle_frame_get : Scene -> Sequence -> Z.
Variable SEQ_time_strip_length_get : Scene -> Sequence -> Z.
Variable seq_effect_speed_speed_factor_curve_get : Scene -> Sequence -> option FCurve.
Variable evaluate_fcurve : FCurve -> float -> float.

(** Modelled from the spec: the memory allocator [MEM_mallocN] is a
    collaborator outside the excerpt; the array it returns has [n] cells
    of unspecified content, taken here as NaN: a cell holds a number only
    once the function has stored one into it. *)
Definition MEM_mallocN_floats (n : nat) : list float := replicate n F32.nan.

(** The loop of [seq_effect_speed_rebuild_map], on the state
    [(target_frame, frameMap)]. *)
Definition rebuild_map_loop (scene : Scene) (seq source : Sequence) (fcu : FCurve)
    (effect_strip_length : Z) (fm : list float) : float * list float :=
  for_range 1 effect_strip_length
    (fun frame_index '(target_frame, fm) =>
       let target_frame :=
         F32.add target_frame
           (evaluate_fcurve fcu
              (F32.of_int (Int.add (SEQ_time_left_handle_frame_get scene seq) frame_index))) in
       let target_frame_max := SEQ_time_strip_length_get scene source in
       let target_frame := CLAMP target_frame (F32.of_int 0) (F32.of_int target_frame_max) in
       (target_frame, <[Z.to_nat frame_index := target_frame]> fm))
    (F32.zero, fm).

(** [seq_effect_speed_rebuild_map(scene, seq)], as a function from the
    effect data of [seq] to the effect data after the call. *)
Definition seq_effect_speed_rebuild_map (scene : Scene) (seq : Sequence)
    (v : SpeedControlVars) : SpeedControlVars :=
  let effect_strip_length :=
    Int.sub (SEQ_time_right_handle_frame_get scene seq)
            (SEQ_time_left_handle_frame_get scene seq) in
  match seq1 seq with
  | None => v
  | Some source =>
    if effect_strip_length <? 1 then v
    else
      match seq_effect_speed_speed_factor_curve_get scene seq with
      | None => v
      | Some fcu =>
        let fm := MEM_mallocN_floats (Z.to_nat effect_strip_length) in
        let fm := <[0%nat := F32.zero]> fm in
        {| frameMap :=
             Some (snd (rebuild_map_loop scene seq source fcu effect_strip_length fm)) |}
      end
  end.

(** The value of the curve that iteration [frame_index] adds. *)
Definition curve_at (scene : Scene) (seq : Sequence) (fcu : FCurve) (frame_index : Z)
    : float :=
  evaluate_fcurve fcu
    (F32.of_int (Int.add (SEQ_time_left_handle_frame_get scene seq) frame_index)).

(** The upper end of the range, [float(target_frame_max)]. *)
Definition frame_max (scene : Scene) (source : Sequence) : float :=
  F32.of_int (SEQ_time_strip_length_get scene source).

(** What holds of [(target_frame, frameMap)] before iteration [i] of the
    loop: the map has [n] cells, cell 0 holds 0, [target_frame] is the
    cell written last, the cells written so far lie within the range, and
    each of them is the clamp of the cell before it plus the value of the
    curve. *)
Definition rebuild_inv (scene : Scene) (seq source : Sequence) (fcu : FCurve)
    (n : nat) (i : Z) (st : float * list float) : Prop :=
  let '(target_frame, fm) := st in
  length fm = n /\
  fm !! 0%nat = Some F32.zero /\
  fm !! Z.to_nat (i - 1) = Some target_frame /\
  (forall j, (j < Z.to_nat i)%nat ->
             exists e, fm !! j = Some e /\ within F32.zero (frame_max scene source) e) /\
  (forall j, 1 <= j < i ->
             exists prev,
               fm !! Z.to_nat (j - 1) = Some prev /\
               fm !! Z.to_nat j
               = Some (CLAMP (F32.add prev (curve_at scene seq fcu j))
                         F32.zero (frame_max scene source))).

End Speed.

(* ===================================================================== *)
(** ** Gaussian blur *)

(** The two convolution passes read the arithmetic of [float] through the
    operations below; the source runs them at [float]. *)
Section GaussianBlurPasses.

Context {F : Type} `{Inhabited F}.
Variables (fzero fone : F) (fadd fmul fdiv : F -> F -> F).

(** Modelled from the spec: [madd_v4_v4fl(r, a, f)] of BLI_math_vector is
    outside the excerpt; it adds one sample to the "weighted sum" of the
    spec, [r[k] += a[k] * f], which the byte variant of the pass writes out
    channel by channel. *)
Definition madd_v4_v4fl (r a : px F) (f : F) : px F :=
  let '(r0, r1, r2, r3) := r in
  let '(a0, a1, a2, a3) := a in
  (fadd r0 (fmul a0 f), fadd r1 (fmul a1 f), fadd r2 (fmul a2 f), fadd r3 (fmul a3 f)).

(** Modelled from the spec: [mul_v4_v4fl(r, a, f)] of BLI_math_vector is
    outside the excerpt; it divides the weighted sum by "the normalization
    denominator" of the spec, [r[k] = a[k] * f] with [f] the inverse of the
    accumulated weight, as the byte variant of the pass writes out. *)
Definition mul_v4_v4fl (a : px F) (f : F) : px F :=
  let '(a0, a1, a2, a3) := a in
  (fmul a0 f, fmul a1 f, fmul a2 f, fmul a3 f).

(** [#define INDEX(_x, _y) (((_y) * (x) + (_x)) * 4)] *)
Definition INDEX (x _x _y : Z) : Z := (_y * x + _x) * 4.

(** The loops of [do_gaussian_blur_effect_float_x], given the kernel
    half-width [size_x] and the weight table [gausstab_x]. *)
Definition gaussian_blur_pass_x (size_x : Z) (gausstab_x : list F)
    (start_line x y frame_width : Z) (rect out : list F) : list F :=
  for_range 0 y
    (fun i out =>
       for_range 0 x
         (fun j out =>
            let out_index := INDEX x j i in
            let '(accum, accum_weight) :=
              for_range (j - size_x) (j + size_x + 1)
                (fun current_x '(accum, accum_weight) =>
                   if (current_x <? 0) || (current_x >=? frame_width)
                   then (* Out of bounds. *) (accum, accum_weight)
                   else
                     let index := INDEX x current_x (i + start_line) in
                     let weight := rd gausstab_x (Z.to_nat (current_x - j + size_x)) in
                     (madd_v4_v4fl accum (load4 rect (Z.to_nat index)) weight,
                      fadd accum_weight weight))
                ((fzero, fzero, fzero, fzero), fzero) in
            store4 (Z.to_nat out_index) (mul_v4_v4fl accum (fdiv fone accum_weight)) out)
         out)
    out.

(** The loops of [do_gaussian_blur_effect_float_y]. *)
Definition gaussian_blur_pass_y (size_y : Z) (gausstab_y : list F)
    (start_line x y frame_height : Z) (rect out : list F) : list F :=
  for_range 0 y
    (fun i out =>
       for_range 0 x
         (fun j out =>
            let out_index := INDEX x j i in
            let '(accum, accum_weight) :=
              for_range (i - size_y) (i + size_y + 1)
                (fun current_y '(accum, accum_weight) =>
                   if (current_y <? - start_line) || (current_y + start_line >=? frame_height)
                   then (* Out of bounds. *) (accum, accum_weight)
                   else
                     let index := INDEX x j (current_y + start_line) in
                     let weight := rd gausstab_y (Z.to_nat (current_y - i + size_y)) in
                     (madd_v4_v4fl accum (load4 rect (Z.to_nat index)) weight,
                      fadd accum_weight weight))
                ((fzero, fzero, fzero, fzero), fzero) in
            store4 (Z.to_nat out_index) (mul_v4_v4fl accum (fdiv fone accum_weight)) out)
         out)
    out.

(** The two full-frame passes of [do_gaussian_blur_effect], one after the
    other: the horizontal pass into a first output buffer, the vertical
    pass from that buffer into a second one.  The row slices that
    [IMB_processor_apply_threaded] hands to the workers write disjoint
    rows; each pass is taken as one slice of all [recty] rows. *)
Definition gaussian_blur_two_pass (size_x size_y : Z) (gausstab_x gausstab_y : list F)
    (rectx recty : Z) (ibuf1 : list F) : list F :=
  let alloc := replicate (Z.to_nat (4 * rectx * recty)) fzero in
  let out := gaussian_blur_pass_x size_x gausstab_x 0 rectx recty rectx ibuf1 alloc in
  gaussian_blur_pass_y size_y gausstab_y 0 rectx recty recty out alloc.

End GaussianBlurPasses.

Section GaussianBlur.

(** [RE_filter_value(R_FILTER_GAUSS, x)] of the render pipeline, outside
    the excerpt: the value of the Gaussian filter at [x]. *)
Variable RE_filter_value : float -> float.

Definition make_gaussian_blur_kernel (rad : float) (size : Z) : list float :=
  let n := 2 * size + 1 in
  let gausstab := replicate (Z.to_nat n) F32.nan in
  let fac := if F32.gtb rad F32.zero then F32.div F32.one rad else F32.zero in
  let '(sum, gausstab) :=
    for_range (- size) (size + 1)
      (fun i '(sum, gausstab) =>
         let val := RE_filter_value (F32.mul (F32.of_int i) fac) in
         (F32.add sum val, <[Z.to_nat (i + size) := val]> gausstab))
      (F32.zero, gausstab) in
  let sum := F32.div F32.one sum in
  for_range 0 n
    (fun i gausstab => <[Z.to_nat i := F32.mul (rd gausstab (Z.to_nat i)) sum]> gausstab)
    gausstab.

Definition do_gaussian_blur_effect_float_x (data : GaussianBlurVars)
    (start_line x y frame_width frame_height : Z) (rect out : list float) : list float :=
  let rad := size_x data in
  let size_x := F32.to_int (F32.add rad f0_5) in
  let gausstab_x := make_gaussian_blur_kernel rad size_x in
  gaussian_blur_pass_x F32.zero F32.one F32.add F32.mul F32.div
    size_x gausstab_x start_line x y frame_width rect out.

Definition do_gaussian_blur_effect_float_y (data : GaussianBlurVars)
    (start_line x y frame_width frame_height : Z) (rect out : list float) : list float :=
  let rad := size_y data in
  let size_y := F32.to_int (F32.add rad f0_5) in
  let gausstab_y := make_gaussian_blur_kernel rad size_y in
  gaussian_blur_pass_y F32.zero F32.one F32.add F32.mul F32.div
    size_y gausstab_y start_line x y frame_height rect out.

(** [do_gaussian_blur_effect] on a float image of [rectx] by [recty]
    pixels: the horizontal pass over the whole frame into a fresh buffer,
    then the vertical pass from that buffer into a second fresh buffer. *)
Definition do_gaussian_blur_effect_float (data : GaussianBlurVars)
    (rectx recty : Z) (ibuf1 : list float) : list float :=
  let alloc := replicate (Z.to_nat (4 * rectx * recty)) F32.zero in
  let out := do_gaussian_blur_effect_float_x data 0 rectx recty rectx recty ibuf1 alloc in
  do_gaussian_blur_effect_float_y data 0 rectx recty rectx recty out alloc.

End GaussianBlur.

(** *** Uniform images *)

(** An image of [n] pixels that all hold the color [col]. *)
Fixpoint uniform_image {A : Type} (n : nat) (col : px A) : list A :=
  match n with
  | O => []
  | S n' => chan 0 col :: chan 1 col :: chan 2 col :: chan 3 col :: uniform_image n' col
  end.



(** The float nearest to 0.1. *)
Definition f0_1 : float := S754_finite false 13421773 (-27).

(** *** Values of floats and roundings *)



(** A bound of the relative error of one rounding to nearest in single
    precision, for a result that is a normal number: [2^-23], twice the
    unit roundoff. *)
Definition roundoff : Q := (1 # 8388608)%Q.







(* ===================================================================== *)
(** ** Output buffer preparation *)

(** The part of [ImBuf] the effects look at: the two pixel storages, each
    of which may be absent ([None] is a null [data] pointer). *)
Record ImBuf : Type := {
  byte_buffer : option (list Z);
  float_buffer : option (list float)
}.

(** The flags of [IMB_allocImBuf] used by the effects. *)
Inductive IB_flag : Set := IB_rect | IB_rectfloat.

Section PrepareImbufs.

(** Modelled from the spec: the buffer allocator [IMB_allocImBuf] is a
    collaborator outside the excerpt, "[allocate(width, height, format) ->
    buffer]": the new image has the storage of the requested format, byte
    for [IB_rect] and float for [IB_rectfloat], and no other. *)
Definition IMB_allocImBuf (x y : Z) (planes : Z) (flags : IB_flag) : ImBuf :=
  match flags with
  | IB_rect =>
    {| byte_buffer := Some (replicate (Z.to_nat (4 * x * y)) 0);
       float_buffer := None |}
  | IB_rectfloat =>
    {| byte_buffer := None;
       float_buffer := Some (replicate (Z.to_nat (4 * x * y)) F32.zero) |}
  end.

(** The conversions of an input to the representation of the output
    ([seq_imbuf_to_sequencer_space] with float creation, and
    [IMB_rect_from_float]) and the metadata copy are collaborators outside
    the excerpt; they act on the images they are given. *)
Variable seq_imbuf_to_sequencer_space : ImBuf -> ImBuf.
Variable IMB_rect_from_float : ImBuf -> ImBuf.

Definition has_float (ibuf : option ImBuf) : bool :=
  match ibuf with
  | Some i => match float_buffer i with Some _ => true | None => false end
  | None => false
  end.

Definition is_null (ibuf : option ImBuf) : bool :=
  match ibuf with Some _ => false | None => true end.

(** [if (ibuf && !ibuf->float_buffer.data) seq_imbuf_to_sequencer_space(...)] *)
Definition ensure_float (ibuf : option ImBuf) : option ImBuf :=
  match ibuf with
  | Some i =>
    match float_buffer i with
    | None => Some (seq_imbuf_to_sequencer_space i)
    | Some _ => ibuf
    end
  | None => None
  end.

(** [if (ibuf && !ibuf->byte_buffer.data) IMB_rect_from_float(ibuf)] *)
Definition ensure_byte (ibuf : option ImBuf) : option ImBuf :=
  match ibuf with
  | Some i =>
    match byte_buffer i with
    | None => Some (IMB_rect_from_float i)
    | Some _ => ibuf
    end
  | None => None
  end.

(** [prepare_effect_imbufs]: the output image, and the three inputs after
    the conversions done in place. *)
Definition prepare_effect_imbufs (rectx recty : Z) (ibuf1 ibuf2 ibuf3 : option ImBuf)
    : ImBuf * (option ImBuf * option ImBuf * option ImBuf) :=
  let x := rectx in
  let y := recty in
  let out :=
    if is_null ibuf1 && is_null ibuf2 && is_null ibuf3 then
      (* hmmm, global float option ? *)
      IMB_allocImBuf x y 32 IB_rect
    else if has_float ibuf1 || has_float ibuf2 || has_float ibuf3 then
      (* if any inputs are rectfloat, output is float too *)
      IMB_allocImBuf x y 32 IB_rectfloat
    else
      IMB_allocImBuf x y 32 IB_rect in
  match float_buffer out with
  | Some _ => (out, (ensure_float ibuf1, ensure_float ibuf2, ensure_float ibuf3))
  | None => (out, (ensure_byte ibuf1, ensure_byte ibuf2, ensure_byte ibuf3))
  end.

(** The test [if (out->float_buffer.data)] with which every effect picks
    its float or its byte path. *)
Definition takes_float_path (out : ImBuf) : bool :=
  match float_buffer out with Some _ => true | None => false end.

End PrepareImbufs.

(* ===================================================================== *)
(** ** Effect handle registry *)

(** The functions a handle can point to, by field. *)
Module Fn.

Inductive init : Set :=
  | init_noop | init_colormix_effect | init_alpha_over_or_under
  | init_wipe_effect | init_glow_effect | init_transform_effect
  | init_speed_effect | init_solid_color | init_gaussian_blur_effect
  | init_text_effect.

Inductive num_inputs : Set :=
  | num_inputs_default | num_inputs_wipe | num_inputs_glow
  | num_inputs_transform | num_inputs_speed | num_inputs_color
  | num_inputs_multicam | num_inputs_adjustment
  | num_inputs_gaussian_blur | num_inputs_text.

Inductive load : Set := load_noop | load_speed_effect | load_text_effect.

Inductive free : Set :=
  | free_noop | free_effect_default | free_wipe_effect | free_glow_effect
  | free_transform_effect | free_speed_effect | free_solid_color
  | free_gaussian_blur_effect | free_text_effect.

Inductive early_out : Set :=
  | early_out_noop | early_out_fade | early_out_mul_input2
  | early_out_mul_input1 | early_out_speed | early_out_color
  | early_out_multicam | early_out_adjustment | early_out_gaussian_blur
  | early_out_text.

Inductive get_default_fac : Set := get_default_fac_noop | get_default_fac_fade.

Inductive execute : Set :=
  | do_wipe_effect | do_glow_effect | do_speed_effect | do_solid_color
  | do_multicam | do_adjustment | do_gaussian_blur_effect | do_text_effect.

Inductive init_execution : Set := init_execution_default | gammacross_init_execution.

Inductive execute_slice : Set :=
  | do_cross_effect | do_gammacross_effect | do_add_effect | do_sub_effect
  | do_mul_effect | do_blend_mode_effect | do_colormix_effect
  | do_alphaover_effect | do_overdrop_effect | do_alphaunder_effect
  | do_transform_effect.

Inductive copy : Set :=
  | copy_effect_default | copy_wipe_effect | copy_glow_effect
  | copy_transform_effect | copy_speed_effect | copy_solid_color
  | copy_gaussian_blur_effect | copy_text_effect.

End Fn.

(** [struct SeqEffectHandle]; a field that can hold [nullptr] is an
    option. *)
Record SeqEffectHandle : Type := {
  multithreaded : bool;
  supports_mask : bool;
  init : Fn.init;
  num_inputs : Fn.num_inputs;
  load : Fn.load;
  free : Fn.free;
  early_out : Fn.early_out;
  get_default_fac : Fn.get_default_fac;
  execute : option Fn.execute;
  init_execution : option Fn.init_execution;
  execute_slice : option Fn.execute_slice;
  copy : option Fn.copy
}.

(** The handle as [get_sequence_effect_impl] sets it up before the
    [switch]. *)
Definition default_handle : SeqEffectHandle := {|
  multithreaded := false;
  supports_mask := false;
  init := Fn.init_noop;
  num_inputs := Fn.num_inputs_default;
  load := Fn.load_noop;
  free := Fn.free_noop;
  early_out := Fn.early_out_noop;
  get_default_fac := Fn.get_default_fac_noop;
  execute := None;
  init_execution := Some Fn.init_execution_default;
  execute_slice := None;
  copy := None
|}.

(** The assignments [rval.field = value] of the [switch]. *)
Definition set_multithreaded (b : bool) (h : SeqEffectHandle) : SeqEffectHandle :=
  {| multithreaded := b; supports_mask := supports_mask h; init := init h;
     num_inputs := num_inputs h; load := load h; free := free h;
     early_out := early_out h; get_default_fac := get_default_fac h;
     execute := execute h; init_execution := init_execution h;
     execute_slice := execute_slice h; copy := copy h |}.

Definition set_supports_mask (b : bool) (h : SeqEffectHandle) : SeqEffectHandle :=
  {| multithreaded := multithreaded h; supports_mask := b; init := init h;
     num_inputs := num_inputs h; load := load h; free := free h;
     early_out := early_out h; get_default_fac := get_default_fac h;
     execute := execute h; init_execution := init_execution h;
     execute_slice := execute_slice h; copy := copy h |}.

Definition set_init (f : Fn.init) (h : SeqEffectHandle) : SeqEffectHandle :=
  {| multithreaded := multithreaded h; supports_mask := supports_mask h; init := f;
     num_inputs := num_inputs h; load := load h; free := free h;
     early_out := early_out h; get_default_fac := get_default_fac h;
     execute := execute h; init_execution := init_execution h;
     execute_slice := execute_slice h; copy := copy h |}.

Definition set_num_inputs (f : Fn.num_inputs) (h : SeqEffectHandle) : SeqEffectHandle :=
  {| multithreaded := multithreaded h; supports_mask := supports_mask h; init := init h;
     num_inputs := f; load := load h; free := free h;
     early_out := early_out h; get_default_fac := get_default_fac h;
     execute := execute h; init_execution := init_execution h;
     execute_slice := execute_slice h; copy := copy h |}.

Definition set_load (f : Fn.load) (h : SeqEffectHandle) : SeqEffectHandle :=
  {| multithreaded := multithreaded h; supports_mask := supports_mask h; init := init h;
     num_inputs := num_inputs h; load := f; free := free h;
     early_out := early_out h; get_default_fac := get_default_fac h;
     execute := execute h; init_execution := init_execution h;
     execute_slice := execute_slice h; copy := copy h |}.

Definition set_free (f : Fn.free) (h : SeqEffectHandle) : SeqEffectHandle :=
  {| multithreaded := multithreaded h; supports_mask := supports_mask h; init := init h;
     num_inputs := num_inputs h; load := load h; free := f;
     early_out := early_out h; get_default_fac := get_default_fac h;
     execute := execute h; init_execution := init_execution h;
     execute_slice := execute_slice h; copy := copy h |}.

Definition set_early_out (f : Fn.early_out) (h : SeqEffectHandle) : SeqEffectHandle :=
  {| multithreaded := multithreaded h; supports_mask := supports_mask h; init := init h;
     num_inputs := num_inputs h; load := load h; free := free h;
     early_out := f; get_default_fac := get_default_fac h;
     execute := execute h; init_execution := init_execution h;
     execute_slice := execute_slice h; copy := copy h |}.

Definition set_get_default_fac (f : Fn.get_default_fac) (h : SeqEffectHandle)
    : SeqEffectHandle :=
  {| multithreaded := multithreaded h; supports_mask := supports_mask h; init := init h;
     num_inputs := num_inputs h; load := load h; free := free h;
     early_out := early_out h; get_default_fac := f;
     execute := execute h; init_execution := init_execution h;
     execute_slice := execute_slice h; copy := copy h |}.

Definition set_execute (f : Fn.execute) (h : SeqEffectHandle) : SeqEffectHandle :=
  {| multithreaded := multithreaded h; supports_mask := supports_mask h; init := init h;
     num_inputs := num_inputs h; load := load h; free := free h;
     early_out := early_out h; get_default_fac := get_default_fac h;
     execute := Some f; init_execution := init_execution h;
     execute_slice := execute_slice h; copy := copy h |}.

Definition set_init_execution (f : Fn.init_execution) (h : SeqEffectHandle)
    : SeqEffectHandle :=
  {| multithreaded := multithreaded h; supports_mask := supports_mask h; init := init h;
     num_inputs := num_inputs h; load := load h; free := free h;
     early_out := early_out h; get_default_fac := get_default_fac h;
     execute := execute h; init_execution := Some f;
     execute_slice := execute_slice h; copy := copy h |}.

Definition set_execute_slice (f : Fn.execute_slice) (h : SeqEffectHandle)
    : SeqEffectHandle :=
  {| multithreaded := multithreaded h; supports_mask := supports_mask h; init := init h;
     num_inputs := num_inputs h; load := load h; free := free h;
     early_out := early_out h; get_default_fac := get_default_fac h;
     execute := execute h; init_execution := init_execution h;
     execute_slice := Some f; copy := copy h |}.

Definition set_copy (f : Fn.copy) (h : SeqEffectHandle) : SeqEffectHandle :=
  {| multithreaded := multithreaded h; supports_mask := supports_mask h; init := init h;
     num_inputs := num_inputs h; load := load h; free := free h;
     early_out := early_out h; get_default_fac := get_default_fac h;
     execute := execute h; init_execution := init_execution h;
     execute_slice := execute_slice h; copy := Some f |}.

(** A block of assignments, run in order. *)
Definition assign (h : SeqEffectHandle)
    (block : list (SeqEffectHandle -> SeqEffectHandle)) : SeqEffectHandle :=
  fold_left (fun h f => f h) block h.

Definition get_sequence_effect_impl (seq_type : seq_type) : SeqEffectHandle :=
  let rval := default_handle in
  match seq_type with
  | SEQ_TYPE_CROSS =>
    assign rval [set_multithreaded true;
                 set_execute_slice Fn.do_cross_effect;
                 set_early_out Fn.early_out_fade;
                 set_get_default_fac Fn.get_default_fac_fade]
  | SEQ_TYPE_GAMCROSS =>
    assign rval [set_multithreaded true;
                 set_early_out Fn.early_out_fade;
                 set_get_default_fac Fn.get_default_fac_fade;
                 set_init_execution Fn.gammacross_init_execution;
                 set_execute_slice Fn.do_gammacross_effect]
  | SEQ_TYPE_ADD =>
    assign rval [set_multithreaded true;
                 set_execute_slice Fn.do_add_effect;
                 set_early_out Fn.early_out_mul_input2]
  | SEQ_TYPE_SUB =>
    assign rval [set_multithreaded true;
                 set_execute_slice Fn.do_sub_effect;
                 set_early_out Fn.early_out_mul_input2]
  | SEQ_TYPE_MUL =>
    assign rval [set_multithreaded true;
                 set_execute_slice Fn.do_mul_effect;
                 set_early_out Fn.early_out_mul_input2]
  | SEQ_TYPE_SCREEN | SEQ_TYPE_OVERLAY | SEQ_TYPE_COLOR_BURN
  | SEQ_TYPE_LINEAR_BURN | SEQ_TYPE_DARKEN | SEQ_TYPE_LIGHTEN
  | SEQ_TYPE_DODGE | SEQ_TYPE_SOFT_LIGHT | SEQ_TYPE_HARD_LIGHT
  | SEQ_TYPE_PIN_LIGHT | SEQ_TYPE_LIN_LIGHT | SEQ_TYPE_VIVID_LIGHT
  | SEQ_TYPE_BLEND_COLOR | SEQ_TYPE_HUE | SEQ_TYPE_SATURATION
  | SEQ_TYPE_VALUE | SEQ_TYPE_DIFFERENCE | SEQ_TYPE_EXCLUSION =>
    assign rval [set_multithreaded true;
                 set_execute_slice Fn.do_blend_mode_effect;
                 set_early_out Fn.early_out_mul_input2]
  | SEQ_TYPE_COLORMIX =>
    assign rval [set_multithreaded true;
                 set_init Fn.init_colormix_effect;
                 set_free Fn.free_effect_default;
                 set_copy Fn.copy_effect_default;
                 set_execute_slice Fn.do_colormix_effect;
                 set_early_out Fn.early_out_mul_input2]
  | SEQ_TYPE_ALPHAOVER =>
    assign rval [set_multithreaded true;
                 set_init Fn.init_alpha_over_or_under;
                 set_execute_slice Fn.do_alphaover_effect;
                 set_early_out Fn.early_out_mul_input1]
  | SEQ_TYPE_OVERDROP =>
    assign rval [set_multithreaded true;
                 set_execute_slice Fn.do_overdrop_effect]
  | SEQ_TYPE_ALPHAUNDER =>
    assign rval [set_multithreaded true;
                 set_init Fn.init_alpha_over_or_under;
                 set_execute_slice Fn.do_alphaunder_effect]
  | SEQ_TYPE_WIPE =>
    assign rval [set_init Fn.init_wipe_effect;
                 set_num_inputs Fn.num_inputs_wipe;
                 set_free Fn.free_wipe_effect;
                 set_copy Fn.copy_wipe_effect;
                 set_early_out Fn.early_out_fade;
                 set_get_default_fac Fn.get_default_fac_fade;
                 set_execute Fn.do_wipe_effect]
  | SEQ_TYPE_GLOW =>
    assign rval [set_init Fn.init_glow_effect;
                 set_num_inputs Fn.num_inputs_glow;
                 set_free Fn.free_glow_effect;
                 set_copy Fn.copy_glow_effect;
                 set_execute Fn.do_glow_effect]
  | SEQ_TYPE_TRANSFORM =>
    assign rval [set_multithreaded true;
                 set_init Fn.init_transform_effect;
                 set_num_inputs Fn.num_inputs_transform;
                 set_free Fn.free_transform_effect;
                 set_copy Fn.copy_transform_effect;
                 set_execute_slice Fn.do_transform_effect]
  | SEQ_TYPE_SPEED =>
    assign rval [set_init Fn.init_speed_effect;
                 set_num_inputs Fn.num_inputs_speed;
                 set_load Fn.load_speed_effect;
                 set_free Fn.free_speed_effect;
                 set_copy Fn.copy_speed_effect;
                 set_execute Fn.do_speed_effect;
                 set_early_out Fn.early_out_speed]
  | SEQ_TYPE_COLOR =>
    assign rval [set_init Fn.init_solid_color;
                 set_num_inputs Fn.num_inputs_color;
                 set_early_out Fn.early_out_color;
                 set_free Fn.free_solid_color;
                 set_copy Fn.copy_solid_color;
                 set_execute Fn.do_solid_color]
  | SEQ_TYPE_MULTICAM =>
    assign rval [set_num_inputs Fn.num_inputs_multicam;
                 set_early_out Fn.early_out_multicam;
                 set_execute Fn.do_multicam]
  | SEQ_TYPE_ADJUSTMENT =>
    assign rval [set_supports_mask true;
                 set_num_inputs Fn.num_inputs_adjustment;
                 set_early_out Fn.early_out_adjustment;
                 set_execute Fn.do_adjustment]
  | SEQ_TYPE_GAUSSIAN_BLUR =>
    assign rval [set_init Fn.init_gaussian_blur_effect;
                 set_num_inputs Fn.num_inputs_gaussian_blur;
                 set_free Fn.free_gaussian_blur_effect;
                 set_copy Fn.copy_gaussian_blur_effect;
                 set_early_out Fn.early_out_gaussian_blur;
                 set_execute Fn.do_gaussian_blur_effect]
  | SEQ_TYPE_TEXT =>
    assign rval [set_num_inputs Fn.num_inputs_text;
                 set_init Fn.init_text_effect;
                 set_free Fn.free_text_effect;
                 set_load Fn.load_text_effect;
                 set_copy Fn.copy_text_effect;
                 set_early_out Fn.early_out_text;
                 set_execute Fn.do_text_effect]
  | SEQ_TYPE_other => rval
  end.

(** [if (p)] on a pointer. *)
Definition non_null {A : Type} (p : option A) : bool :=
  match p with Some _ => true | None => false end.

(** The bodies of the [num_inputs_*] functions. *)
Definition call_num_inputs (f : Fn.num_inputs) : Z :=
  match f with
  | Fn.num_inputs_default => 2
  | Fn.num_inputs_wipe => 2
  | Fn.num_inputs_glow => 1
  | Fn.num_inputs_transform => 1
  | Fn.num_inputs_speed => 1
  | Fn.num_inputs_color => 0
  | Fn.num_inputs_multicam => 0
  | Fn.num_inputs_adjustment => 0
  | Fn.num_inputs_gaussian_blur => 1
  | Fn.num_inputs_text => 0
  end.

Definition SEQ_effect_get_num_inputs (seq_type : seq_type) : Z :=
  let rval := get_sequence_effect_impl seq_type in
  let count := call_num_inputs (num_inputs rval) in
  if non_null (execute rval)
     || (non_null (execute_slice rval) && non_null (init_execution rval))
  then count
  else 0.

(** The part of [TextVars] that [early_out_text] reads. *)
Record TextVars : Type := {
  text : list Z;
  text_size : float;
  color : px float;
  shadow_color : px float;
  flag : Z
}.

(** What [seq->effectdata] points to. *)
Inductive effectdata_t : Type :=
  | effectdata_null
  | effectdata_gaussian_blur (data : GaussianBlurVars)
  | effectdata_speed (data : SpeedControlVars)
  | effectdata_text (data : TextVars).

Section EarlyOutDispatch.

(** The flag bit [SEQ_TEXT_SHADOW] of DNA_sequence_types.h. *)
Variable SEQ_TEXT_SHADOW : Z.

Definition early_out_text (data : TextVars) (fac : float) : early_out_t :=
  if (rd (text data) 0 =? 0)
     || F32.ltb (text_size data) F32.one
     || (F32.eqb (chan 3 (color data)) F32.zero
         && (F32.eqb (chan 3 (shadow_color data)) F32.zero
             || (Z.land (flag data) SEQ_TEXT_SHADOW =? 0)))
  then EARLY_USE_INPUT_1
  else EARLY_NO_INPUT.

(** A call [sh.early_out(seq, fac)] through the handle; [None] when the
    function would read [seq->effectdata] through the wrong shape. *)
Definition call_early_out (f : Fn.early_out) (effectdata : effectdata_t) (fac : float)
    : option early_out_t :=
  match f with
  | Fn.early_out_noop => Some (early_out_noop fac)
  | Fn.early_out_fade => Some (early_out_fade fac)
  | Fn.early_out_mul_input2 => Some (early_out_mul_input2 fac)
  | Fn.early_out_mul_input1 => Some (early_out_mul_input1 fac)
  | Fn.early_out_speed => Some (early_out_speed fac)
  | Fn.early_out_color => Some (early_out_color fac)
  | Fn.early_out_multicam => Some (early_out_multicam fac)
  | Fn.early_out_adjustment => Some (early_out_adjustment fac)
  | Fn.early_out_gaussian_blur =>
    match effectdata with
    | effectdata_gaussian_blur data => Some (early_out_gaussian_blur data fac)
    | _ => None
    end
  | Fn.early_out_text =>
    match effectdata with
    | effectdata_text data => Some (early_out_text data fac)
    | _ => None
    end
  end.

End EarlyOutDispatch.

(** The part of [struct Sequence] that the handle lookup reads and
    writes. *)
Module Seq.

Record Sequence : Type := {
  type : seq_type;
  flag : Z;
  effectdata : effectdata_t
}.

End Seq.

(** [struct Sequence] as [SEQ_effect_handle_get] reads and writes it: the
    function tests a bit of the [int] in [seq->type] before the switch of
    [get_sequence_effect_impl] compares that [int] with its case labels,
    so the field is kept as the [int] it is. *)
Module Strip.

Record Sequence : Type := {
  type : Z;
  flag : Z;
  effectdata : effectdata_t
}.

End Strip.

Section HandleGet.

(** The flag bit [SEQ_EFFECT_NOT_LOADED] of DNA_sequence_types.h, and the
    font loader of the text effect, outside the excerpt. *)
Variable SEQ_EFFECT_NOT_LOADED : Z.
Variable SEQ_effect_text_font_load : TextVars -> TextVars.

(** The values of the type constants are in DNA_sequence_types.h, outside
    the excerpt: [SEQ_TYPE_EFFECT] is the bit that [SEQ_effect_handle_get]
    tests, and [seq_type_of_int v] is the case label of the switch of
    [get_sequence_effect_impl] that the [int] [v] equals, [SEQ_TYPE_other]
    when it equals none.  A value can have the bit and no case label, or a
    case label and not the bit. *)
Variable SEQ_TYPE_EFFECT : Z.
Variable seq_type_of_int : Z -> seq_type.

(** A call [rval.load(seq)]: the three load functions write the effect
    data only. *)
Definition call_load (f : Fn.load) (data : effectdata_t) : effectdata_t :=
  match f with
  | Fn.load_noop => data
  | Fn.load_speed_effect =>
    match data with
    | effectdata_speed v => effectdata_speed {| frameMap := None |}
    | _ => data
    end
  | Fn.load_text_effect =>
    match data with
    | effectdata_text d => effectdata_text (SEQ_effect_text_font_load d)
    | _ => data
    end
  end.

(** [SEQ_effect_handle_get(seq)]: the handle, and the strip after the
    call; [None] is the all-null handle [{false, false, nullptr}]. *)
Definition SEQ_effect_handle_get (seq : Strip.Sequence)
    : option SeqEffectHandle * Strip.Sequence :=
  if negb (Z.land (Strip.type seq) SEQ_TYPE_EFFECT =? 0) then
    let rval := get_sequence_effect_impl (seq_type_of_int (Strip.type seq)) in
    if negb (Z.land (Strip.flag seq) SEQ_EFFECT_NOT_LOADED =? 0) then
      (Some rval,
       {| Strip.type := Strip.type seq;
          Strip.flag := Z.land (Strip.flag seq) (Z.lnot SEQ_EFFECT_NOT_LOADED);
          Strip.effectdata := call_load (load rval) (Strip.effectdata seq) |})
    else (Some rval, seq)
  else (None, seq).

End HandleGet.

(** The grouping of the effect types by number of inputs, as the spec
    gives it. *)
Definition effects_without_input : list seq_type :=
  [SEQ_TYPE_COLOR; SEQ_TYPE_MULTICAM; SEQ_TYPE_ADJUSTMENT; SEQ_TYPE_TEXT].

Definition effects_with_one_input : list seq_type :=
  [SEQ_TYPE_TRANSFORM; SEQ_TYPE_GLOW; SEQ_TYPE_GAUSSIAN_BLUR; SEQ_TYPE_SPEED].

Definition effects_with_two_inputs : list seq_type :=
  [SEQ_TYPE_CROSS; SEQ_TYPE_GAMCROSS; SEQ_TYPE_ALPHAOVER; SEQ_TYPE_ALPHAUNDER;
   SEQ_TYPE_ADD; SEQ_TYPE_SUB; SEQ_TYPE_MUL; SEQ_TYPE_WIPE;
   SEQ_TYPE_SCREEN; SEQ_TYPE_OVERLAY; SEQ_TYPE_COLOR_BURN; SEQ_TYPE_LINEAR_BURN;
   SEQ_TYPE_DARKEN; SEQ_TYPE_LIGHTEN; SEQ_TYPE_DODGE; SEQ_TYPE_SOFT_LIGHT;
   SEQ_TYPE_HARD_LIGHT; SEQ_TYPE_PIN_LIGHT; SEQ_TYPE_LIN_LIGHT; SEQ_TYPE_VIVID_LIGHT;
   SEQ_TYPE_BLEND_COLOR; SEQ_TYPE_HUE; SEQ_TYPE_SATURATION; SEQ_TYPE_VALUE;
   SEQ_TYPE_DIFFERENCE; SEQ_TYPE_EXCLUSION;
   SEQ_TYPE_COLORMIX; SEQ_TYPE_OVERDROP].

Section SequenceBlend.

(** The flag bit [SEQ_EFFECT_NOT_LOADED] and the font loader of the text
    effect, as for [SEQ_effect_handle_get]. *)
Variable SEQ_EFFECT_NOT_LOADED : Z.
Variable SEQ_effect_text_font_load : TextVars -> TextVars.

(** [seq_effect_get_sequence_blend(seq)]: the handle of the blend mode of
    a strip, and the strip after the call.  [blend_mode] is the field
    [seq->blend_mode], which the record [Seq.Sequence] leaves out: [None]
    when it is 0, [Some t] when it is the non-zero value [t]. *)
Definition seq_effect_get_sequence_blend (seq : Seq.Sequence)
    (blend_mode : option seq_type) : option SeqEffectHandle * Seq.Sequence :=
  match blend_mode with
  | None => (None, seq)
  | Some blend_mode =>
    let seq :=
      if negb (Z.land (Seq.flag seq) SEQ_EFFECT_NOT_LOADED =? 0) then
        (* load the effect first *)
        let rval := get_sequence_effect_impl (Seq.type seq) in
        {| Seq.type := Seq.type seq;
           Seq.flag := Seq.flag seq;
           Seq.effectdata :=
             call_load SEQ_effect_text_font_load (load rval) (Seq.effectdata seq) |}
      else seq in
    let rval := get_sequence_effect_impl blend_mode in
    if negb (Z.land (Seq.flag seq) SEQ_EFFECT_NOT_LOADED =? 0) then
      (* now load the blend and unset unloaded flag *)
      (Some rval,
       {| Seq.type := Seq.type seq;
          Seq.flag := Z.land (Seq.flag seq) (Z.lnot SEQ_EFFECT_NOT_LOADED);
          Seq.effectdata :=
            call_load SEQ_effect_text_font_load (load rval) (Seq.effectdata seq) |})
    else (Some rval, seq)
  end.

End SequenceBlend.

(* ===================================================================== *)
(** ** Alpha under effect *)

Section AlphaUnder.

(** The conversions of BLI_math_color, as for the alpha over effect. *)
Variable straight_uchar_to_premul_float : px Z -> px float.
Variable premul_float_to_straight_uchar : px float -> px Z.

Definition do_alphaunder_effect_byte (fac : float) (x y : Z)
    (rect1 rect2 out : list Z) : list Z :=
  pixel_loop x y
    (fun p rt =>
       (* rt = rt1 under rt2  (alpha from rt2) *)
       let cp1 := load4 rect1 p in
       let cp2 := load4 rect2 p in
       let rt1 := straight_uchar_to_premul_float cp1 in
       let rt2 := straight_uchar_to_premul_float cp2 in
       if F32.leb (chan 3 rt2) F32.zero && F32.geb fac F32.one then store4 p cp1 rt
       else if F32.geb (chan 3 rt2) F32.one then store4 p cp2 rt
       else
         let temp_fac := F32.mul fac (F32.sub F32.one (chan 3 rt2)) in
         if F32.leb fac (F32.of_int 0) then store4 p cp2 rt
         else
           let ch c := F32.add (F32.mul temp_fac (chan c rt1)) (chan c rt2) in
           store4 p (premul_float_to_straight_uchar (ch 0, ch 1, ch 2, ch 3)%nat) rt)
    out.

End AlphaUnder.

Definition do_alphaunder_effect_float (fac : float) (x y : Z)
    (rect1 rect2 out : list float) : list float :=
  pixel_loop x y
    (fun p rt =>
       (* rt = rt1 under rt2  (alpha from rt2) *)
       if F32.leb (rd rect2 (p + 3)) (F32.of_int 0) && F32.geb fac F32.one
       then store4 p (load4 rect1 p) rt
       else if F32.geb (rd rect2 (p + 3)) F32.one then store4 p (load4 rect2 p) rt
       else
         let temp_fac := F32.mul fac (F32.sub F32.one (rd rect2 (p + 3))) in
         if F32.eqb fac (F32.of_int 0) then store4 p (load4 rect2 p) rt
         else
           let ch c := F32.add (F32.mul temp_fac (rd rect1 (p + c))) (rd rect2 (p + c)) in
           store4 p (ch 0, ch 1, ch 2, ch 3)%nat rt)
    out.

(* ===================================================================== *)
(** ** Row slices *)

(** A pointer into a buffer: the buffer and the offset of the cell the
    pointer is at. *)
Record ptr (A : Type) : Type := {
  ptr_base : list A;
  ptr_offset : Z
}.
Arguments ptr_base {A} _.
Arguments ptr_offset {A} _.

(** The memory at a pointer, as a function that is handed the pointer as
    an array sees it: the cells from the offset on. *)
Definition cells {A} (p : ptr A) : list A := drop (Z.to_nat (ptr_offset p)) (ptr_base p).

(** The buffer after a function that was handed the pointer as an array
    left the cells [new] there. *)
Definition write_cells {A} (p : ptr A) (new : list A) : list A :=
  take (Z.to_nat (ptr_offset p)) (ptr_base p) ++ new.

(** [slice_get_byte_buffers]: the four pointers [*rect1], [*rect2],
    [*rect3] and [*rect_out] after the call, each of them null ([None])
    before it.  A pointer into the storage of an image that has no such
    storage is [None] as well. *)
Definition slice_get_byte_buffers (rectx : Z) (ibuf1 : ImBuf) (ibuf2 ibuf3 : option ImBuf)
    (out : ImBuf) (start_line : Z)
    : option (ptr Z) * option (ptr Z) * option (ptr Z) * option (ptr Z) :=
  let offset := Int.mul (Int.mul 4 start_line) rectx in
  let plus_offset data := {| ptr_base := data; ptr_offset := offset |} in
  (option_map plus_offset (byte_buffer ibuf1),
   ibuf2 ≫= (fun ibuf2 => option_map plus_offset (byte_buffer ibuf2)),
   ibuf3 ≫= (fun ibuf3 => option_map plus_offset (byte_buffer ibuf3)),
   option_map plus_offset (byte_buffer out)).

Definition slice_get_float_buffers (rectx : Z) (ibuf1 : ImBuf) (ibuf2 ibuf3 : option ImBuf)
    (out : ImBuf) (start_line : Z)
    : option (ptr float) * option (ptr float) * option (ptr float) * option (ptr float) :=
  let offset := Int.mul (Int.mul 4 start_line) rectx in
  let plus_offset data := {| ptr_base := data; ptr_offset := offset |} in
  (option_map plus_offset (float_buffer ibuf1),
   ibuf2 ≫= (fun ibuf2 => option_map plus_offset (float_buffer ibuf2)),
   ibuf3 ≫= (fun ibuf3 => option_map plus_offset (float_buffer ibuf3)),
   option_map plus_offset (float_buffer out)).

(** The image [out] with the content of its float storage, or of its byte
    storage, replaced. *)
Definition with_float_buffer (out : ImBuf) (data : list float) : ImBuf :=
  {| byte_buffer := byte_buffer out; float_buffer := Some data |}.

Definition with_byte_buffer (out : ImBuf) (data : list Z) : ImBuf :=
  {| byte_buffer := Some data; float_buffer := float_buffer out |}.

(** The body shared by the [execute_slice] functions of the two-input
    effects: the pointers of the slice, then the float or the byte variant
    of the effect on [rectx * total_lines] pixels.  The result is the image
    [out] after the call, [None] when a null pointer is read or written. *)
Definition run_slice
    (effect_float : Z -> Z -> list float -> list float -> list float -> list float)
    (effect_byte : Z -> Z -> list Z -> list Z -> list Z -> list Z)
    (rectx : Z) (ibuf1 : ImBuf) (ibuf2 : option ImBuf)
    (start_line total_lines : Z) (out : ImBuf) : option ImBuf :=
  match float_buffer out with
  | Some _ =>
    match slice_get_float_buffers rectx ibuf1 ibuf2 None out start_line with
    | (Some rect1, Some rect2, _, Some rect_out) =>
      Some (with_float_buffer out
              (write_cells rect_out
                 (effect_float rectx total_lines (cells rect1) (cells rect2) (cells rect_out))))
    | _ => None
    end
  | None =>
    match slice_get_byte_buffers rectx ibuf1 ibuf2 None out start_line with
    | (Some rect1, Some rect2, _, Some rect_out) =>
      Some (with_byte_buffer out
              (write_cells rect_out
                 (effect_byte rectx total_lines (cells rect1) (cells rect2) (cells rect_out))))
    | _ => None
    end
  end.

Definition do_cross_effect (rectx : Z) (fac : float) (ibuf1 : ImBuf) (ibuf2 : option ImBuf)
    (start_line total_lines : Z) (out : ImBuf) : option ImBuf :=
  run_slice (do_cross_effect_float fac) (do_cross_effect_byte fac)
    rectx ibuf1 ibuf2 start_line total_lines out.

(** The rows of a slice lie inside every storage that the image [out]
    has. *)
Definition slice_fits (rectx start_line total_lines : Z) (out : ImBuf) : Prop :=
  let offset := Int.mul (Int.mul 4 start_line) rectx in
  0 <= offset /\
  (forall data, float_buffer out = Some data ->
     offset + 4 * rectx * total_lines <= Z.of_nat (length data)) /\
  (forall data, byte_buffer out = Some data ->
     offset + 4 * rectx * total_lines <= Z.of_nat (length data)).

Section SliceEffects.

Variable straight_uchar_to_premul_float : px Z -> px float.
Variable premul_float_to_straight_uchar : px float -> px Z.

Definition do_alphaover_effect (rectx : Z) (fac : float) (ibuf1 : ImBuf)
    (ibuf2 : option ImBuf) (start_line total_lines : Z) (out : ImBuf) : option ImBuf :=
  run_slice (do_alphaover_effect_float fac)
    (do_alphaover_effect_byte straight_uchar_to_premul_float
       premul_float_to_straight_uchar fac)
    rectx ibuf1 ibuf2 start_line total_lines out.

End SliceEffects.

(* ===================================================================== *)
(** ** Drop effect *)

(** [memcpy(dst + d, src + s, n) of [n] cells] between two buffers. *)
Definition memcpy {A} `{Inhabited A} (dst : list A) (d : Z) (src : list A) (s n : Z)
    : list A :=
  for_range 0 n (fun k dst => <[Z.to_nat (d + k) := rd src (Z.to_nat (s + k))]> dst) dst.

(** [#define XOFF 8] and [#define YOFF 8] *)
Definition XOFF : Z := 8.
Definition YOFF : Z := 8.

Section DropLoops.

Context {A : Type} `{Inhabited A}.

(** [min_ii] of BLI_math_base, outside the excerpt. *)
Variable min_ii : Z -> Z -> Z.

(** The value stored for one channel in the inner loop, from the alpha
    [rt2[3]] and the channel [*rt1]: the byte and the float variant differ
    in this arithmetic only. *)
Variable shade : A -> A -> A.

(** The loops of [do_drop_effect_byte] and [do_drop_effect_float], on the
    three pointers and the memory of the output. *)
Definition drop_loops (x y : Z) (rect2i rect1i outi : list A) : list A :=
  let xoff := min_ii XOFF x in
  let yoff := min_ii YOFF y in
  let '(rt2, rt1, out, mem) :=
    for_range 0 (Int.sub y yoff)
      (fun i '(rt2, rt1, out, mem) =>
         let mem := memcpy mem out rect1i rt1 (xoff * 4) in
         let rt1 := rt1 + xoff * 4 in
         let out := out + xoff * 4 in
         let '(rt2, rt1, out, mem) :=
           for_range xoff x
             (fun j '(rt2, rt1, out, mem) =>
                let alpha := rd rect2i (Z.to_nat (rt2 + 3)) in
                let mem :=
                  store4 (Z.to_nat out)
                    (shade alpha (rd rect1i (Z.to_nat rt1)),
                     shade alpha (rd rect1i (Z.to_nat (rt1 + 1))),
                     shade alpha (rd rect1i (Z.to_nat (rt1 + 2))),
                     shade alpha (rd rect1i (Z.to_nat (rt1 + 3)))) mem in
                (rt2 + 4, rt1 + 4, out + 4, mem))
             (rt2, rt1, out, mem) in
         (rt2 + xoff * 4, rt1, out, mem))
      (Int.mul (Int.mul yoff 4) x, 0, 0, outi) in
  memcpy mem out rect1i rt1 (yoff * 4 * x).

End DropLoops.

Definition f70_0 : float := Eval cbv in F32.lit 70 0.

Section Drop.

Variable min_ii : Z -> Z -> Z.

Definition do_drop_effect_byte (fac : float) (x y : Z) (rect2i rect1i outi : list Z)
    : list Z :=
  let temp_fac := F32.to_int (F32.mul f70_0 fac) in
  drop_loops min_ii
    (fun alpha rt1 =>
       let temp_fac2 := Int.shr (Int.mul temp_fac alpha) 8 in
       Int.to_uchar (Z.max 0 (Int.sub rt1 temp_fac2)))
    x y rect2i rect1i outi.

Definition do_drop_effect_float (fac : float) (x y : Z) (rect2i rect1i outi : list float)
    : list float :=
  let temp_fac := F32.mul f70_0 fac in
  drop_loops min_ii
    (fun alpha rt1 =>
       let temp_fac2 := F32.mul temp_fac alpha in
       let v := F32.sub rt1 temp_fac2 in
       (* std::max(0.0f, v) *)
       if F32.ltb F32.zero v then v else F32.zero)
    x y rect2i rect1i outi.

Variable straight_uchar_to_premul_float : px Z -> px float.
Variable premul_float_to_straight_uchar : px float -> px Z.

(** [do_overdrop_effect]: the drop effect and then the alpha over effect,
    both into the slice of [out]. *)
Definition do_overdrop_effect (rectx : Z) (fac : float) (ibuf1 : ImBuf)
    (ibuf2 : option ImBuf) (start_line total_lines : Z) (out : ImBuf) : option ImBuf :=
  run_slice
    (fun x y rect1 rect2 rect_out =>
       let rect_out := do_drop_effect_float fac x y rect1 rect2 rect_out in
       do_alphaover_effect_float fac x y rect1 rect2 rect_out)
    (fun x y rect1 rect2 rect_out =>
       let rect_out := do_drop_effect_byte fac x y rect1 rect2 rect_out in
       do_alphaover_effect_byte straight_uchar_to_premul_float
         premul_float_to_straight_uchar fac x y rect1 rect2 rect_out)
    rectx ibuf1 ibuf2 start_line total_lines out.

End Drop.

(* ===================================================================== *)
(** ** Solid color effect *)

(** [struct SolidColorVars]: the color [col[3]]. *)
Record SolidColorVars : Type := {
  col : float * float * float
}.

Section SolidColor.

Variable seq_imbuf_to_sequencer_space : ImBuf -> ImBuf.
Variable IMB_rect_from_float : ImBuf -> ImBuf.

(** [do_solid_color]: the output image, and the inputs after
    [prepare_effect_imbufs].  The size [out->x] by [out->y] of the output
    is the size [rectx] by [recty] it was allocated with; the field
    [out->planes] is not part of [ImBuf]. *)
Definition do_solid_color (rectx recty : Z) (cv : SolidColorVars)
    (ibuf1 ibuf2 ibuf3 : option ImBuf)
    : ImBuf * (option ImBuf * option ImBuf * option ImBuf) :=
  let '(out, inputs) :=
    prepare_effect_imbufs seq_imbuf_to_sequencer_space IMB_rect_from_float
      rectx recty ibuf1 ibuf2 ibuf3 in
  let '(col0, col1, col2) := col cv in
  let x := rectx in
  let y := recty in
  match byte_buffer out with
  | Some rect =>
    let color := (F32.to_uchar (F32.mul col0 (F32.of_int 255)),
                  F32.to_uchar (F32.mul col1 (F32.of_int 255)),
                  F32.to_uchar (F32.mul col2 (F32.of_int 255)),
                  255) in
    (with_byte_buffer out (pixel_loop x y (fun p rect => store4 p color rect) rect), inputs)
  | None =>
    match float_buffer out with
    | Some rect_float =>
      let color := (col0, col1, col2, F32.of_int 255) in
      (with_float_buffer out
         (pixel_loop x y (fun p rect_float => store4 p color rect_float) rect_float),
       inputs)
    | None => (out, inputs)
    end
  end.

End SolidColor.

(* ===================================================================== *)
(** ** Glow effect *)

(** The part of [struct GlowVars] (DNA_sequence_types.h) that the effect
    reads. *)
Record GlowVars : Type := {
  fMini : float;
  fClamp : float;
  fBoost : float;
  dDist : float;
  dQuality : Z;
  bNoComp : Z
}.

(** [float(M_PI)], the single-precision float nearest to pi. *)
Definition M_PI_f : float := S754_finite false 13176795 (-22).

Definition f2_0 : float := Eval cbv in F32.lit 2 0.
Definition f3_0 : float := Eval cbv in F32.lit 3 0.
Definition f100_0 : float := Eval cbv in F32.lit 100 0.

(** [float4(f)]: the four components set to [f]. *)
Definition float4 (f : float) : px float := (f, f, f, f).

(** Modelled from the spec: [blender::Array] of BLI is outside the
    excerpt; a new array of floats has the cells asked for, of unspecified
    content, taken here as NaN (as for [MEM_mallocN]).  An array of [n]
    [float4] is an array of [4 * n] floats. *)
Definition Array_float (n : Z) : list float := replicate (Z.to_nat n) F32.nan.

Section Glow.

(** The arithmetic of [blender::float4] and the functions of
    [blender::math] belong to BLI, outside the excerpt: the sum of two
    vectors ([a + b], [a += b]), the product of a vector and a float
    ([a * f]), [math::min] of two vectors, and [math::max] and [math::min]
    of two ints.  [exp_fl x] stands for [float(exp(x))], the exponential of
    the C library computed on the float [x] widened to double. *)
Variable float4_add : px float -> px float -> px float.
Variable float4_mul : px float -> float -> px float.
Variable float4_min : px float -> px float -> px float.
Variables math_max math_min : Z -> Z -> Z.
Variable exp_fl : float -> float.

(** [blur_isolate_highlights]: the rows are handed to the workers of
    [threading::parallel_for] in ranges; each row is written by one worker,
    and the function is taken as one range of all rows. *)
Definition blur_isolate_highlights (in_ out : list float) (width height : Z)
    (threshold boost clamp : float) : list float :=
  let clampv := float4 clamp in
  for_range 0 height
    (fun y out =>
       let index := Int.mul y width in
       snd (for_range 0 width
              (fun x '(index, out) =>
                 let px_in := load4 in_ (Z.to_nat (4 * index)) in
                 (* Isolate the intensity *)
                 let intensity :=
                   F32.sub (F32.add (F32.add (chan 0 px_in) (chan 1 px_in)) (chan 2 px_in))
                           threshold in
                 let val :=
                   if F32.gtb intensity (F32.of_int 0)
                   then float4_min clampv (float4_mul px_in (F32.mul boost intensity))
                   else float4 F32.zero in
                 (index + 1, store4 (Z.to_nat (4 * index)) val out))
              (index, out)))
    out.

(** [glow_blur_bitmap]: the image [map] after the call; [src] is [None]
    for the null pointer. *)
Definition glow_blur_bitmap (src : option (list float)) (map : list float)
    (width height : Z) (blur : float) (quality : Z) : list float :=
  (* If we're not really blurring, bail out *)
  if F32.leb blur (F32.of_int 0) then map
  else
    (* If result would be no blurring, early out. *)
    let halfWidth := F32.to_int (F32.mul (F32.of_int (Int.add quality 1)) blur) in
    if halfWidth =? 0 then map
    else
      let temp := Array_float (4 * Int.mul width height) in
      (* Initialize the gaussian filter. *)
      let filter := Array_float (Int.mul halfWidth 2) in
      let k := F32.div (F32.neg F32.one)
                 (F32.mul (F32.mul (F32.mul f2_0 M_PI_f) blur) blur) in
      let '(weight, filter) :=
        for_range 0 halfWidth
          (fun ix '(weight, filter) =>
             let weight := exp_fl (F32.mul k (F32.of_int (Int.mul ix ix))) in
             let filter := <[Z.to_nat (halfWidth - ix) := weight]> filter in
             let filter := <[Z.to_nat (halfWidth + ix) := weight]> filter in
             (weight, filter))
          (F32.of_int 0, filter) in
      let filter := <[0%nat := weight]> filter in
      (* Normalize the array *)
      let fval :=
        for_range 0 (Int.mul halfWidth 2)
          (fun ix fval => F32.add fval (rd filter (Z.to_nat ix)))
          (F32.of_int 0) in
      let filter :=
        for_range 0 (Int.mul halfWidth 2)
          (fun ix filter =>
             <[Z.to_nat ix := F32.div (rd filter (Z.to_nat ix)) fval]> filter)
          filter in
      (* Blur the rows: read map, write temp *)
      let temp :=
        for_range 0 height
          (fun y temp =>
             for_range 0 width
               (fun x temp =>
                  let xmin := math_max (Int.sub x halfWidth) 0 in
                  let xmax := math_min (Int.add x halfWidth) width in
                  let '(_, curColor) :=
                    for_range xmin xmax
                      (fun nx '(index, curColor) =>
                         (index + 1,
                          float4_add curColor
                            (float4_mul
                               (load4 map (Z.to_nat (4 * Int.add nx (Int.mul y width))))
                               (rd filter (Z.to_nat index)))))
                      (Int.add (Int.sub xmin x) halfWidth, float4 F32.zero) in
                  store4 (Z.to_nat (4 * Int.add x (Int.mul y width))) curColor temp)
               temp)
          temp in
      (* Blur the columns: read temp, write map *)
      for_range 0 width
        (fun x map =>
           let one := float4 F32.one in
           for_range 0 height
             (fun y map =>
                let ymin := math_max (Int.sub y halfWidth) 0 in
                let ymax := math_min (Int.add y halfWidth) height in
                let '(_, curColor) :=
                  for_range ymin ymax
                    (fun ny '(index, curColor) =>
                       (index + 1,
                        float4_add curColor
                          (float4_mul
                             (load4 temp (Z.to_nat (4 * Int.add x (Int.mul ny width))))
                             (rd filter (Z.to_nat index)))))
                    (Int.add (Int.sub ymin y) halfWidth, float4 F32.zero) in
                let curColor :=
                  match src with
                  | Some src =>
                    float4_min one
                      (float4_add (load4 src (Z.to_nat (4 * Int.add x (Int.mul y width))))
                                  curColor)
                  | None => curColor
                  end in
                store4 (Z.to_nat (4 * Int.add x (Int.mul y width))) curColor map)
             map)
        map.

(** [do_glow_effect_float]: the image [out] after the call; [rect2] is
    not used. *)
Definition do_glow_effect_float (glow : GlowVars) (render_size : Z) (fac : float)
    (x y : Z) (rect1 out : list float) : list float :=
  let outbuf := out in
  let inbuf := rect1 in
  let outbuf :=
    blur_isolate_highlights inbuf outbuf x y
      (F32.mul (fMini glow) f3_0) (F32.mul (fBoost glow) fac) (fClamp glow) in
  glow_blur_bitmap (if negb (bNoComp glow =? 0) then None else Some inbuf)
    outbuf x y
    (F32.mul (dDist glow) (F32.div (F32.of_int render_size) f100_0))
    (dQuality glow).

End Glow.

(* ===================================================================== *)
(** ** Wipe effect *)

(** The values of [wipe->wipetype] that [check_zone] switches on;
    [DO_WIPE_other] stands for every other value (the [switch] has no
    [default]). *)
Inductive wipe_type : Set :=
  | DO_SINGLE_WIPE | DO_DOUBLE_WIPE | DO_CLOCK_WIPE | DO_IRIS_WIPE | DO_WIPE_other.

(** The part of [struct WipeVars] (DNA_sequence_types.h) that the effect
    reads. *)
Record WipeVars : Type := {
  edgeWidth : float;
  angle : float;
  forward : Z;
  wipetype : wipe_type
}.

Module Zone.

(** [struct WipeZone] *)
Record WipeZone : Type := {
  angle : float;
  flip : bool;
  xo : Z;
  yo : Z;
  width : Z;
  pythangle : float;
  clockWidth : float;
  type : wipe_type;
  forward : bool
}.

End Zone.

(** [fabsf]: the sign cleared. *)
Definition fabsf (x : float) : float := SFabs x.

Section Wipe.

(** [tanf], [sqrtf], [atan2f] and [hypotf] of the C library, and [min_ii]
    and [min_ff] of BLI_math_base, outside the excerpt. *)
Variables tanf sqrtf : float -> float.
Variables atan2f hypotf : float -> float -> float.
Variable min_ii : Z -> Z -> Z.
Variable min_ff : float -> float -> float.

Definition precalc_wipe_zone (wipe : WipeVars) (xo yo : Z) : Zone.WipeZone :=
  let zone_angle := tanf (fabsf (angle wipe)) in
  {| Zone.flip := F32.ltb (angle wipe) F32.zero;
     Zone.angle := zone_angle;
     Zone.xo := xo;
     Zone.yo := yo;
     Zone.width :=
       F32.to_int (F32.mul (edgeWidth wipe) (F32.div (F32.of_int (Int.add xo yo)) f2_0));
     Zone.pythangle :=
       F32.div F32.one (sqrtf (F32.add (F32.mul zone_angle zone_angle) F32.one));
     Zone.clockWidth := F32.mul (edgeWidth wipe) M_PI_f;
     Zone.type := wipetype wipe;
     Zone.forward := negb (forward wipe =? 0) |}.

(** This function calculates the blur band for the wipe effects. *)
Definition in_band (width dist : float) (side dir : Z) : float :=
  if F32.eqb width (F32.of_int 0) then F32.of_int side
  else if F32.ltb width dist then F32.of_int side
  else
    let alpha :=
      if side =? 1
      then F32.div (F32.add dist (F32.mul f0_5 width)) width
      else F32.div (F32.sub (F32.mul f0_5 width) dist) width in
    if dir =? 0 then F32.sub (F32.of_int 1) alpha else alpha.

Definition check_zone (wipezone : Zone.WipeZone) (x y : Z) (fac : float) : float :=
  let xo := Zone.xo wipezone in
  let yo := Zone.yo wipezone in
  let halfx := F32.mul (F32.of_int xo) f0_5 in
  let halfy := F32.mul (F32.of_int yo) f0_5 in
  let output := F32.of_int 0 in
  let x := if Zone.flip wipezone then Int.sub xo x else x in
  let angle := Zone.angle wipezone in
  let '(posx, posy) :=
    if Zone.forward wipezone
    then (F32.mul fac (F32.of_int xo), F32.mul fac (F32.of_int yo))
    else (F32.sub (F32.of_int xo) (F32.mul fac (F32.of_int xo)),
          F32.sub (F32.of_int yo) (F32.mul fac (F32.of_int yo))) in
  let output :=
    match Zone.type wipezone with
    | DO_SINGLE_WIPE =>
      let width :=
        min_ii (Zone.width wipezone) (F32.to_int (F32.mul fac (F32.of_int yo))) in
      let width :=
        min_ii width
          (F32.to_int (F32.sub (F32.of_int yo) (F32.mul fac (F32.of_int yo)))) in
      let '(b1, b2, hyp) :=
        if F32.eqb angle F32.zero
        then (posy, F32.of_int y, fabsf (F32.sub (F32.of_int y) posy))
        else (F32.sub posy (F32.mul (F32.neg angle) posx),
              F32.sub (F32.of_int y) (F32.mul (F32.neg angle) (F32.of_int x)),
              F32.mul
                (fabsf (F32.add (F32.add (F32.mul angle (F32.of_int x)) (F32.of_int y))
                                (F32.sub (F32.neg posy) (F32.mul angle posx))))
                (Zone.pythangle wipezone)) in
      let '(b1, b2) := if F32.ltb angle (F32.of_int 0) then (b2, b1) else (b1, b2) in
      if Zone.forward wipezone
      then
        if F32.ltb b1 b2 then in_band (F32.of_int width) hyp 1 1
        else in_band (F32.of_int width) hyp 0 1
      else
        if F32.ltb b1 b2 then in_band (F32.of_int width) hyp 0 1
        else in_band (F32.of_int width) hyp 1 1
    | DO_DOUBLE_WIPE =>
      let fac :=
        if negb (Zone.forward wipezone)
        then (* Go the other direction *) F32.sub F32.one fac
        else fac in
      let width := Zone.width wipezone in (* calculate the blur width *)
      let hwidth := F32.mul (F32.of_int width) f0_5 in
      let '(b1, b3, b2, hyp, hyp2) :=
        if F32.eqb angle (F32.of_int 0)
        then
          (F32.mul posy f0_5,
           F32.sub (F32.of_int yo) (F32.mul posy f0_5),
           F32.of_int y,
           fabsf (F32.sub (F32.of_int y) (F32.mul posy f0_5)),
           fabsf (F32.sub (F32.of_int y) (F32.sub (F32.of_int yo) (F32.mul posy f0_5))))
        else
          (F32.sub (F32.mul posy f0_5) (F32.mul (F32.mul (F32.neg angle) posx) f0_5),
           F32.sub (F32.sub (F32.of_int yo) (F32.mul posy f0_5))
                   (F32.mul (F32.neg angle) (F32.sub (F32.of_int xo) (F32.mul posx f0_5))),
           F32.sub (F32.of_int y) (F32.mul (F32.neg angle) (F32.of_int x)),
           F32.mul
             (fabsf (F32.add (F32.add (F32.mul angle (F32.of_int x)) (F32.of_int y))
                             (F32.sub (F32.mul (F32.neg posy) f0_5)
                                      (F32.mul (F32.mul angle posx) f0_5))))
             (Zone.pythangle wipezone),
           F32.mul
             (fabsf (F32.add (F32.add (F32.mul angle (F32.of_int x)) (F32.of_int y))
                             (F32.sub (F32.neg (F32.sub (F32.of_int yo) (F32.mul posy f0_5)))
                                      (F32.mul angle
                                         (F32.sub (F32.of_int xo) (F32.mul posx f0_5))))))
             (Zone.pythangle wipezone)) in
      let hwidth := min_ff hwidth (F32.div (fabsf (F32.sub b3 b1)) f2_0) in
      let output :=
        if F32.ltb b2 b1 && F32.ltb b2 b3 then in_band hwidth hyp 0 1
        else if F32.gtb b2 b1 && F32.gtb b2 b3 then in_band hwidth hyp2 0 1
        else
          if F32.ltb hyp hwidth && F32.gtb hyp2 hwidth then in_band hwidth hyp 1 1
          else if F32.gtb hyp hwidth && F32.ltb hyp2 hwidth then in_band hwidth hyp2 1 1
          else F32.mul (in_band hwidth hyp2 1 1) (in_band hwidth hyp 1 1) in
      if negb (Zone.forward wipezone) then F32.sub (F32.of_int 1) output else output
    | DO_CLOCK_WIPE =>
      (* temp1: angle of effect center in rads
         temp2: angle of line through (halfx, halfy) and (x, y) in rads
         temp3: angle of low side of blur
         temp4: angle of high side of blur *)
      let output := F32.sub F32.one fac in
      let widthf := Zone.clockWidth wipezone in
      let temp1 := F32.mul (F32.mul f2_0 M_PI_f) fac in
      let temp1 :=
        if Zone.forward wipezone then F32.sub (F32.mul f2_0 M_PI_f) temp1 else temp1 in
      let x := F32.to_int (F32.sub (F32.of_int x) halfx) in
      let y := F32.to_int (F32.sub (F32.of_int y) halfy) in
      let temp2 := atan2f (F32.of_int y) (F32.of_int x) in
      let temp2 :=
        if F32.ltb temp2 F32.zero then F32.add temp2 (F32.mul f2_0 M_PI_f) else temp2 in
      let '(temp3, temp4) :=
        if Zone.forward wipezone
        then (F32.sub temp1 (F32.mul widthf fac),
              F32.add temp1 (F32.mul widthf (F32.sub (F32.of_int 1) fac)))
        else (F32.sub temp1 (F32.mul widthf (F32.sub (F32.of_int 1) fac)),
              F32.add temp1 (F32.mul widthf fac)) in
      let temp3 := if F32.ltb temp3 (F32.of_int 0) then F32.of_int 0 else temp3 in
      let temp4 :=
        if F32.gtb temp4 (F32.mul f2_0 M_PI_f) then F32.mul f2_0 M_PI_f else temp4 in
      let output :=
        if F32.ltb temp2 temp3 then F32.of_int 0
        else if F32.gtb temp2 temp4 then F32.of_int 1
        else F32.div (F32.sub temp2 temp3) (F32.sub temp4 temp3) in
      let output := if (x =? 0) && (y =? 0) then F32.of_int 1 else output in
      let output := if negb (F32.eqb output output) then F32.of_int 1 else output in
      if Zone.forward wipezone then F32.sub (F32.of_int 1) output else output
    | DO_IRIS_WIPE =>
      let '(xo, yo) := if xo >? yo then (xo, xo) else (yo, yo) in
      let fac :=
        if negb (Zone.forward wipezone) then F32.sub (F32.of_int 1) fac else fac in
      let width := Zone.width wipezone in
      let hwidth := F32.mul (F32.of_int width) f0_5 in
      let temp1 := F32.sub halfx (F32.mul halfx fac) in
      let pointdist := hypotf temp1 temp1 in
      let temp2 :=
        hypotf (F32.sub halfx (F32.of_int x)) (F32.sub halfy (F32.of_int y)) in
      let output :=
        if F32.gtb temp2 pointdist
        then in_band hwidth (fabsf (F32.sub temp2 pointdist)) 0 1
        else in_band hwidth (fabsf (F32.sub temp2 pointdist)) 1 1 in
      if negb (Zone.forward wipezone) then F32.sub (F32.of_int 1) output else output
    | DO_WIPE_other => output
    end in
  if F32.ltb output (F32.of_int 0) then F32.of_int 0
  else if F32.gtb output (F32.of_int 1) then F32.of_int 1
  else output.

(** A row pointer of the wipe effect, [rect + n] for a buffer pointer
    [rect] that can be null: null, the cell [p] of its buffer, or [row_wild],
    the pointer that [nullptr + n] gives for an [n] other than 0, which is
    not null and points into no buffer. *)
Inductive row_ptr : Set := row_null | row_wild | row_at (p : nat).

Definition row_start {A} (rect : option (list A)) (n : Z) : row_ptr :=
  match rect with
  | Some _ => row_at (Z.to_nat n)
  | None => if n =? 0 then row_null else row_wild
  end.

(** [if (rt != nullptr) rt += 4] *)
Definition row_next (rt : row_ptr) : row_ptr :=
  match rt with
  | row_null => row_null
  | row_wild => row_wild
  | row_at p => row_at (p + 4)
  end.

(** The four channels read through [rt]; [None] when [rt] points into no
    buffer: the read is undefined. *)
Definition row_load4 {A} `{Inhabited A} (rect : option (list A)) (rt : row_ptr)
    : option (px A) :=
  match rect, rt with
  | Some b, row_at p => Some (load4 b p)
  | _, _ => None
  end.

(** [threading::parallel_for(IndexRange(n), grain_size, fn)] of
    BLI_task.hh, outside the excerpt, cuts the rows [0 .. n) into ranges
    and runs [fn] on each of them: [parallel_for_ranges n grain_size] is
    the list of these ranges, each a first row and a number of rows.  The
    workers write rows of their own range only; their calls are taken one
    after the other, in the order of the list. *)
Variable parallel_for_ranges : Z -> Z -> list (Z * Z).

(** The body that [do_wipe_effect_float] hands to [parallel_for], on the
    rows [first .. first + size): the image [out] after the call, [None]
    when a pointer that points into no buffer is read. *)
Definition wipe_rows_float (wipezone : Zone.WipeZone) (fac : float) (width : Z)
    (rect1 rect2 : option (list float)) (first size : Z) (out : list float)
    : option (list float) :=
  let rt1 := row_start rect1 (first * width * 4) in
  let rt2 := row_start rect2 (first * width * 4) in
  let rt := Z.to_nat (first * width * 4) in
  snd <$>
    for_range first (first + size)
      (fun y st =>
         for_range 0 width
           (fun x st =>
              '((rt1, rt2, rt), out) ← st;
              let check := check_zone wipezone x y fac in
              val ←
                (if negb (F32.eqb check F32.zero) then
                   match rt1 with
                   | row_null => Some (F32.of_int 0, F32.of_int 0, F32.of_int 0, F32.one)
                   | _ =>
                     v1 ← row_load4 rect1 rt1;
                     v2 ← row_load4 rect2 rt2;
                     let ch c :=
                       F32.add (F32.mul (chan c v1) check)
                               (F32.mul (chan c v2) (F32.sub (F32.of_int 1) check)) in
                     Some (ch 0, ch 1, ch 2, ch 3)%nat
                   end
                 else
                   match rt2 with
                   | row_null => Some (F32.of_int 0, F32.of_int 0, F32.of_int 0, F32.one)
                   | _ => row_load4 rect2 rt2
                   end);
              Some ((row_next rt1, row_next rt2, (rt + 4)%nat), store4 rt val out))
           st)
      (Some ((rt1, rt2, rt), out)).

(** [do_wipe_effect_float]: the image [out] after the call. *)
Definition do_wipe_effect_float (wipe : WipeVars) (fac : float) (width height : Z)
    (rect1 rect2 : option (list float)) (out : list float) : option (list float) :=
  let wipezone := precalc_wipe_zone wipe width height in
  foldl (fun out '(first, size) =>
           out ≫= wipe_rows_float wipezone fac width rect1 rect2 first size)
    (Some out) (parallel_for_ranges height 64).

Variable straight_uchar_to_premul_float : px Z -> px float.
Variable premul_float_to_straight_uchar : px float -> px Z.

Definition wipe_rows_byte (wipezone : Zone.WipeZone) (fac : float) (width : Z)
    (rect1 rect2 : option (list Z)) (first size : Z) (out : list Z)
    : option (list Z) :=
  let cp1 := row_start rect1 (first * width * 4) in
  let cp2 := row_start rect2 (first * width * 4) in
  let rt := Z.to_nat (first * width * 4) in
  snd <$>
    for_range first (first + size)
      (fun y st =>
         for_range 0 width
           (fun x st =>
              '((cp1, cp2, rt), out) ← st;
              let check := check_zone wipezone x y fac in
              val ←
                (if negb (F32.eqb check F32.zero) then
                   match cp1 with
                   | row_null => Some (0, 0, 0, 255)
                   | _ =>
                     v1 ← row_load4 rect1 cp1;
                     v2 ← row_load4 rect2 cp2;
                     let rt1 := straight_uchar_to_premul_float v1 in
                     let rt2 := straight_uchar_to_premul_float v2 in
                     let ch c :=
                       F32.add (F32.mul (chan c rt1) check)
                               (F32.mul (chan c rt2) (F32.sub (F32.of_int 1) check)) in
                     Some (premul_float_to_straight_uchar (ch 0, ch 1, ch 2, ch 3)%nat)
                   end
                 else
                   match cp2 with
                   | row_null => Some (0, 0, 0, 255)
                   | _ => row_load4 rect2 cp2
                   end);
              Some ((row_next cp1, row_next cp2, (rt + 4)%nat), store4 rt val out))
           st)
      (Some ((cp1, cp2, rt), out)).

Definition do_wipe_effect_byte (wipe : WipeVars) (fac : float) (width height : Z)
    (rect1 rect2 : option (list Z)) (out : list Z) : option (list Z) :=
  let wipezone := precalc_wipe_zone wipe width height in
  foldl (fun out '(first, size) =>
           out ≫= wipe_rows_byte wipezone fac width rect1 rect2 first size)
    (Some out) (parallel_for_ranges height 64).

End Wipe.

(* ===================================================================== *)
(** ** Default effect factor *)

Section DefaultFac.

(** The strip time queries of SEQ_time.hh, outside the excerpt. *)
Variables Scene Sequence : Type.
Variable SEQ_time_left_handle_frame_get : Scene -> Sequence -> Z.
Variable SEQ_time_strip_length_get : Scene -> Sequence -> Z.

(** [get_default_fac_noop]: the value stored into [*fac]. *)
Definition get_default_fac_noop (scene : Scene) (seq : Sequence) (timeline_frame : float)
    : float :=
  F32.one.

(** [get_default_fac_fade]: the value of [*fac] after the two
    assignments; the two [int] operands are converted to [float]. *)
Definition get_default_fac_fade (scene : Scene) (seq : Sequence) (timeline_frame : float)
    : float :=
  let fac :=
    F32.sub timeline_frame (F32.of_int (SEQ_time_left_handle_frame_get scene seq)) in
  F32.div fac (F32.of_int (SEQ_time_strip_length_get scene seq)).

(** A call [sh.get_default_fac(scene, seq, timeline_frame, &fac)] through
    the handle. *)
Definition call_get_default_fac (f : Fn.get_default_fac)
    (scene : Scene) (seq : Sequence) (timeline_frame : float) : float :=
  match f with
  | Fn.get_default_fac_noop => get_default_fac_noop scene seq timeline_frame
  | Fn.get_default_fac_fade => get_default_fac_fade scene seq timeline_frame
  end.

End DefaultFac.

(* ===================================================================== *)
(** * Properties *)

(* ===================================================================== *)
(** ** Integer and float arithmetic *)

Lemma int32_small z : Int.INT_MIN <= z <= Int.INT_MAX -> Int.int32 z = z.
Proof.
  unfold Int.int32, Int.INT_MIN, Int.INT_MAX. intros Hz.
  rewrite Z.mod_small; lia.
Qed.

Lemma to_uchar_small z : 0 <= z < 256 -> Int.to_uchar z = z.
Proof. unfold Int.to_uchar. intros Hz. apply Z.mod_small; lia. Qed.

Module F32Facts.
Import F32.

Lemma bounded_inv m e :
  bounded prec emax m e = true ->
  fexp prec emax (Zpos (digits2_pos m) + e) = e /\ e <= emax - prec.
Proof.
  unfold bounded, canonical_mantissa. intros H.
  apply andb_true_iff in H. destruct H as [H1 H2].
  apply Z.eqb_eq in H1. apply Z.leb_le in H2. auto.
Qed.

Lemma mul_one_l s m e :
  bounded prec emax m e = true ->
  mul one (S754_finite s m e) = S754_finite s m e.
Proof.
  intros Hb. destruct (bounded_inv _ _ Hb) as [Hc He].
  unfold mul, one, SFmul.
  change (8388608 * m)%positive with (m~0~0~0~0~0~0~0~0~0~0~0~0~0~0~0~0~0~0~0~0~0~0~0)%positive.
  change (xorb false s) with s.
  unfold binary_round_aux, shr_fexp.
  set (d := digits2_pos m) in *.
  assert (Hd : Zdigits2 (Z.pos m~0~0~0~0~0~0~0~0~0~0~0~0~0~0~0~0~0~0~0~0~0~0~0) = Zpos d + 23).
  { unfold Zdigits2. simpl digits2_pos. fold d. rewrite !Pos2Z.inj_succ. lia. }
  rewrite Hd.
  replace (Z.pos d + 23 + (-23 + e)) with (Z.pos d + e) by lia.
  rewrite Hc.
  replace (e - (-23 + e)) with 23 by lia.
  simpl shr_record_of_loc. unfold shr at 1. simpl iter_pos.
  simpl round_nearest_even.
  replace (-23 + e + 23) with e by lia.
  simpl Zdigits2. fold d. rewrite Hc. rewrite Z.sub_diag. simpl.
  apply Z.leb_le in He. rewrite He. reflexivity.
Qed.

(** *** Rounding never invents a NaN *)

Lemma shr_1_nonneg r : 0 <= shr_m r -> 0 <= shr_m (shr_1 r) <= shr_m r.
Proof.
  destruct r as [m r s]. simpl.
  destruct m as [|p|p]; simpl; try lia; destruct p; simpl; lia.
Qed.

Lemma iter_shr_1_nonneg p : forall r,
  0 <= shr_m r -> 0 <= shr_m (SpecFloat.iter_pos shr_1 p r) <= shr_m r.
Proof.
  induction p as [p IH|p IH|]; intros r Hr; simpl.
  - pose proof (shr_1_nonneg r Hr) as H1.
    pose proof (IH (shr_1 r) (proj1 H1)) as H2.
    pose proof (IH _ (proj1 H2)) as H3. lia.
  - pose proof (IH r Hr) as H2.
    pose proof (IH _ (proj1 H2)) as H3. lia.
  - apply shr_1_nonneg, Hr.
Qed.

Lemma shr_record_of_loc_m m l : shr_m (shr_record_of_loc m l) = m.
Proof. destruct l as [|[]]; reflexivity. Qed.

Lemma shr_fexp_nonneg m e l :
  0 <= m -> 0 <= shr_m (fst (shr_fexp prec emax m e l)) <= m.
Proof.
  intros Hm. unfold shr_fexp, shr.
  destruct (fexp prec emax (Zdigits2 m + e) - e) as [|p|p]; simpl;
    try (rewrite shr_record_of_loc_m; lia).
  pose proof (iter_shr_1_nonneg p (shr_record_of_loc m l)) as H.
  rewrite shr_record_of_loc_m in H. apply H, Hm.
Qed.

Lemma round_nearest_even_nonneg m l :
  0 <= m -> m <= round_nearest_even m l <= m + 1.
Proof.
  intros Hm. destruct l as [|[]]; simpl; try lia.
  destruct (Z.even m); lia.
Qed.

Lemma binary_round_aux_shape s m e l :
  0 <= m -> F32.signed_as s (binary_round_aux prec emax s m e l).
Proof.
  intros Hm. unfold binary_round_aux.
  pose proof (shr_fexp_nonneg m e l Hm) as H1.
  destruct (shr_fexp prec emax m e l) as [mrs' e'] eqn:E1. simpl in H1.
  pose proof (round_nearest_even_nonneg (shr_m mrs') (loc_of_shr_record mrs') (proj1 H1)) as H2.
  pose proof (shr_fexp_nonneg _ e' loc_Exact (Z.le_trans _ _ _ (proj1 H1) (proj1 H2))) as H3.
  destruct (shr_fexp prec emax _ e' loc_Exact) as [mrs'' e''] eqn:E2. simpl in H3.
  destruct (shr_m mrs'') as [|p|p]; unfold F32.signed_as.
  - auto.
  - destruct (e'' <=? emax - prec); eauto.
  - lia.
Qed.

Lemma binary_round_shape s m e : F32.signed_as s (binary_round prec emax s m e).
Proof.
  unfold binary_round.
  destruct (shl_align m e _) as [mz ez].
  apply binary_round_aux_shape. lia.
Qed.

Lemma binary_normalize_not_nan m e sz :
  is_nan (binary_normalize prec emax m e sz) = false.
Proof.
  destruct m as [|p|p]; simpl; auto.
  - destruct (binary_round_shape false p e) as [H|[H|(m & e' & H)]]; rewrite H; reflexivity.
  - destruct (binary_round_shape true p e) as [H|[H|(m & e' & H)]]; rewrite H; reflexivity.
Qed.

Lemma add_not_nan a b :
  is_finite a = true -> is_nan b = false -> is_nan (add a b) = false.
Proof.
  unfold add, SFadd.
  destruct a as [sa|sa| |sa ma ea]; try discriminate;
    destruct b as [sb|sb| |sb mb eb]; try discriminate; intros _ _; try reflexivity.
  - destruct sa, sb; reflexivity.
  - apply binary_normalize_not_nan.
Qed.

(** *** Comparisons *)

Lemma compare_antisym a b c :
  SFcompare a b = Some c -> SFcompare b a = Some (CompOpp c).
Proof.
  destruct a as [sa|sa| |sa ma ea]; destruct b as [sb|sb| |sb mb eb]; simpl;
    try discriminate; intros H; injection H as <-;
    try (destruct sa; reflexivity); try (destruct sb; reflexivity);
    try (destruct sa, sb; reflexivity).
  destruct sa, sb; try reflexivity; rewrite (Z.compare_antisym ea eb);
    destruct (ea ?= eb); simpl; try reflexivity;
    rewrite (Pos.compare_cont_antisym ma mb Eq); reflexivity.
Qed.

Lemma compare_not_nan a b :
  is_nan a = false -> is_nan b = false -> exists c, SFcompare a b = Some c.
Proof.
  destruct a, b; simpl; try discriminate; eauto.
Qed.

Lemma compare_refl a : is_nan a = false -> SFcompare a a = Some Eq.
Proof.
  destruct a as [sa|sa| |sa ma ea]; simpl; try discriminate; intros _.
  - reflexivity.
  - destruct sa; reflexivity.
  - rewrite Z.compare_refl, Pos.compare_cont_refl. destruct sa; reflexivity.
Qed.

Lemma leb_refl a : is_nan a = false -> leb a a = true.
Proof. intros H. unfold leb, SFleb. rewrite compare_refl; auto. Qed.

Lemma not_ltb_leb a b :
  is_nan a = false -> is_nan b = false -> ltb a b = false -> leb b a = true.
Proof.
  intros Ha Hb. unfold ltb, leb, SFltb, SFleb.
  destruct (compare_not_nan a b Ha Hb) as [c Hc].
  rewrite Hc, (compare_antisym _ _ _ Hc). destruct c; simpl; congruence.
Qed.

Lemma leb_not_nan a b : leb a b = true -> is_nan a = false /\ is_nan b = false.
Proof.
  unfold leb, SFleb. destruct a, b; simpl; try discriminate; auto.
Qed.


(** *** Conversion of an [int] gives a finite float *)

Lemma digits2_pos_bounds p :
  2 ^ (Zpos (digits2_pos p) - 1) <= Zpos p < 2 ^ Zpos (digits2_pos p).
Proof.
  induction p as [p IH|p IH|]; simpl digits2_pos.
  - rewrite Pos2Z.inj_succ. change (Zpos p~1) with (2 * Zpos p + 1).
    replace (Z.succ (Zpos (digits2_pos p)) - 1) with (Z.succ (Zpos (digits2_pos p) - 1)) by lia.
    rewrite !Z.pow_succ_r by lia.
    destruct IH as [IH1 IH2]. revert IH1 IH2.
    generalize (2 ^ (Zpos (digits2_pos p) - 1)) (2 ^ Zpos (digits2_pos p)). lia.
  - rewrite Pos2Z.inj_succ. change (Zpos p~0) with (2 * Zpos p).
    replace (Z.succ (Zpos (digits2_pos p)) - 1) with (Z.succ (Zpos (digits2_pos p) - 1)) by lia.
    rewrite !Z.pow_succ_r by lia.
    destruct IH as [IH1 IH2]. revert IH1 IH2.
    generalize (2 ^ (Zpos (digits2_pos p) - 1)) (2 ^ Zpos (digits2_pos p)). lia.
  - simpl. lia.
Qed.

Lemma Zdigits2_le m k : 0 <= k -> 0 <= m < 2 ^ k -> Zdigits2 m <= k.
Proof.
  intros Hk [Hm Hlt]. destruct m as [|p|p]; simpl; try lia.
  destruct (Z_le_gt_dec (Zpos (digits2_pos p)) k) as [|Hgt]; [assumption|].
  pose proof (digits2_pos_bounds p) as [Hlo _].
  assert (2 ^ k <= 2 ^ (Zpos (digits2_pos p) - 1)) by (apply Z.pow_le_mono_r; lia).
  lia.
Qed.

Lemma shr_fexp_exp m e l :
  snd (shr_fexp prec emax m e l) = e \/
  snd (shr_fexp prec emax m e l) = fexp prec emax (Zdigits2 m + e).
Proof.
  unfold shr_fexp, shr.
  destruct (fexp prec emax (Zdigits2 m + e) - e) eqn:E; simpl; auto.
  right. lia.
Qed.

Lemma binary_round_aux_finite s m e l k :
  0 <= k -> 0 <= m < 2 ^ k ->
  emin prec emax <= e -> e + k <= emax - prec -> e + 2 * k + 1 <= emax ->
  is_finite (binary_round_aux prec emax s m e l) = true.
Proof.
  intros Hk Hm Hlo Hmid Hhi. unfold binary_round_aux.
  pose proof (shr_fexp_nonneg m e l (proj1 Hm)) as H1.
  pose proof (shr_fexp_exp m e l) as E1.
  destruct (shr_fexp prec emax m e l) as [mrs' e']. simpl in H1, E1.
  set (m1 := round_nearest_even (shr_m mrs') (loc_of_shr_record mrs')).
  pose proof (round_nearest_even_nonneg (shr_m mrs') (loc_of_shr_record mrs') (proj1 H1)) as H2.
  fold m1 in H2.
  pose proof (shr_fexp_exp m1 e' loc_Exact) as E2.
  pose proof (shr_fexp_nonneg m1 e' loc_Exact (Z.le_trans _ _ _ (proj1 H1) (proj1 H2))) as H3.
  destruct (shr_fexp prec emax m1 e' loc_Exact) as [mrs'' e'']. simpl in E2, H3.
  assert (D0 : Zdigits2 m <= k) by (apply Zdigits2_le; lia).
  assert (D1 : Zdigits2 m1 <= k + 1).
  { apply Zdigits2_le; [lia|]. rewrite Z.pow_add_r, Z.pow_1_r by lia. lia. }
  assert (He' : emin prec emax <= e' <= e + k).
  { unfold emin, prec, emax in *. destruct E1 as [->| ->]; unfold fexp, emin, prec, emax; lia. }
  assert (He'' : e'' <= emax - prec).
  { unfold emin, prec, emax in *. destruct E2 as [->| ->]; unfold fexp, emin, prec, emax; lia. }
  destruct (shr_m mrs''); try reflexivity; [|lia].
  apply Z.leb_le in He''. rewrite He''. reflexivity.
Qed.

Lemma iter_xO_value d : forall p, Zpos (Pos.iter xO p d) = Zpos p * 2 ^ Zpos d.
Proof.
  induction d as [|d IH] using Pos.peano_ind; intros p.
  - simpl. lia.
  - rewrite Pos.iter_succ, Pos2Z.inj_xO, IH, Pos2Z.inj_succ, Z.pow_succ_r by lia. lia.
Qed.

Lemma of_int_finite z :
  Int.INT_MIN <= z <= Int.INT_MAX -> is_finite (of_int z) = true.
Proof.
  unfold Int.INT_MIN, Int.INT_MAX. intros Hz.
  assert (Hp : forall s p, Zpos p <= 2 ^ 31 ->
            is_finite (binary_round prec emax s p 0) = true).
  { intros s p Hp. unfold binary_round, shl_align.
    pose proof (digits2_pos_bounds p) as [Dlo Dhi].
    set (d := Zpos (digits2_pos p)) in *.
    assert (Hd : d <= 32).
    { unfold d. change (Zpos (digits2_pos p)) with (Zdigits2 (Zpos p)).
      apply Zdigits2_le; lia. }
    assert (Hfe : fexp prec emax (d + 0) = d - 24).
    { unfold fexp, emin, prec, emax. lia. }
    rewrite Hfe.
    destruct (d - 24 - 0) as [|q|q] eqn:E.
    - apply binary_round_aux_finite with (k := 32); unfold emin, prec, emax; lia.
    - apply binary_round_aux_finite with (k := 32); unfold emin, prec, emax; lia.
    - apply binary_round_aux_finite with (k := 24); unfold emin, prec, emax; try lia.
      rewrite iter_xO_value. split; [lia|].
      assert (Zpos q = 24 - d) by lia.
      replace (2 ^ 24) with (2 ^ d * 2 ^ Zpos q).
      + apply Z.mul_lt_mono_pos_r; lia.
      + rewrite <- Z.pow_add_r by lia. f_equal. lia. }
  unfold of_int, lit. destruct z as [|p|p]; simpl; auto.
  - apply Hp. lia.
  - apply Hp. lia.
Qed.

Lemma of_int_nonneg z : 0 <= z -> leb zero (of_int z) = true.
Proof.
  intros Hz. unfold of_int, lit. destruct z as [|p|p]; simpl; try reflexivity; try lia.
  destruct (binary_round_shape false p 0) as [H|[H|(m & e' & H)]]; rewrite H; reflexivity.
Qed.

End F32Facts.

(* ===================================================================== *)
(** ** Loops and stores *)

(** Invariant rule of the counted loop: [P i s] relates the counter to the
    state before iteration [i]. *)
Lemma for_loop_inv {St : Type} (P : Z -> St -> Prop) (body : Z -> St -> St) :
  forall (n : nat) (a : Z) (s : St),
    P a s ->
    (forall i s, a <= i < a + Z.of_nat n -> P i s -> P (i + 1) (body i s)) ->
    P (a + Z.of_nat n) (for_loop n a body s).
Proof.
  induction n as [|n IH]; intros a s H0 Hstep; simpl for_loop.
  - replace (a + Z.of_nat 0) with a by lia. exact H0.
  - replace (a + Z.of_nat (S n)) with ((a + 1) + Z.of_nat n) by lia.
    apply IH.
    + apply Hstep; [lia | exact H0].
    + intros i s' Hi. apply Hstep. lia.
Qed.

Lemma for_range_inv {St : Type} (P : Z -> St -> Prop) (body : Z -> St -> St) (a b : Z) (s : St) :
  a <= b ->
  P a s ->
  (forall i s, a <= i < b -> P i s -> P (i + 1) (body i s)) ->
  P b (for_range a b body s).
Proof.
  intros Hab H0 Hstep. unfold for_range.
  replace b with (a + Z.of_nat (Z.to_nat (b - a))) at 1 by lia.
  apply for_loop_inv; [exact H0|].
  intros i s' Hi. apply Hstep. lia.
Qed.

(** A loop whose body ignores the counter. *)
Lemma for_loop_const {St : Type} (g : St -> St) :
  forall (n : nat) (a : Z) (s : St), for_loop n a (fun _ => g) s = Nat.iter n g s.
Proof.
  induction n as [|n IH]; intros a s; simpl for_loop; [reflexivity|].
  rewrite IH. symmetry. apply Nat.iter_succ_r.
Qed.

Lemma pixel_steps_app {St : Type} (body : nat -> St -> St) :
  forall (n m p : nat) (s : St),
    pixel_steps (n + m) body p s = pixel_steps m body (p + 4 * n) (pixel_steps n body p s).
Proof.
  induction n as [|n IH]; intros m p s; simpl.
  - replace (p + 0)%nat with p by lia. reflexivity.
  - rewrite IH. f_equal. lia.
Qed.

Lemma iter_pixel_step {St : Type} (body : nat -> St -> St) :
  forall (n p : nat) (s : St),
    Nat.iter n (fun '(p, s) => ((p + 4)%nat, body p s)) (p, s)
    = ((p + 4 * n)%nat, pixel_steps n body p s).
Proof.
  induction n as [|n IH]; intros p s.
  - simpl. f_equal. lia.
  - rewrite Nat.iter_succ_r, IH. simpl. f_equal. lia.
Qed.

Lemma for_range_const {St : Type} (g : St -> St) (a b : Z) (s : St) :
  for_range a b (fun _ => g) s = Nat.iter (Z.to_nat (b - a)) g s.
Proof. unfold for_range. apply for_loop_const. Qed.

(** The loop nest visits [x * y] pixels, four channels apart. *)
Lemma pixel_loop_steps {St : Type} (x y : Z) (body : nat -> St -> St) (s : St) :
  pixel_loop x y body s = pixel_steps (Z.to_nat y * Z.to_nat x) body 0 s.
Proof.
  unfold pixel_loop.
  set (step := fun '(p, s) => ((p + 4)%nat, body p s)).
  set (inner := fun st : nat * St => for_range 0 x (fun _ : Z => step) st).
  change (snd (for_range 0 y (fun _ : Z => inner) (0%nat, s))
          = pixel_steps (Z.to_nat y * Z.to_nat x) body 0 s).
  rewrite for_range_const, Z.sub_0_r.
  assert (Hrow : forall st : nat * St,
            inner st = ((fst st + 4 * Z.to_nat x)%nat,
                        pixel_steps (Z.to_nat x) body (fst st) (snd st))).
  { intros [p s']. unfold inner. rewrite for_range_const, Z.sub_0_r.
    apply iter_pixel_step. }
  generalize (Z.to_nat y) as m.
  assert (Hall : forall m,
            Nat.iter m inner (0%nat, s)
            = ((4 * (m * Z.to_nat x))%nat, pixel_steps (m * Z.to_nat x) body 0 s)).
  { induction m as [|m IH]; [reflexivity|].
    simpl Nat.iter. rewrite IH, Hrow. simpl fst. simpl snd.
    f_equal; [lia|].
    replace (S m * Z.to_nat x)%nat with (m * Z.to_nat x + Z.to_nat x)%nat by lia.
    rewrite pixel_steps_app. reflexivity. }
  intros m. rewrite Hall. reflexivity.
Qed.

Lemma pixel_steps_ext {St : Type} (body body' : nat -> St -> St) :
  (forall p s, body p s = body' p s) ->
  forall (n p : nat) (s : St), pixel_steps n body p s = pixel_steps n body' p s.
Proof.
  intros Hext. induction n as [|n IH]; intros p s; simpl; [reflexivity|].
  rewrite Hext. apply IH.
Qed.


(** *** Stores of a pixel *)

Lemma store4_length {A} (p : nat) (v : px A) (b : list A) :
  length (store4 p v b) = length b.
Proof.
  destruct v as [[[v0 v1] v2] v3]. unfold store4.
  rewrite !length_insert. reflexivity.
Qed.

Lemma store4_lookup {A} (p c : nat) (v : px A) (b : list A) :
  (p + 3 < length b)%nat -> (c < 4)%nat ->
  store4 p v b !! (p + c)%nat = Some (chan c v).
Proof.
  intros Hp Hc. destruct v as [[[v0 v1] v2] v3]. unfold store4, chan.
  destruct c as [|[|[|[|c]]]]; try lia.
  - replace (p + 0)%nat with p by lia.
    rewrite !list_lookup_insert_ne by lia.
    apply list_lookup_insert_eq. lia.
  - rewrite !list_lookup_insert_ne by lia.
    apply list_lookup_insert_eq. rewrite length_insert. lia.
  - rewrite list_lookup_insert_ne by lia.
    apply list_lookup_insert_eq. rewrite !length_insert. lia.
  - apply list_lookup_insert_eq. rewrite !length_insert. lia.
Qed.

Lemma store4_lookup_other {A} (p i : nat) (v : px A) (b : list A) :
  (i < p \/ p + 4 <= i)%nat -> store4 p v b !! i = b !! i.
Proof.
  intros Hi. destruct v as [[[v0 v1] v2] v3]. unfold store4.
  rewrite !list_lookup_insert_ne by lia. reflexivity.
Qed.

(** The loop nest with a body that stores one pixel per step, computed
    from the offset alone: every visited pixel holds what the body stored
    there, and nothing else is written. *)
Lemma pixel_steps_store4 {A} (f : nat -> px A) :
  forall (n p : nat) (b : list A),
    (p + 4 * n <= length b)%nat ->
    let b' := pixel_steps n (fun p rt => store4 p (f p) rt) p b in
    length b' = length b /\
    (forall k c, (k < n)%nat -> (c < 4)%nat ->
                 b' !! (p + 4 * k + c)%nat = Some (chan c (f (p + 4 * k)%nat))) /\
    (forall i, (i < p \/ p + 4 * n <= i)%nat -> b' !! i = b !! i).
Proof.
  induction n as [|n IH]; intros p b Hlen; simpl pixel_steps.
  - split; [reflexivity|]. split; [lia|]. reflexivity.
  - specialize (IH (p + 4)%nat (store4 p (f p) b)).
    rewrite store4_length in IH.
    destruct IH as (IHlen & IHin & IHout); [lia|].
    split; [exact IHlen|]. split.
    + intros k c Hk Hc. destruct k as [|k].
      * replace (p + 4 * 0 + c)%nat with (p + c)%nat by lia.
        replace (p + 4 * 0)%nat with p by lia.
        rewrite IHout by lia. apply store4_lookup; lia.
      * replace (p + 4 * S k + c)%nat with (p + 4 + 4 * k + c)%nat by lia.
        replace (p + 4 * S k)%nat with (p + 4 + 4 * k)%nat by lia.
        apply IHin; lia.
    + intros i Hi. rewrite IHout by lia. apply store4_lookup_other. lia.
Qed.

(** The reading of one result pixel of a per-pixel effect. *)
Lemma pixel_loop_store4 {A} `{Inhabited A} (f : nat -> px A) (x y : Z) (b : list A)
    (k c : nat) :
  (4 * (Z.to_nat y * Z.to_nat x) <= length b)%nat ->
  (k < Z.to_nat y * Z.to_nat x)%nat -> (c < 4)%nat ->
  rd (pixel_loop x y (fun p rt => store4 p (f p) rt) b) (4 * k + c)
  = chan c (f (4 * k)%nat).
Proof.
  intros Hlen Hk Hc. rewrite pixel_loop_steps.
  destruct (pixel_steps_store4 f (Z.to_nat y * Z.to_nat x) 0 b) as (_ & Hin & _); [lia|].
  unfold rd. apply list_lookup_total_correct.
  apply (Hin k c Hk Hc).
Qed.

Lemma pixel_loop_store4_length {A} (f : nat -> px A) (x y : Z) (b : list A) :
  (4 * (Z.to_nat y * Z.to_nat x) <= length b)%nat ->
  length (pixel_loop x y (fun p rt => store4 p (f p) rt) b) = length b.
Proof.
  intros Hlen. rewrite pixel_loop_steps.
  destruct (pixel_steps_store4 f (Z.to_nat y * Z.to_nat x) 0 b) as (Hl & _ & _); [lia|].
  exact Hl.
Qed.

Lemma load4_chan {A} `{Inhabited A} (b : list A) (p : nat) (v : px A) :
  (forall c, (c < 4)%nat -> rd b (p + c) = chan c v) -> load4 b p = v.
Proof.
  intros Hc. destruct v as [[[v0 v1] v2] v3]. unfold load4.
  pose proof (Hc 0%nat ltac:(lia)) as H0. pose proof (Hc 1%nat ltac:(lia)) as H1.
  pose proof (Hc 2%nat ltac:(lia)) as H2. pose proof (Hc 3%nat ltac:(lia)) as H3.
  simpl in H0, H1, H2, H3. replace (p + 0)%nat with p in H0 by lia.
  congruence.
Qed.

Lemma pixel_loop_store4_load4 {A} `{Inhabited A} (f : nat -> px A) (x y : Z) (b : list A)
    (k : nat) :
  (4 * (Z.to_nat y * Z.to_nat x) <= length b)%nat ->
  (k < Z.to_nat y * Z.to_nat x)%nat ->
  load4 (pixel_loop x y (fun p rt => store4 p (f p) rt) b) (4 * k) = f (4 * k)%nat.
Proof.
  intros Hlen Hk. apply load4_chan. intros c Hc.
  apply pixel_loop_store4; assumption.
Qed.

(** A per-pixel effect whose body stores one pixel per step. *)
Lemma pixel_loop_body_store4 {A} `{Inhabited A} (body : nat -> list A -> list A)
    (f : nat -> px A) (x y : Z) (b : list A) (k c : nat) :
  (forall p rt, body p rt = store4 p (f p) rt) ->
  (4 * (Z.to_nat y * Z.to_nat x) <= length b)%nat ->
  (k < Z.to_nat y * Z.to_nat x)%nat -> (c < 4)%nat ->
  rd (pixel_loop x y body b) (4 * k + c) = chan c (f (4 * k)%nat).
Proof.
  intros Hbody Hlen Hk Hc.
  rewrite pixel_loop_steps, (pixel_steps_ext _ _ Hbody), <- pixel_loop_steps.
  apply pixel_loop_store4; assumption.
Qed.

Lemma pixel_loop_body_load4 {A} `{Inhabited A} (body : nat -> list A -> list A)
    (f : nat -> px A) (x y : Z) (b : list A) (k : nat) :
  (forall p rt, body p rt = store4 p (f p) rt) ->
  (4 * (Z.to_nat y * Z.to_nat x) <= length b)%nat ->
  (k < Z.to_nat y * Z.to_nat x)%nat ->
  load4 (pixel_loop x y body b) (4 * k) = f (4 * k)%nat.
Proof.
  intros Hbody Hlen Hk. apply load4_chan. intros c Hc.
  apply pixel_loop_body_store4; assumption.
Qed.

Lemma pixel_loop_body_length {A} (body : nat -> list A -> list A)
    (f : nat -> px A) (x y : Z) (b : list A) :
  (forall p rt, body p rt = store4 p (f p) rt) ->
  (4 * (Z.to_nat y * Z.to_nat x) <= length b)%nat ->
  length (pixel_loop x y body b) = length b.
Proof.
  intros Hbody Hlen.
  rewrite pixel_loop_steps, (pixel_steps_ext _ _ Hbody), <- pixel_loop_steps.
  apply pixel_loop_store4_length; assumption.
Qed.

(** Reads one channel of a result pixel of an effect whose body is a
    single [store4]. *)
Ltac read_pixel :=
  eapply eq_trans;
  [ eapply pixel_loop_body_store4;
    [ intros; cbv zeta; reflexivity | lia | lia | lia ]
  | ].

(* ===================================================================== *)
(** ** Cross effect on the red and blue images *)

(** C1 (as stated in the spec, refuted): the byte-path cross of the red
    and the blue 2x2 image at [fac = 0.25] does not give the pixel
    (191, 0, 64, 255) at every pixel. *)
Lemma cross_byte_red_blue_not_64 :
  ~ (forall k, (k < 4)%nat ->
       load4 (do_cross_effect_byte f0_25 2 2 red_2x2 blue_2x2 (replicate 16 0)) (4 * k)
       = (191, 0, 64, 255)).
Proof.
  intros Hall. specialize (Hall 0%nat ltac:(lia)).
  vm_compute in Hall. discriminate Hall.
Qed.

(** C1 (amended): for the 2x2 opaque red image (255, 0, 0, 255) and the
    2x2 opaque blue image (0, 0, 255, 255), the byte-path cross effect at
    [fac = 0.25] has [temp_fac = int(256 * fac) = 64] and
    [temp_mfac = 192], and writes the pixel (191, 0, 63, 255) at every
    pixel: [(192 * 255) >> 8 = 191] and [(64 * 255) >> 8 = 63], the shift
    truncating 63.75 to 63. *)
Theorem cross_byte_red_blue_quarter (out : list Z) :
  length out = 16%nat ->
  F32.to_int (F32.mul f256 f0_25) = 64 /\
  Int.shr (192 * 255 + 64 * 0) 8 = 191 /\
  Int.shr (192 * 0 + 64 * 255) 8 = 63 /\
  do_cross_effect_byte f0_25 2 2 red_2x2 blue_2x2 out
  = [191; 0; 63; 255;  191; 0; 63; 255;  191; 0; 63; 255;  191; 0; 63; 255].
Proof.
  intros Hlen.
  do 16 (destruct out as [|? out]; [discriminate Hlen|]).
  destruct out; [|discriminate Hlen].
  repeat split; vm_compute; reflexivity.
Qed.

Lemma cross_byte_red_blue_quarter_witness :
  length (replicate 16 0) = 16%nat /\
  do_cross_effect_byte f0_25 2 2 red_2x2 blue_2x2 (replicate 16 0)
  = [191; 0; 63; 255;  191; 0; 63; 255;  191; 0; 63; 255;  191; 0; 63; 255].
Proof.
  split; [reflexivity|].
  apply (cross_byte_red_blue_quarter (replicate 16 0)). reflexivity.
Defined.

(* ===================================================================== *)
(** ** Alpha of the add, subtract and multiply effects *)

(** C2 (as stated in the spec, refuted): the byte-path multiply effect at
    [fac = 1] of an opaque white pixel with a transparent black pixel
    writes alpha 0, not the alpha 255 of the first input. *)
Lemma mul_byte_alpha_changes :
  rd (do_mul_effect_byte F32.one 1 1 [255; 255; 255; 255] [0; 0; 0; 0] [0; 0; 0; 0]) 3
  <> rd [255; 255; 255; 255] 3.
Proof. vm_compute. discriminate. Qed.

(** C2 (amended): for every pixel and every factor, the add and the
    subtract effect write the alpha of the first input unchanged, in the
    byte and in the float path.  The multiply effect treats alpha as a
    fourth color channel: its alpha is
    [a1 + ((temp_fac * a1 * (a2 - 255)) >> 16)] in the byte path and
    [a1 + fac * a1 * (a2 - 1)] in the float path, where [a1] and [a2] are
    the alphas of the two inputs. *)
Theorem add_sub_keep_alpha_mul_blends_alpha
    (min_ii max_ii : Z -> Z -> Z) (max_ff : float -> float -> float)
    (fac : float) (x y : Z) (k : nat)
    (rect1 rect2 out : list Z) (frect1 frect2 fout : list float) :
  let n := (4 * (Z.to_nat y * Z.to_nat x))%nat in
  (k < Z.to_nat y * Z.to_nat x)%nat ->
  (n <= length rect1)%nat -> (n <= length rect2)%nat -> (n <= length out)%nat ->
  (n <= length frect1)%nat -> (n <= length frect2)%nat -> (n <= length fout)%nat ->
  let a := (4 * k + 3)%nat in
  rd (do_add_effect_byte min_ii fac x y rect1 rect2 out) a = rd rect1 a /\
  rd (do_add_effect_float fac x y frect1 frect2 fout) a = rd frect1 a /\
  rd (do_sub_effect_byte max_ii fac x y rect1 rect2 out) a = rd rect1 a /\
  rd (do_sub_effect_float max_ff fac x y frect1 frect2 fout) a = rd frect1 a /\
  rd (do_mul_effect_byte fac x y rect1 rect2 out) a
  = Int.to_uchar
      (Int.add (rd rect1 a)
         (Int.shr (Int.mul (Int.mul (F32.to_int (F32.mul f256 fac)) (rd rect1 a))
                           (Int.sub (rd rect2 a) 255)) 16)) /\
  rd (do_mul_effect_float fac x y frect1 frect2 fout) a
  = F32.add (rd frect1 a)
      (F32.mul (F32.mul fac (rd frect1 a)) (F32.sub (rd frect2 a) F32.one)).
Proof.
  intros n Hk _ _ Hout _ _ Hfout a. subst a n.
  unfold do_add_effect_byte, do_add_effect_float, do_sub_effect_byte,
    do_sub_effect_float, do_mul_effect_byte, do_mul_effect_float.
  repeat split; read_pixel; reflexivity.
Qed.

Lemma add_sub_keep_alpha_mul_blends_alpha_witness :
  rd (do_add_effect_byte Z.min f0_25 1 1 [10; 20; 30; 40] [50; 60; 70; 80] [0; 0; 0; 0]) 3
  = 40.
Proof.
  apply (add_sub_keep_alpha_mul_blends_alpha Z.min Z.max
           (fun a b => if F32.gtb a b then a else b) f0_25 1 1 0
           [10; 20; 30; 40] [50; 60; 70; 80] [0; 0; 0; 0]
           [F32.one; F32.one; F32.one; F32.one] [F32.one; F32.one; F32.one; F32.one]
           [F32.zero; F32.zero; F32.zero; F32.zero]);
    simpl; lia.
Defined.

(* ===================================================================== *)
(** ** Alpha over *)

(** C3 (as stated in the spec, refuted): in the float path the alpha-over
    effect does not re-encode the blend to straight alpha (nor does it
    decode its inputs).  For the stored pixel (0.5, 0.5, 0.5, 0.5) over
    itself at [fac = 0.5] it writes (0.625, 0.625, 0.625, 0.625); the rule
    with a re-encoding gives (0.5, 0.5, 0.5, 0.625) when the inputs are
    decoded first and (1, 1, 1, 0.625) when they are taken as already
    premultiplied. *)
Lemma alphaover_float_no_decode_encode :
  let half := (f0_5, f0_5, f0_5, f0_5) in
  let written :=
    load4 (do_alphaover_effect_float f0_5 1 1
             [f0_5; f0_5; f0_5; f0_5] [f0_5; f0_5; f0_5; f0_5]
             (replicate 4 F32.zero)) 0 in
  written <> alphaover_rule premul_to_straight_v4 f0_5
               (straight_to_premul_v4 half) (straight_to_premul_v4 half) half half /\
  written <> alphaover_rule premul_to_straight_v4 f0_5 half half half half.
Proof. split; vm_compute; discriminate. Qed.

(** C3 (amended): for every pixel of the alpha-over effect, with
    [mfac = 1 - fac * alpha1]: the output pixel is the input-2 pixel
    verbatim if [fac <= 0], otherwise the input-1 pixel verbatim if
    [mfac <= 0], otherwise the blend [fac * in1 + mfac * in2] of the four
    channels.  In the byte path [alpha1] and the blended channels are
    those of the inputs decoded to premultiplied alpha, and the blend is
    re-encoded to straight alpha.  In the float path the stored channels
    are used as they are, and the blend is stored as it is. *)
Theorem alphaover_per_pixel
    (straight_uchar_to_premul_float : px Z -> px float)
    (premul_float_to_straight_uchar : px float -> px Z)
    (fac : float) (x y : Z) (k : nat)
    (rect1 rect2 out : list Z) (frect1 frect2 fout : list float) :
  let n := (4 * (Z.to_nat y * Z.to_nat x))%nat in
  (k < Z.to_nat y * Z.to_nat x)%nat ->
  (n <= length rect1)%nat -> (n <= length rect2)%nat -> (n <= length out)%nat ->
  (n <= length frect1)%nat -> (n <= length frect2)%nat -> (n <= length fout)%nat ->
  let p := (4 * k)%nat in
  load4 (do_alphaover_effect_byte straight_uchar_to_premul_float
           premul_float_to_straight_uchar fac x y rect1 rect2 out) p
  = alphaover_rule premul_float_to_straight_uchar fac
      (straight_uchar_to_premul_float (load4 rect1 p))
      (straight_uchar_to_premul_float (load4 rect2 p))
      (load4 rect1 p) (load4 rect2 p) /\
  load4 (do_alphaover_effect_float fac x y frect1 frect2 fout) p
  = alphaover_rule (fun blend => blend) fac
      (load4 frect1 p) (load4 frect2 p) (load4 frect1 p) (load4 frect2 p).
Proof.
  intros n Hk _ _ Hout _ _ Hfout p. subst p n. split.
  - unfold do_alphaover_effect_byte.
    apply (pixel_loop_body_load4 _
             (fun p => alphaover_rule premul_float_to_straight_uchar fac
                         (straight_uchar_to_premul_float (load4 rect1 p))
                         (straight_uchar_to_premul_float (load4 rect2 p))
                         (load4 rect1 p) (load4 rect2 p))); [|lia|lia].
    intros p rt. unfold alphaover_rule. cbv zeta.
    destruct (F32.leb fac F32.zero); [reflexivity|].
    destruct (F32.leb _ F32.zero); reflexivity.
  - unfold do_alphaover_effect_float.
    apply (pixel_loop_body_load4 _
             (fun p => alphaover_rule (fun blend => blend) fac
                         (load4 frect1 p) (load4 frect2 p)
                         (load4 frect1 p) (load4 frect2 p))); [|lia|lia].
    intros p rt. unfold alphaover_rule, load4, chan. cbv zeta.
    rewrite !Nat.add_0_r.
    destruct (F32.leb fac F32.zero); [reflexivity|].
    destruct (F32.leb _ F32.zero); reflexivity.
Qed.

Lemma alphaover_per_pixel_witness :
  load4 (do_alphaover_effect_float F32.one 1 1
           [f0_5; f0_5; f0_5; f0_5] [F32.zero; F32.zero; F32.zero; F32.one]
           (replicate 4 F32.zero)) 0
  = (f0_5, f0_5, f0_5, F32.one).
Proof.
  apply (proj2 (alphaover_per_pixel (fun _ => (F32.zero, F32.zero, F32.zero, F32.zero))
                  (fun _ => (0, 0, 0, 0)) F32.one 1 1 0
                  [0; 0; 0; 0] [0; 0; 0; 0] [0; 0; 0; 0]
                  [f0_5; f0_5; f0_5; f0_5] [F32.zero; F32.zero; F32.zero; F32.one]
                  (replicate 4 F32.zero)
                  ltac:(simpl; lia) ltac:(simpl; lia) ltac:(simpl; lia)
                  ltac:(simpl; lia) ltac:(simpl; lia) ltac:(simpl; lia)
                  ltac:(simpl; lia))).
Defined.

(* ===================================================================== *)
(** ** Cross effect at the boundary factors *)

Lemma pixel_loop_body_lookup {A} (body : nat -> list A -> list A)
    (f : nat -> px A) (x y : Z) (b : list A) (i : nat) :
  (forall p rt, body p rt = store4 p (f p) rt) ->
  (4 * (Z.to_nat y * Z.to_nat x) <= length b)%nat ->
  (i < 4 * (Z.to_nat y * Z.to_nat x))%nat ->
  pixel_loop x y body b !! i = Some (chan (i mod 4) (f (4 * (i / 4))%nat)).
Proof.
  intros Hbody Hlen Hi.
  rewrite pixel_loop_steps, (pixel_steps_ext _ _ Hbody).
  destruct (pixel_steps_store4 f (Z.to_nat y * Z.to_nat x) 0 b) as (_ & Hin & _); [lia|].
  pose proof (Nat.div_mod_eq i 4) as Hdm.
  pose proof (Nat.mod_upper_bound i 4 ltac:(lia)) as Hc.
  specialize (Hin (i / 4)%nat (i mod 4)%nat).
  replace (0 + 4 * (i / 4) + i mod 4)%nat with i in Hin by lia.
  apply Hin; [|assumption].
  apply Nat.Div0.div_lt_upper_bound. lia.
Qed.

Lemma cross_byte_temp_fac_0 : F32.to_int (F32.mul f256 F32.zero) = 0.
Proof. reflexivity. Qed.

Lemma cross_byte_temp_fac_1 : F32.to_int (F32.mul f256 F32.one) = 256.
Proof. reflexivity. Qed.

Lemma cross_byte_blend_0 a b :
  byte_channel a ->
  Int.to_uchar (Int.shr (Int.add (Int.mul (Int.sub 256 0) a) (Int.mul 0 b)) 8) = a.
Proof.
  unfold byte_channel. intros Ha.
  change (Int.sub 256 0) with 256. change (Int.mul 0 b) with 0.
  unfold Int.mul, Int.add. rewrite (int32_small (256 * a)), Z.add_0_r, int32_small;
    try (unfold Int.INT_MIN, Int.INT_MAX; lia).
  unfold Int.shr. rewrite Z.shiftr_div_pow2 by lia.
  change (2 ^ 8) with 256. rewrite Z.mul_comm, Z.div_mul by lia.
  apply to_uchar_small, Ha.
Qed.

Lemma cross_byte_blend_1 a b :
  byte_channel b ->
  Int.to_uchar (Int.shr (Int.add (Int.mul (Int.sub 256 256) a) (Int.mul 256 b)) 8) = b.
Proof.
  unfold byte_channel. intros Hb.
  change (Int.sub 256 256) with 0. change (Int.mul 0 a) with 0.
  unfold Int.mul, Int.add. rewrite (int32_small (256 * b)), Z.add_0_l, int32_small;
    try (unfold Int.INT_MIN, Int.INT_MAX; lia).
  unfold Int.shr. rewrite Z.shiftr_div_pow2 by lia.
  change (2 ^ 8) with 256. rewrite Z.mul_comm, Z.div_mul by lia.
  apply to_uchar_small, Hb.
Qed.

(** [1 * a] is [a], for every well-formed float. *)
Lemma mul_one_valid (a : float) : F32.valid a = true -> F32.mul F32.one a = a.
Proof.
  destruct a as [s|s| |s m e]; intros Hv; try reflexivity.
  apply F32Facts.mul_one_l. exact Hv.
Qed.

Lemma mul_zero_finite (b : float) :
  F32.is_finite b = true -> exists s, F32.mul F32.zero b = S754_zero s.
Proof.
  destruct b as [s|s| |s m e]; intros Hf; try discriminate; simpl; eauto.
Qed.

Lemma add_zero_r_same (a : float) (s : bool) :
  F32.is_finite a = true -> same_number (F32.add a (S754_zero s)) a.
Proof.
  destruct a as [sa|sa| |sa m e]; intros Hf; try discriminate.
  - split; [destruct sa, s; reflexivity | discriminate].
  - simpl. split; [|reflexivity].
    unfold F32.eqb, SFeqb. rewrite F32Facts.compare_refl; reflexivity.
Qed.

Lemma add_zero_l_same (a : float) (s : bool) :
  F32.is_finite a = true -> same_number (F32.add (S754_zero s) a) a.
Proof.
  destruct a as [sa|sa| |sa m e]; intros Hf; try discriminate.
  - split; [destruct sa, s; reflexivity | discriminate].
  - simpl. split; [|reflexivity].
    unfold F32.eqb, SFeqb. rewrite F32Facts.compare_refl; reflexivity.
Qed.

Lemma cross_float_blend_0 a b :
  finite_channel a -> finite_channel b ->
  same_number (F32.add (F32.mul (F32.sub F32.one F32.zero) a) (F32.mul F32.zero b)) a.
Proof.
  intros [Hfa Hva] [Hfb _].
  change (F32.sub F32.one F32.zero) with F32.one.
  rewrite (mul_one_valid a Hva).
  destruct (mul_zero_finite b Hfb) as [s ->].
  apply add_zero_r_same, Hfa.
Qed.

Lemma cross_float_blend_1 a b :
  finite_channel a -> finite_channel b ->
  same_number (F32.add (F32.mul (F32.sub F32.one F32.one) a) (F32.mul F32.one b)) b.
Proof.
  intros [Hfa _] [Hfb Hvb].
  change (F32.sub F32.one F32.one) with F32.zero.
  rewrite (mul_one_valid b Hvb).
  destruct (mul_zero_finite a Hfa) as [s ->].
  apply add_zero_l_same, Hfb.
Qed.

Lemma chan_mod4 {A} (g : nat -> A) (i : nat) :
  let p := (4 * (i / 4))%nat in
  chan (i mod 4) (g p, g (p + 1)%nat, g (p + 2)%nat, g (p + 3)%nat) = g i.
Proof.
  intros p. subst p.
  pose proof (Nat.div_mod_eq i 4) as Hdm.
  pose proof (Nat.mod_upper_bound i 4 ltac:(lia)) as Hc.
  destruct (i mod 4)%nat as [|[|[|[|c]]]] eqn:E; cbn [chan]; try lia; f_equal; lia.
Qed.

(** A per-pixel effect that computes every channel from the channels at
    the same offset: the whole result, channel by channel. *)
Lemma pixel_loop_channelwise {A} (g : nat -> A) (x y : Z) (b : list A) (i : nat) :
  (4 * (Z.to_nat y * Z.to_nat x) <= length b)%nat ->
  (i < 4 * (Z.to_nat y * Z.to_nat x))%nat ->
  pixel_loop x y
    (fun p rt => store4 p (g p, g (p + 1)%nat, g (p + 2)%nat, g (p + 3)%nat) rt) b !! i
  = Some (g i).
Proof.
  intros Hlen Hi.
  rewrite (pixel_loop_body_lookup _
             (fun p => (g p, g (p + 1)%nat, g (p + 2)%nat, g (p + 3)%nat)) x y b i);
    [|reflexivity|lia|lia].
  f_equal. apply (chan_mod4 g i).
Qed.

Lemma pixel_loop_channelwise_length {A} (g : nat -> A) (x y : Z) (b : list A) :
  (4 * (Z.to_nat y * Z.to_nat x) <= length b)%nat ->
  length (pixel_loop x y
            (fun p rt => store4 p (g p, g (p + 1)%nat, g (p + 2)%nat, g (p + 3)%nat) rt) b)
  = length b.
Proof.
  intros Hlen.
  apply (pixel_loop_body_length _
           (fun p => (g p, g (p + 1)%nat, g (p + 2)%nat, g (p + 3)%nat)));
    [reflexivity|lia].
Qed.

Lemma rd_lookup {A} `{Inhabited A} (b : list A) (i : nat) (v : A) :
  b !! i = Some v -> rd b i = v.
Proof. intros Hl. unfold rd. apply list_lookup_total_correct, Hl. Qed.

(** C4 (as stated in the spec, refuted): in the float path the cross
    effect at [fac = 0.0] does not return input 1 for every pair of
    buffers: where input 2 holds an infinity, [0 * inf] is a NaN and the
    output channel is a NaN, not the channel 1.0 of input 1. *)
Lemma cross_float_fac0_not_input1 :
  do_cross_effect_float F32.zero 1 1
    [F32.one; F32.one; F32.one; F32.one]
    [F32.infinity; F32.one; F32.one; F32.one]
    (replicate 4 F32.zero)
  <> [F32.one; F32.one; F32.one; F32.one].
Proof. vm_compute. discriminate. Qed.

(** C4 (amended): for every pair of equally sized input buffers, the byte
    path of the cross effect returns a buffer equal to input 1 at
    [fac = 0.0] ([temp_fac = 0]) and equal to input 2 at [fac = 1.0]
    ([temp_fac = 256]).  The float path does so when all channels of both
    inputs are finite: every output channel is then the same number as the
    channel of input 1 at [fac = 0.0], of input 2 at [fac = 1.0] (equal
    under [==], and identical unless it is a zero).  The early-out of the
    registry for cross returns use-input-1 at [fac == 0.0] and use-input-2
    at [fac == 1.0]. *)
Theorem cross_boundary_factors
    (SEQ_TEXT_SHADOW : Z) (effectdata : effectdata_t) (x y : Z)
    (rect1 rect2 out : list Z) (frect1 frect2 fout : list float) :
  let n := (4 * (Z.to_nat y * Z.to_nat x))%nat in
  length rect1 = n -> length rect2 = n -> length out = n ->
  Forall byte_channel rect1 -> Forall byte_channel rect2 ->
  length frect1 = n -> length frect2 = n -> length fout = n ->
  Forall finite_channel frect1 -> Forall finite_channel frect2 ->
  do_cross_effect_byte F32.zero x y rect1 rect2 out = rect1 /\
  do_cross_effect_byte F32.one x y rect1 rect2 out = rect2 /\
  Forall2 same_number (do_cross_effect_float F32.zero x y frect1 frect2 fout) frect1 /\
  Forall2 same_number (do_cross_effect_float F32.one x y frect1 frect2 fout) frect2 /\
  call_early_out SEQ_TEXT_SHADOW
    (early_out (get_sequence_effect_impl SEQ_TYPE_CROSS)) effectdata F32.zero
  = Some EARLY_USE_INPUT_1 /\
  call_early_out SEQ_TEXT_SHADOW
    (early_out (get_sequence_effect_impl SEQ_TYPE_CROSS)) effectdata F32.one
  = Some EARLY_USE_INPUT_2.
Proof.
  intros n H1 H2 Ho B1 B2 F1 F2 Fo V1 V2.
  assert (Hbyte : forall l i, Forall byte_channel l -> (i < length l)%nat ->
                              byte_channel (rd l i)).
  { intros l i Hl Hi. destruct (lookup_lt_is_Some_2 l i Hi) as [v Hv].
    rewrite (rd_lookup _ _ _ Hv). exact (Forall_lookup_1 _ _ _ _ Hl Hv). }
  assert (Hfin : forall l i, Forall finite_channel l -> (i < length l)%nat ->
                             finite_channel (rd l i)).
  { intros l i Hl Hi. destruct (lookup_lt_is_Some_2 l i Hi) as [v Hv].
    rewrite (rd_lookup _ _ _ Hv). exact (Forall_lookup_1 _ _ _ _ Hl Hv). }
  repeat split.
  - unfold do_cross_effect_byte. rewrite cross_byte_temp_fac_0.
    apply (list_eq_same_length _ _ n); [assumption| |].
    { rewrite pixel_loop_channelwise_length; lia. }
    intros i a b Hi Ha Hb.
    rewrite pixel_loop_channelwise in Ha by lia. injection Ha as <-.
    rewrite cross_byte_blend_0 by (apply Hbyte; [assumption|lia]).
    apply rd_lookup, Hb.
  - unfold do_cross_effect_byte. rewrite cross_byte_temp_fac_1.
    apply (list_eq_same_length _ _ n); [assumption| |].
    { rewrite pixel_loop_channelwise_length; lia. }
    intros i a b Hi Ha Hb.
    rewrite pixel_loop_channelwise in Ha by lia. injection Ha as <-.
    rewrite cross_byte_blend_1 by (apply Hbyte; [assumption|lia]).
    apply rd_lookup, Hb.
  - unfold do_cross_effect_float.
    apply Forall2_same_length_lookup_2.
    { rewrite pixel_loop_channelwise_length; lia. }
    intros i a b Ha Hb.
    assert (Hi : (i < n)%nat) by (rewrite <- F1; eapply lookup_lt_Some, Hb).
    rewrite pixel_loop_channelwise in Ha by lia. injection Ha as <-.
    rewrite <- (rd_lookup _ _ _ Hb).
    apply cross_float_blend_0; apply Hfin; (assumption || lia).
  - unfold do_cross_effect_float.
    apply Forall2_same_length_lookup_2.
    { rewrite pixel_loop_channelwise_length; lia. }
    intros i a b Ha Hb.
    assert (Hi : (i < n)%nat) by (rewrite <- F2; eapply lookup_lt_Some, Hb).
    rewrite pixel_loop_channelwise in Ha by lia. injection Ha as <-.
    rewrite <- (rd_lookup _ _ _ Hb).
    apply cross_float_blend_1; apply Hfin; (assumption || lia).
Qed.

Lemma cross_boundary_factors_witness :
  do_cross_effect_byte F32.zero 1 1 [10; 20; 30; 40] [50; 60; 70; 80] [0; 0; 0; 0]
  = [10; 20; 30; 40] /\
  do_cross_effect_byte F32.one 1 1 [10; 20; 30; 40] [50; 60; 70; 80] [0; 0; 0; 0]
  = [50; 60; 70; 80].
Proof.
  assert (Hb1 : Forall byte_channel [10; 20; 30; 40])
    by (repeat constructor; unfold byte_channel; lia).
  assert (Hb2 : Forall byte_channel [50; 60; 70; 80])
    by (repeat constructor; unfold byte_channel; lia).
  assert (Hf1 : Forall finite_channel [f0_5; f0_5; f0_5; F32.one])
    by (repeat constructor; reflexivity).
  assert (Hf2 : Forall finite_channel [F32.zero; f0_25; F32.one; F32.one])
    by (repeat constructor; reflexivity).
  pose proof (cross_boundary_factors 1 effectdata_null 1 1
                [10; 20; 30; 40] [50; 60; 70; 80] [0; 0; 0; 0]
                [f0_5; f0_5; f0_5; F32.one] [F32.zero; f0_25; F32.one; F32.one]
                (replicate 4 F32.zero)
                eq_refl eq_refl eq_refl Hb1 Hb2 eq_refl eq_refl eq_refl Hf1 Hf2)
    as (H0 & H1 & _).
  split; assumption.
Defined.

(* ===================================================================== *)
(** ** Blend mode effect: handling of alpha *)

(** A loop nest on two memories whose body leaves the first one as it
    found it. *)
Lemma pixel_steps_pair {A B} (body : nat -> A * B -> A * B) (body' : nat -> B -> B)
    (a : A) (ok : nat -> Prop) :
  (forall p b, ok p -> body p (a, b) = (a, body' p b)) ->
  forall (n p : nat) (b : B),
    (forall k, (k < n)%nat -> ok (p + 4 * k)%nat) ->
    pixel_steps n body p (a, b) = (a, pixel_steps n body' p b).
Proof.
  intros Hbody. induction n as [|n IH]; intros p b Hok; simpl; [reflexivity|].
  rewrite Hbody.
  - apply IH. intros k Hk.
    replace (p + 4 + 4 * k)%nat with (p + 4 * S k)%nat by lia.
    apply Hok. lia.
  - replace p with (p + 4 * 0)%nat by lia. apply Hok. lia.
Qed.

Lemma store4_set_alpha {A} (p : nat) (v : px A) (alpha : A) (rt : list A) :
  <[(p + 3)%nat := alpha]> (store4 p v rt)
  = store4 p (chan 0 v, chan 1 v, chan 2 v, alpha) rt.
Proof.
  destruct v as [[[v0 v1] v2] v3]. unfold store4, chan.
  apply list_insert_insert_eq.
Qed.

Lemma load4_scaled_alpha {A} `{Inhabited A} (rt2 : list A) (p : nat) (alpha : A) :
  (p + 3 < length rt2)%nat ->
  load4 (<[(p + 3)%nat := alpha]> rt2) p = with_alpha rt2 p alpha.
Proof.
  intros Hp. unfold load4, with_alpha, rd.
  rewrite !list_lookup_total_insert_ne by lia.
  rewrite list_lookup_total_insert_eq by lia. reflexivity.
Qed.

Lemma restore_alpha {A} `{Inhabited A} (rt2 : list A) (p : nat) (alpha : A) :
  (p + 3 < length rt2)%nat ->
  <[(p + 3)%nat := rd rt2 (p + 3)]> (<[(p + 3)%nat := alpha]> rt2) = rt2.
Proof.
  intros Hp. rewrite list_insert_insert_eq.
  apply list_insert_id. unfold rd. apply list_lookup_lookup_total_lt, Hp.
Qed.

(** What [apply_blend_function_byte] leaves in the two memories. *)
Lemma apply_blend_function_byte_spec (fac : float) (x y : Z)
    (rect1 rect2 out : list Z) (blend_function : px Z -> px Z -> px Z) :
  (4 * (Z.to_nat y * Z.to_nat x) <= length rect2)%nat ->
  apply_blend_function_byte fac x y rect1 rect2 out blend_function
  = (rect2,
     pixel_loop x y
       (fun p rt =>
          let v := blend_function (load4 rect1 p)
                     (with_alpha rect2 p
                        (F32.to_uchar (F32.mul (F32.of_int (rd rect2 (p + 3))) fac))) in
          store4 p (chan 0 v, chan 1 v, chan 2 v, rd rect1 (p + 3)) rt)
       out).
Proof.
  intros Hlen. unfold apply_blend_function_byte.
  rewrite !pixel_loop_steps.
  apply (pixel_steps_pair _ _ rect2 (fun p => (p + 3 < length rect2)%nat)).
  - intros p rt Hp. cbv zeta.
    rewrite (restore_alpha rect2 p _ Hp), store4_set_alpha, load4_scaled_alpha by exact Hp.
    reflexivity.
  - intros k Hk. lia.
Qed.

Lemma apply_blend_function_float_spec (fac : float) (x y : Z)
    (rect1 rect2 out : list float) (blend_function : px float -> px float -> px float) :
  (4 * (Z.to_nat y * Z.to_nat x) <= length rect2)%nat ->
  apply_blend_function_float fac x y rect1 rect2 out blend_function
  = (rect2,
     pixel_loop x y
       (fun p rt =>
          let v := blend_function (load4 rect1 p)
                     (with_alpha rect2 p (F32.mul (rd rect2 (p + 3)) fac)) in
          store4 p (chan 0 v, chan 1 v, chan 2 v, rd rect1 (p + 3)) rt)
       out).
Proof.
  intros Hlen. unfold apply_blend_function_float.
  rewrite !pixel_loop_steps.
  apply (pixel_steps_pair _ _ rect2 (fun p => (p + 3 < length rect2)%nat)).
  - intros p rt Hp. cbv zeta.
    rewrite (restore_alpha rect2 p _ Hp), store4_set_alpha, load4_scaled_alpha by exact Hp.
    reflexivity.
  - intros k Hk. lia.
Qed.

(** C5: the switch of [do_blend_effect_byte] / [do_blend_effect_float]
    dispatches the 21 modes add, sub, mul, darken, color burn, linear
    burn, screen, lighten, dodge, overlay, soft light, hard light, pin
    light, linear light, vivid light, blend color, hue, saturation, value,
    difference and exclusion, each to the blend function of its name, and
    no other type (for any other type the buffers are left as they are).
    For each of these modes and for every pixel: the color channels of the
    output are those the blend function returns when called on the pixel
    of input 1 and the pixel of input 2 with its alpha pre-scaled by the
    factor; input buffer 2 is the same after the call as before it (the
    alpha is restored); and the alpha of the output is the alpha of
    input 1. *)
Theorem blend_mode_alpha_handling
    (blend_byte : IMB_blend_func -> px Z -> px Z -> px Z)
    (blend_float : IMB_blend_func -> px float -> px float -> px float)
    (fac : float) (x y : Z) (btype : seq_type) (f : IMB_blend_func) (k : nat)
    (rect1 rect2 out : list Z) (frect1 frect2 fout : list float) :
  let blend_modes :=
    [(SEQ_TYPE_ADD, blend_color_add); (SEQ_TYPE_SUB, blend_color_sub);
     (SEQ_TYPE_MUL, blend_color_mul); (SEQ_TYPE_DARKEN, blend_color_darken);
     (SEQ_TYPE_COLOR_BURN, blend_color_burn);
     (SEQ_TYPE_LINEAR_BURN, blend_color_linearburn);
     (SEQ_TYPE_SCREEN, blend_color_screen); (SEQ_TYPE_LIGHTEN, blend_color_lighten);
     (SEQ_TYPE_DODGE, blend_color_dodge); (SEQ_TYPE_OVERLAY, blend_color_overlay);
     (SEQ_TYPE_SOFT_LIGHT, blend_color_softlight);
     (SEQ_TYPE_HARD_LIGHT, blend_color_hardlight);
     (SEQ_TYPE_PIN_LIGHT, blend_color_pinlight);
     (SEQ_TYPE_LIN_LIGHT, blend_color_linearlight);
     (SEQ_TYPE_VIVID_LIGHT, blend_color_vividlight);
     (SEQ_TYPE_BLEND_COLOR, blend_color_color); (SEQ_TYPE_HUE, blend_color_hue);
     (SEQ_TYPE_SATURATION, blend_color_saturation);
     (SEQ_TYPE_VALUE, blend_color_luminosity);
     (SEQ_TYPE_DIFFERENCE, blend_color_difference);
     (SEQ_TYPE_EXCLUSION, blend_color_exclusion)] in
  let n := (4 * (Z.to_nat y * Z.to_nat x))%nat in
  In (btype, f) blend_modes ->
  (k < Z.to_nat y * Z.to_nat x)%nat ->
  (n <= length rect1)%nat -> (n <= length rect2)%nat -> (n <= length out)%nat ->
  (n <= length frect1)%nat -> (n <= length frect2)%nat -> (n <= length fout)%nat ->
  let p := (4 * k)%nat in
  let res := do_blend_effect_byte blend_byte fac x y rect1 rect2 btype out in
  let fres := do_blend_effect_float blend_float fac x y frect1 frect2 btype fout in
  let called :=
    blend_byte f (load4 rect1 p)
      (with_alpha rect2 p (F32.to_uchar (F32.mul (F32.of_int (rd rect2 (p + 3))) fac))) in
  let fcalled :=
    blend_float f (load4 frect1 p)
      (with_alpha frect2 p (F32.mul (rd frect2 (p + 3)) fac)) in
  (forall t g, blend_case t = Some g <-> In (t, g) blend_modes) /\
  (forall t, (forall g, ~ In (t, g) blend_modes) ->
     do_blend_effect_byte blend_byte fac x y rect1 rect2 t out = (rect2, out) /\
     do_blend_effect_float blend_float fac x y frect1 frect2 t fout = (frect2, fout)) /\
  (fst res = rect2 /\
   load4 (snd res) p = (chan 0 called, chan 1 called, chan 2 called, rd rect1 (p + 3))) /\
  (fst fres = frect2 /\
   load4 (snd fres) p = (chan 0 fcalled, chan 1 fcalled, chan 2 fcalled, rd frect1 (p + 3))).
Proof.
  intros blend_modes n Hmode Hk _ Hr2 Hout _ Hfr2 Hfout p res fres called fcalled.
  assert (Henum : forall t g, blend_case t = Some g <-> In (t, g) blend_modes).
  { intros t g. split.
    - destruct t; cbn [blend_case]; intros Hg; try discriminate Hg;
        injection Hg as <-; cbn [In blend_modes]; tauto.
    - cbn [In blend_modes]. intros Hin.
      repeat (destruct Hin as [Hin|Hin]; [injection Hin as <- <-; reflexivity|]).
      contradiction. }
  split; [exact Henum|]. split.
  { intros t Hnot. unfold do_blend_effect_byte, do_blend_effect_float.
    destruct (blend_case t) as [g|] eqn:Eg; [|split; reflexivity].
    exfalso. apply (Hnot g), Henum, Eg. }
  pose proof (proj2 (Henum btype f) Hmode) as Hcase.
  subst res fres called fcalled p n.
  unfold do_blend_effect_byte, do_blend_effect_float. rewrite Hcase.
  rewrite apply_blend_function_byte_spec, apply_blend_function_float_spec by assumption.
  cbn [fst snd]. repeat split.
  - apply (pixel_loop_body_load4 _
             (fun p => let v := blend_byte f (load4 rect1 p)
                         (with_alpha rect2 p
                            (F32.to_uchar (F32.mul (F32.of_int (rd rect2 (p + 3))) fac))) in
                       (chan 0 v, chan 1 v, chan 2 v, rd rect1 (p + 3))));
      [reflexivity|lia|lia].
  - apply (pixel_loop_body_load4 _
             (fun p => let v := blend_float f (load4 frect1 p)
                         (with_alpha frect2 p (F32.mul (rd frect2 (p + 3)) fac)) in
                       (chan 0 v, chan 1 v, chan 2 v, rd frect1 (p + 3))));
      [reflexivity|lia|lia].
Qed.

Lemma blend_mode_alpha_handling_witness :
  let res :=
    do_blend_effect_byte (fun _ _ src2 => src2) f0_5 1 1
      [10; 20; 30; 40] [50; 60; 70; 80] SEQ_TYPE_SCREEN [0; 0; 0; 0] in
  fst res = [50; 60; 70; 80] /\ load4 (snd res) 0 = (50, 60, 70, 40).
Proof.
  apply (proj1 (proj2 (proj2
           (blend_mode_alpha_handling (fun _ _ src2 => src2) (fun _ _ src2 => src2)
              f0_5 1 1 SEQ_TYPE_SCREEN blend_color_screen 0
              [10; 20; 30; 40] [50; 60; 70; 80] [0; 0; 0; 0]
              [F32.one; F32.one; F32.one; F32.one] [f0_5; f0_5; f0_5; f0_5]
              (replicate 4 F32.zero)
              ltac:(simpl; tauto) ltac:(simpl; lia) ltac:(simpl; lia) ltac:(simpl; lia)
              ltac:(simpl; lia) ltac:(simpl; lia) ltac:(simpl; lia)
              ltac:(simpl; lia))))).
Defined.

(* ===================================================================== *)
(** ** Early-out of the gaussian blur *)

Lemma eqb_zero (v : float) : F32.eqb v F32.zero = F32.is_zero v.
Proof. destruct v as [s|s| |s m e]; try reflexivity; destruct s; reflexivity. Qed.

(** C8: the handle of the gaussian blur has [early_out_gaussian_blur] as
    its early-out; this classification is use-input-1 when both radii
    [size_x] and [size_y] are zero and run-full-algorithm for any other
    radii; and a compositing call that acts on it returns input 1 itself,
    with no output buffer allocated, exactly when both radii are zero. *)
Theorem gaussian_blur_early_out
    (SEQ_TEXT_SHADOW : Z) (data : GaussianBlurVars) (fac : float)
    (Buf : Type) (input1 input2 : Buf) (execute : option Buf -> option Buf -> Buf) :
  let both_zero := F32.is_zero (size_x data) && F32.is_zero (size_y data) in
  call_early_out SEQ_TEXT_SHADOW
    (early_out (get_sequence_effect_impl SEQ_TYPE_GAUSSIAN_BLUR))
    (effectdata_gaussian_blur data) fac
  = Some (early_out_gaussian_blur data fac) /\
  early_out_gaussian_blur data fac
  = (if both_zero then EARLY_USE_INPUT_1 else EARLY_DO_EFFECT) /\
  render_effect_strip (early_out_gaussian_blur data fac) input1 input2 execute
  = (if both_zero then (input1, 0%nat)
     else (execute (Some input1) (Some input2), 1%nat)).
Proof.
  intros both_zero. subst both_zero.
  split; [reflexivity|].
  unfold early_out_gaussian_blur.
  change (F32.of_int 0) with F32.zero. rewrite !eqb_zero.
  destruct (F32.is_zero (size_x data) && F32.is_zero (size_y data)); split; reflexivity.
Qed.

(* ===================================================================== *)
(** ** Effect handle registry *)

(** C9: the input-count query returns 0 for solid color, multicam,
    adjustment and text, 1 for transform, glow, gaussian blur and speed,
    and 2 for cross, gamma-cross, alpha-over, alpha-under, add, sub, mul,
    wipe, the blend modes, color-mix and overdrop; these are all the
    types with a case in the switch of the registry, and for a value with
    no case the query returns 0.  The handle of a type is a function of
    the type alone; and resolving the handle of a strip again gives the
    same handle, whatever the first resolution did to the strip (it can
    run the [load] function and clear the not-loaded flag): the handle of
    the case label of the strip's type when the type has the bit
    [SEQ_TYPE_EFFECT], the all-null handle when it has not. *)
Theorem effect_num_inputs_table :
  Forall (fun t => SEQ_effect_get_num_inputs t = 0) effects_without_input /\
  Forall (fun t => SEQ_effect_get_num_inputs t = 1) effects_with_one_input /\
  Forall (fun t => SEQ_effect_get_num_inputs t = 2) effects_with_two_inputs /\
  (forall t : seq_type,
     t <> SEQ_TYPE_other
     <-> t ∈ effects_without_input ++ effects_with_one_input ++ effects_with_two_inputs) /\
  SEQ_effect_get_num_inputs SEQ_TYPE_other = 0 /\
  (forall (SEQ_EFFECT_NOT_LOADED : Z) (SEQ_effect_text_font_load : TextVars -> TextVars)
          (SEQ_TYPE_EFFECT : Z) (seq_type_of_int : Z -> seq_type)
          (seq : Strip.Sequence),
     let get :=
       SEQ_effect_handle_get SEQ_EFFECT_NOT_LOADED SEQ_effect_text_font_load
         SEQ_TYPE_EFFECT seq_type_of_int in
     let first := get seq in
     let again := get (snd first) in
     fst again = fst first /\
     fst first = (if negb (Z.land (Strip.type seq) SEQ_TYPE_EFFECT =? 0)
                  then Some (get_sequence_effect_impl (seq_type_of_int (Strip.type seq)))
                  else None)).
Proof.
  split; [repeat constructor|].
  split; [repeat constructor|].
  split; [repeat constructor|].
  split; [|split; [reflexivity|]].
  - intros t. split.
    + intros Ht. destruct t; try congruence; apply (bool_decide_unpack _); reflexivity.
    + intros Hin ->. revert Hin.
      unfold effects_without_input, effects_with_one_input, effects_with_two_inputs.
      cbn [app]. rewrite !elem_of_cons, elem_of_nil. intros H.
      repeat (destruct H as [H|H]; [discriminate H|]). exact H.
  - intros NL font EFFECT decode [t fl ed]. cbv zeta.
    unfold SEQ_effect_handle_get. cbn [Strip.type Strip.flag].
    destruct (negb (Z.land t EFFECT =? 0)) eqn:Et; [|cbn; rewrite Et; auto].
    destruct (negb (Z.land fl NL =? 0)) eqn:En; cbn [fst snd Strip.type Strip.flag].
    + rewrite Et. destruct (negb (Z.land (Z.land fl (Z.lnot NL)) NL =? 0)); auto.
    + rewrite Et, En. auto.
Qed.

(* ===================================================================== *)
(** ** Representation of the output buffer *)

(** C10: the output buffer that [prepare_effect_imbufs] allocates is in
    float representation if and only if at least one of the non-null
    inputs carries a float buffer; with no input, or with byte-only
    inputs, it is a byte buffer; so the test on [out->float_buffer.data]
    selects the float path exactly when some input was float. *)
Theorem output_float_iff_some_input_float
    (seq_imbuf_to_sequencer_space IMB_rect_from_float : ImBuf -> ImBuf)
    (rectx recty : Z) (ibuf1 ibuf2 ibuf3 : option ImBuf) :
  let out :=
    fst (prepare_effect_imbufs seq_imbuf_to_sequencer_space IMB_rect_from_float
           rectx recty ibuf1 ibuf2 ibuf3) in
  takes_float_path out = has_float ibuf1 || has_float ibuf2 || has_float ibuf3 /\
  non_null (float_buffer out) = has_float ibuf1 || has_float ibuf2 || has_float ibuf3 /\
  non_null (byte_buffer out)
  = negb (has_float ibuf1 || has_float ibuf2 || has_float ibuf3).
Proof.
  intros out. subst out. unfold prepare_effect_imbufs.
  destruct ibuf1 as [[b1 [f1|]]|], ibuf2 as [[b2 [f2|]]|], ibuf3 as [[b3 [f3|]]|];
    repeat split; reflexivity.
Qed.

(* ===================================================================== *)
(** ** Frame map of the speed effect *)

Lemma within_finite (hi e : float) :
  F32.is_finite hi = true -> within F32.zero hi e -> F32.is_finite e = true.
Proof.
  unfold within, F32.leb, SFleb. intros Hhi [H0 H1].
  destruct e as [s|s| |s m x]; try reflexivity.
  - destruct s; [discriminate H0|].
    destruct hi as [sh|sh| |sh mh eh]; try discriminate Hhi; discriminate H1.
  - discriminate H0.
Qed.

(** The clamp brings every number into the range. *)
Lemma CLAMP_within (a lo hi : float) :
  F32.is_nan a = false -> F32.leb lo hi = true -> within lo hi (CLAMP a lo hi).
Proof.
  intros Ha Hlh. destruct (F32Facts.leb_not_nan _ _ Hlh) as [Hlo Hhi].
  unfold CLAMP, within, F32.gtb.
  destruct (F32.ltb a lo) eqn:E1.
  - split; [apply F32Facts.leb_refl, Hlo | exact Hlh].
  - destruct (SFltb hi a) eqn:E2.
    + split; [exact Hlh | apply F32Facts.leb_refl, Hhi].
    + split; apply F32Facts.not_ltb_leb; assumption.
Qed.

Section SpeedFacts.

Variables Scene Sequence FCurve : Type.
Variable seq1 : Sequence -> option Sequence.
Variable SEQ_time_left_handle_frame_get : Scene -> Sequence -> Z.
Variable SEQ_time_right_handle_frame_get : Scene -> Sequence -> Z.
Variable SEQ_time_strip_length_get : Scene -> Sequence -> Z.
Variable seq_effect_speed_speed_factor_curve_get : Scene -> Sequence -> option FCurve.
Variable evaluate_fcurve : FCurve -> float -> float.

Variables (scene : Scene) (seq source : Sequence) (fcu : FCurve).

Local Abbreviation curve_at :=
  (curve_at Scene Sequence FCurve SEQ_time_left_handle_frame_get evaluate_fcurve
     scene seq fcu).
Local Abbreviation frame_max :=
  (frame_max Scene Sequence SEQ_time_strip_length_get scene source).
Local Abbreviation rebuild_inv :=
  (rebuild_inv Scene Sequence FCurve SEQ_time_left_handle_frame_get
     SEQ_time_strip_length_get evaluate_fcurve scene seq source fcu).

Hypothesis curve_not_nan : forall t, F32.is_nan (evaluate_fcurve fcu t) = false.
Hypothesis length_in_range :
  0 <= SEQ_time_strip_length_get scene source <= Int.INT_MAX.

Lemma frame_max_finite : F32.is_finite frame_max = true.
Proof.
  apply F32Facts.of_int_finite. unfold Int.INT_MIN, Int.INT_MAX in *. lia.
Qed.

Lemma frame_max_nonneg : F32.leb F32.zero frame_max = true.
Proof. apply F32Facts.of_int_nonneg. lia. Qed.

Lemma rebuild_map_loop_inv (n : Z) (fm0 : list float) :
  1 <= n ->
  length fm0 = Z.to_nat n ->
  fm0 !! 0%nat = Some F32.zero ->
  rebuild_inv (Z.to_nat n) n
    (rebuild_map_loop Scene Sequence FCurve SEQ_time_left_handle_frame_get
       SEQ_time_strip_length_get evaluate_fcurve scene seq source fcu n fm0).
Proof.
  intros Hn Hlen H0. unfold rebuild_map_loop.
  apply (for_range_inv (rebuild_inv (Z.to_nat n))); [exact Hn| |].
  - (* before the first iteration *)
    unfold rebuild_inv. split; [exact Hlen|]. split; [exact H0|].
    split; [exact H0|]. split.
    + intros j Hj. exists F32.zero. split.
      * replace j with 0%nat by lia. exact H0.
      * split; [reflexivity | apply frame_max_nonneg].
    + intros j Hj. lia.
  - (* one iteration *)
    intros i [target fm] Hi (Il & I0 & It & Iin & Irec).
    unfold rebuild_inv.
    change (F32.of_int 0) with F32.zero.
    change (evaluate_fcurve fcu
              (F32.of_int (Int.add (SEQ_time_left_handle_frame_get scene seq) i)))
      with (curve_at i).
    change (F32.of_int (SEQ_time_strip_length_get scene source)) with frame_max.
    set (target' := CLAMP (F32.add target (curve_at i)) F32.zero frame_max).
    assert (Hprev : within F32.zero frame_max target).
    { destruct (Iin (Z.to_nat (i - 1)) ltac:(lia)) as (e & He & Hw).
      rewrite It in He. injection He as <-. exact Hw. }
    assert (Hnew : within F32.zero frame_max target').
    { apply CLAMP_within; [|apply frame_max_nonneg].
      apply F32Facts.add_not_nan; [|apply curve_not_nan].
      apply (within_finite frame_max); [apply frame_max_finite | exact Hprev]. }
    assert (Hpos : (Z.to_nat i < length fm)%nat) by lia.
    split; [rewrite length_insert; exact Il|].
    split; [rewrite list_lookup_insert_ne by lia; exact I0|].
    split.
    { replace (i + 1 - 1) with i by lia. apply list_lookup_insert_eq, Hpos. }
    split.
    + intros j Hj. destruct (decide (j = Z.to_nat i)) as [->|Hne].
      * exists target'. split; [apply list_lookup_insert_eq, Hpos | exact Hnew].
      * rewrite list_lookup_insert_ne by lia. apply Iin. lia.
    + intros j Hj. destruct (decide (j = i)) as [->|Hne].
      * exists target. split.
        -- rewrite list_lookup_insert_ne by lia. exact It.
        -- apply list_lookup_insert_eq, Hpos.
      * rewrite !list_lookup_insert_ne by lia. apply Irec. lia.
Qed.

End SpeedFacts.

(** C6 (as stated in the spec, refuted): the bound does not hold for an
    arbitrary factor curve.  With a curve that evaluates to a NaN, an
    effect strip of three frames and a source strip of length 10, entry 1
    of the rebuilt frame map is a NaN, which the clamp lets through (a NaN
    is neither below 0 nor above 10), and which is not within [0, 10]. *)
Lemma speed_frame_map_nan_curve :
  let v :=
    seq_effect_speed_rebuild_map unit unit unit
      (fun _ => Some tt) (fun _ _ => 0) (fun _ _ => 3) (fun _ _ => 10)
      (fun _ _ => Some tt) (fun _ _ => F32.nan) tt tt {| frameMap := None |} in
  exists fm e,
    frameMap v = Some fm /\ fm !! 1%nat = Some e /\
    ~ within F32.zero (F32.of_int 10) e.
Proof.
  exists [F32.zero; F32.nan; F32.nan], F32.nan.
  split; [reflexivity|]. split; [reflexivity|].
  intros [H0 _]. discriminate H0.
Qed.

(** C6 (amended): after [seq_effect_speed_rebuild_map] runs for a speed
    effect strip with a non-null input, a positive strip length and a
    factor curve, every entry of the rebuilt frame map lies within
    [0, length of the source strip], for every factor curve whose
    evaluations are numbers (not NaN), whatever their sign and size, the
    length of the source strip being a non-negative [int]: the map has one
    entry per frame of the effect strip, entry 0 is 0, and each later
    entry is the clamp to that range of the entry before it plus the value
    of the curve at that frame. *)
Theorem speed_frame_map_within_source
    (Scene Sequence FCurve : Type)
    (seq1 : Sequence -> option Sequence)
    (SEQ_time_left_handle_frame_get : Scene -> Sequence -> Z)
    (SEQ_time_right_handle_frame_get : Scene -> Sequence -> Z)
    (SEQ_time_strip_length_get : Scene -> Sequence -> Z)
    (seq_effect_speed_speed_factor_curve_get : Scene -> Sequence -> option FCurve)
    (evaluate_fcurve : FCurve -> float -> float)
    (scene : Scene) (seq source : Sequence) (fcu : FCurve) (v : SpeedControlVars) :
  let effect_strip_length :=
    Int.sub (SEQ_time_right_handle_frame_get scene seq)
            (SEQ_time_left_handle_frame_get scene seq) in
  let source_length := SEQ_time_strip_length_get scene source in
  seq1 seq = Some source ->
  1 <= effect_strip_length ->
  seq_effect_speed_speed_factor_curve_get scene seq = Some fcu ->
  0 <= source_length <= Int.INT_MAX ->
  (forall t, F32.is_nan (evaluate_fcurve fcu t) = false) ->
  exists fm,
    frameMap (seq_effect_speed_rebuild_map Scene Sequence FCurve seq1
                SEQ_time_left_handle_frame_get SEQ_time_right_handle_frame_get
                SEQ_time_strip_length_get seq_effect_speed_speed_factor_curve_get
                evaluate_fcurve scene seq v)
    = Some fm /\
    length fm = Z.to_nat effect_strip_length /\
    fm !! 0%nat = Some F32.zero /\
    (forall i, 1 <= i < effect_strip_length ->
       exists prev,
         fm !! Z.to_nat (i - 1) = Some prev /\
         fm !! Z.to_nat i
         = Some (CLAMP
                   (F32.add prev
                      (evaluate_fcurve fcu
                         (F32.of_int
                            (Int.add (SEQ_time_left_handle_frame_get scene seq) i))))
                   F32.zero (F32.of_int source_length))) /\
    (forall i e, fm !! i = Some e -> within F32.zero (F32.of_int source_length) e).
Proof.
  intros n L Hsrc Hn Hfcu HL Hcurve.
  unfold seq_effect_speed_rebuild_map. fold n.
  rewrite Hsrc, Hfcu.
  destruct (n <? 1) eqn:En; [apply Z.ltb_lt in En; lia|].
  cbn [frameMap].
  pose proof (rebuild_map_loop_inv Scene Sequence FCurve
                SEQ_time_left_handle_frame_get SEQ_time_strip_length_get evaluate_fcurve
                scene seq source fcu Hcurve HL n
                (<[0%nat := F32.zero]> (MEM_mallocN_floats (Z.to_nat n)))) as Hinv.
  destruct (rebuild_map_loop _ _ _ _ _ _ _ _ _ _ _ _) as [target fm].
  destruct Hinv as (Il & I0 & _ & Iin & Irec).
  - exact Hn.
  - unfold MEM_mallocN_floats. rewrite length_insert, length_replicate. reflexivity.
  - apply list_lookup_insert_eq. unfold MEM_mallocN_floats.
    rewrite length_replicate. lia.
  - exists fm. split; [reflexivity|]. split; [exact Il|]. split; [exact I0|].
    split; [exact Irec|].
    intros i e He.
    destruct (Iin i) as (e' & He' & Hw).
    + rewrite <- Il. eapply lookup_lt_Some, He.
    + rewrite He in He'. injection He' as <-. exact Hw.
Qed.

Lemma speed_frame_map_within_source_witness :
  exists fm,
    frameMap (seq_effect_speed_rebuild_map unit unit unit
                (fun _ => Some tt) (fun _ _ => 0) (fun _ _ => 3) (fun _ _ => 10)
                (fun _ _ => Some tt) (fun _ _ => F32.of_int 7) tt tt {| frameMap := None |})
    = Some fm /\
    forall i e, fm !! i = Some e -> within F32.zero (F32.of_int 10) e.
Proof.
  destruct (speed_frame_map_within_source unit unit unit
              (fun _ => Some tt) (fun _ _ => 0) (fun _ _ => 3) (fun _ _ => 10)
              (fun _ _ => Some tt) (fun _ _ => F32.of_int 7) tt tt tt tt {| frameMap := None |}
              eq_refl ltac:(vm_compute; discriminate) eq_refl
              ltac:(vm_compute; split; discriminate) ltac:(intros; reflexivity))
    as (fm & Hfm & _ & _ & _ & Hin).
  exists fm. split; assumption.
Defined.

(* ===================================================================== *)
(** ** Gaussian blur of a uniform image *)

Lemma uniform_image_length {A} (n : nat) (col : px A) :
  length (uniform_image n col) = (4 * n)%nat.
Proof. induction n as [|n IH]; simpl; [reflexivity|]. rewrite IH. lia. Qed.




(** The pixels whose window lies inside the image are not exact either:
    with a filter of the constant value 0.1, whose kernel is three equal
    weights, the middle pixel of the same 3x1 image comes out one unit in
    the last place above 0.1. *)
Lemma gaussian_blur_centre_not_exact :
  do_gaussian_blur_effect_float (fun _ => f0_1) {| size_x := F32.one; size_y := F32.zero |}
    3 1 (uniform_image 3 (f0_1, f0_1, f0_1, f0_1)) !! 4%nat
  = Some (S754_finite false 13421774 (-27)).
Proof. vm_compute. reflexivity. Qed.

Lemma land_lnot_land (a b : Z) : Z.land (Z.land a (Z.lnot b)) b = 0.
Proof.
  rewrite <- Z.land_assoc, (Z.land_comm (Z.lnot b) b), Z.land_lnot_diag.
  apply Z.land_0_r.
Qed.

(** X1: every type with a case in the switch of the registry has
    exactly one way to run.  Its handle has [execute] or [execute_slice],
    never both.  Every handle has [execute_slice] exactly when it is
    [multithreaded], and then it has [init_execution] too.  The handle of
    a value with no case in the switch has neither [execute] nor
    [execute_slice]. *)
Theorem handle_has_one_executor (t : seq_type) :
  let h := get_sequence_effect_impl t in
  (t <> SEQ_TYPE_other ->
   non_null (execute h) = negb (non_null (execute_slice h))) /\
  non_null (execute_slice h) = multithreaded h /\
  (non_null (execute_slice h) = true -> non_null (init_execution h) = true) /\
  (t = SEQ_TYPE_other -> execute h = None /\ execute_slice h = None).
Proof.
  destruct t; repeat split; intros; try reflexivity; try discriminate; congruence.
Qed.

(** X2: a handle has no [copy] function exactly when its [free] function
    is [free_noop], and every handle with a [copy] function has an [init]
    function other than [init_noop]. *)
Theorem handle_free_iff_copy (t : seq_type) :
  let h := get_sequence_effect_impl t in
  (copy h = None <-> free h = Fn.free_noop) /\
  (copy h <> None -> init h <> Fn.init_noop).
Proof.
  destruct t; cbn; (split; [split|]); intros; try reflexivity; try discriminate;
    try contradiction.
Qed.

(** X3: the answer of a handle's [early_out] fits the number of inputs of
    its effect: [EARLY_USE_INPUT_2] is answered only by effects with two
    inputs, [EARLY_NO_INPUT] only by effects without inputs, and among the
    effects without inputs only the text effect answers
    [EARLY_USE_INPUT_1]. *)
Theorem early_out_agrees_with_num_inputs
    (SEQ_TEXT_SHADOW : Z) (t : seq_type) (data : effectdata_t) (fac : float)
    (r : early_out_t) :
  call_early_out SEQ_TEXT_SHADOW (early_out (get_sequence_effect_impl t)) data fac = Some r ->
  (r = EARLY_USE_INPUT_2 -> SEQ_effect_get_num_inputs t = 2) /\
  (r = EARLY_NO_INPUT -> SEQ_effect_get_num_inputs t = 0) /\
  (r = EARLY_USE_INPUT_1 -> SEQ_effect_get_num_inputs t = 0 -> t = SEQ_TYPE_TEXT).
Proof.
  intros Hr.
  assert (Hcases :
            (SEQ_effect_get_num_inputs t = 2 /\ r <> EARLY_NO_INPUT) \/
            (SEQ_effect_get_num_inputs t = 1 /\ r <> EARLY_NO_INPUT /\ r <> EARLY_USE_INPUT_2) \/
            (SEQ_effect_get_num_inputs t = 0 /\ r = EARLY_NO_INPUT) \/
            (t = SEQ_TYPE_TEXT /\ r <> EARLY_USE_INPUT_2) \/
            (SEQ_effect_get_num_inputs t = 0 /\ r = EARLY_DO_EFFECT)).
  { destruct t; cbn in Hr;
      unfold early_out_noop, early_out_fade, early_out_mul_input2, early_out_mul_input1,
        early_out_speed, early_out_color, early_out_multicam, early_out_adjustment,
        early_out_gaussian_blur, early_out_text in Hr;
      repeat match type of Hr with
             | context [match ?d with _ => _ end] => destruct d
             end;
      try discriminate Hr; injection Hr as <-;
      first [ left; split; [reflexivity | discriminate]
            | right; left; split; [reflexivity | split; discriminate]
            | right; right; left; split; reflexivity
            | right; right; right; left; split; [reflexivity | discriminate]
            | right; right; right; right; split; reflexivity ]. }
  destruct Hcases as [[Hn Hr1] | [(Hn & Hr1 & Hr2) | [[Hn Hr1] | [[Hn Hr1] | [Hn Hr1]]]]];
    subst; repeat split; intros; try congruence; try reflexivity.
Qed.

(** X4: [SEQ_effect_handle_get] loads the effect data once.  After a call
    a second call leaves the strip as it is; the type of the strip is kept.
    For a strip whose type has the bit [SEQ_TYPE_EFFECT], whether or not
    the switch of the registry has a case for it, the flag
    [SEQ_EFFECT_NOT_LOADED] is clear after the call, and if it was set the
    [load] function of the handle has been run on the effect data.  A
    strip whose type has not the bit, whether or not the switch has a case
    for it, gets the all-null handle and is not written, so that its flag
    stays as it was; a strip whose flag is clear already is not written
    either. *)
Theorem handle_get_loads_once
    (SEQ_EFFECT_NOT_LOADED : Z) (SEQ_effect_text_font_load : TextVars -> TextVars)
    (SEQ_TYPE_EFFECT : Z) (seq_type_of_int : Z -> seq_type)
    (seq : Strip.Sequence) :
  let get :=
    SEQ_effect_handle_get SEQ_EFFECT_NOT_LOADED SEQ_effect_text_font_load
      SEQ_TYPE_EFFECT seq_type_of_int in
  let seq' := snd (get seq) in
  let rval := get_sequence_effect_impl (seq_type_of_int (Strip.type seq)) in
  snd (get seq') = seq' /\
  Strip.type seq' = Strip.type seq /\
  (Z.land (Strip.type seq) SEQ_TYPE_EFFECT <> 0 ->
   fst (get seq) = Some rval /\
   Z.land (Strip.flag seq') SEQ_EFFECT_NOT_LOADED = 0 /\
   (Z.land (Strip.flag seq) SEQ_EFFECT_NOT_LOADED <> 0 ->
    Strip.effectdata seq'
    = call_load SEQ_effect_text_font_load (load rval) (Strip.effectdata seq))) /\
  (Z.land (Strip.type seq) SEQ_TYPE_EFFECT = 0 -> get seq = (None, seq)) /\
  (Z.land (Strip.flag seq) SEQ_EFFECT_NOT_LOADED = 0 -> seq' = seq).
Proof.
  destruct seq as [t fl ed]. cbn zeta. unfold SEQ_effect_handle_get.
  cbn [Strip.type Strip.flag Strip.effectdata].
  destruct (Z.land t SEQ_TYPE_EFFECT =? 0) eqn:Et; cbn [negb].
  - apply Z.eqb_eq in Et. cbn [snd Strip.type]. rewrite (proj2 (Z.eqb_eq _ _) Et).
    cbn [negb snd]. repeat split; auto; intros; congruence.
  - destruct (Z.land fl SEQ_EFFECT_NOT_LOADED =? 0) eqn:En;
      cbn [negb fst snd Strip.type Strip.flag Strip.effectdata].
    + rewrite Et, En. cbn [negb snd]. apply Z.eqb_eq in En. apply Z.eqb_neq in Et.
      repeat split; auto; intros; congruence.
    + rewrite Et, land_lnot_land. cbn [Z.eqb negb snd Strip.flag].
      apply Z.eqb_neq in En. apply Z.eqb_neq in Et.
      repeat split; auto; intros; congruence.
Qed.

(** X5: [seq_effect_get_sequence_blend] returns the handle of the blend
    mode, and the all-null handle for the blend mode 0, which leaves the
    strip as it is.  For any other blend mode the flag
    [SEQ_EFFECT_NOT_LOADED] is clear after the call; a strip whose flag was
    set has had the load function of its own type and then the one of the
    blend mode run on its effect data; a strip whose flag was clear is not
    written, so a second call changes nothing. *)
Theorem sequence_blend_handle
    (SEQ_EFFECT_NOT_LOADED : Z) (SEQ_effect_text_font_load : TextVars -> TextVars)
    (seq : Seq.Sequence) (blend_mode : option seq_type) :
  let blend := seq_effect_get_sequence_blend SEQ_EFFECT_NOT_LOADED SEQ_effect_text_font_load in
  let call_load := call_load SEQ_effect_text_font_load in
  let r := blend seq blend_mode in
  fst r = option_map get_sequence_effect_impl blend_mode /\
  (blend_mode = None -> snd r = seq) /\
  (blend_mode <> None -> Z.land (Seq.flag (snd r)) SEQ_EFFECT_NOT_LOADED = 0) /\
  (Z.land (Seq.flag seq) SEQ_EFFECT_NOT_LOADED = 0 -> snd r = seq) /\
  (forall b, blend_mode = Some b -> Z.land (Seq.flag seq) SEQ_EFFECT_NOT_LOADED <> 0 ->
     Seq.effectdata (snd r)
     = call_load (load (get_sequence_effect_impl b))
         (call_load (load (get_sequence_effect_impl (Seq.type seq))) (Seq.effectdata seq))) /\
  blend (snd r) blend_mode = r.
Proof.
  destruct seq as [t fl ed]. cbn zeta. unfold seq_effect_get_sequence_blend.
  destruct blend_mode as [b|]; cbn [Seq.type Seq.flag Seq.effectdata option_map].
  2: { repeat split; auto; [intros H; contradiction | intros b H; discriminate H]. }
  destruct (Z.land fl SEQ_EFFECT_NOT_LOADED =? 0) eqn:En;
    repeat first [ rewrite En | rewrite land_lnot_land
                 | progress cbn [negb fst snd Z.eqb Seq.type Seq.flag Seq.effectdata] ].
  - apply Z.eqb_eq in En. repeat split; auto.
    intros b' _ Hne. contradiction.
  - apply Z.eqb_neq in En. repeat split; auto.
    + intros H. discriminate H.
    + intros H0. contradiction.
    + intros b' Hb _. injection Hb as <-. reflexivity.
Qed.

Lemma early_out_agrees_with_num_inputs_witness :
  SEQ_effect_get_num_inputs SEQ_TYPE_CROSS = 2.
Proof.
  refine (proj1 (early_out_agrees_with_num_inputs 0 SEQ_TYPE_CROSS effectdata_null F32.one
                   EARLY_USE_INPUT_2 _) _); reflexivity.
Defined.

(** ** Ranges of the byte paths *)

(** [a >> n] of a value between [lo * 2^n] and [hi * 2^n + (2^n - 1)]. *)
Lemma shr_between (a n lo hi : Z) :
  0 <= n -> lo * 2 ^ n <= a -> a < (hi + 1) * 2 ^ n -> lo <= Int.shr a n <= hi.
Proof.
  intros Hn Hlo Hhi. unfold Int.shr. rewrite Z.shiftr_div_pow2 by exact Hn.
  assert (Hp : 0 < 2 ^ n) by (apply Z.pow_pos_nonneg; lia).
  split.
  - apply Z.div_le_lower_bound; lia.
  - apply Z.lt_succ_r, Z.div_lt_upper_bound; lia.
Qed.

Lemma int32_id (z : Z) : - 2 ^ 31 <= z < 2 ^ 31 -> Int.int32 z = z.
Proof. intros Hz. apply int32_small. unfold Int.INT_MIN, Int.INT_MAX. lia. Qed.

(** The fixed-point blend of the byte cross effect lies between its two
    inputs. *)
Lemma cross_byte_blend_between (t a b : Z) :
  0 <= t <= 256 -> byte_channel a -> byte_channel b ->
  Z.min a b
  <= Int.to_uchar (Int.shr (Int.add (Int.mul (Int.sub 256 t) a) (Int.mul t b)) 8)
  <= Z.max a b.
Proof.
  unfold byte_channel. intros Ht Ha Hb.
  unfold Int.sub, Int.mul, Int.add.
  rewrite (int32_id (256 - t)) by lia.
  rewrite (int32_id ((256 - t) * a)) by nia.
  rewrite (int32_id (t * b)) by nia.
  rewrite int32_id by nia.
  assert (Hs : Z.min a b <= Int.shr ((256 - t) * a + t * b) 8 <= Z.max a b).
  { apply shr_between; [lia| |]; change (2 ^ 8) with 256; nia. }
  rewrite to_uchar_small by lia. exact Hs.
Qed.

(** X6: in the byte path of the cross effect, for a factor whose
    fixed-point form [int(256 * fac)] lies within 0..256, every output
    channel lies between the two input channels. *)
Theorem cross_byte_between_inputs
    (fac : float) (x y : Z) (rect1 rect2 out : list Z) (i : nat) :
  0 <= F32.to_int (F32.mul f256 fac) <= 256 ->
  (4 * (Z.to_nat y * Z.to_nat x) <= length out)%nat ->
  (i < 4 * (Z.to_nat y * Z.to_nat x))%nat ->
  byte_channel (rd rect1 i) -> byte_channel (rd rect2 i) ->
  Z.min (rd rect1 i) (rd rect2 i)
  <= rd (do_cross_effect_byte fac x y rect1 rect2 out) i
  <= Z.max (rd rect1 i) (rd rect2 i).
Proof.
  intros Ht Hlen Hi H1 H2. unfold do_cross_effect_byte. cbv zeta.
  rewrite (rd_lookup _ i _
             (pixel_loop_channelwise
                (fun i => Int.to_uchar
                            (Int.shr (Int.add (Int.mul (Int.sub 256 (F32.to_int (F32.mul f256 fac)))
                                                       (rd rect1 i))
                                              (Int.mul (F32.to_int (F32.mul f256 fac))
                                                       (rd rect2 i))) 8))
                x y out i Hlen Hi)).
  apply cross_byte_blend_between; assumption.
Qed.

Lemma cross_byte_between_inputs_witness :
  Z.min 255 0
  <= rd (do_cross_effect_byte f0_25 2 2 red_2x2 blue_2x2 (replicate 16 0)) 0
  <= Z.max 255 0.
Proof.
  apply (cross_byte_between_inputs f0_25 2 2 red_2x2 blue_2x2 (replicate 16 0) 0);
    [ vm_compute; split; discriminate | simpl; lia | simpl; lia
    | unfold byte_channel; simpl; lia | unfold byte_channel; simpl; lia ].
Defined.

(** The color channels of add, subtract and multiply. *)
Lemma add_byte_channel (t a2 c1 c2 : Z) :
  0 <= t <= 256 -> byte_channel a2 -> byte_channel c1 -> byte_channel c2 ->
  c1 <= Int.to_uchar (Z.min (Int.add c1 (Int.shr (Int.mul (Int.mul t a2) c2) 16)) 255) <= 255.
Proof.
  unfold byte_channel. intros Ht Ha Hc1 Hc2.
  unfold Int.mul, Int.add.
  assert (Hp : 0 <= t * a2 <= 65280) by nia.
  rewrite (int32_id (t * a2)) by lia.
  generalize dependent (t * a2). intros p Hp.
  rewrite (int32_id (p * c2)) by nia.
  assert (Hs : 0 <= Int.shr (p * c2) 16 <= 254).
  { apply shr_between; [lia| |]; change (2 ^ 16) with 65536; nia. }
  rewrite int32_id by lia.
  rewrite to_uchar_small by lia. lia.
Qed.

Lemma sub_byte_channel (t a2 c1 c2 : Z) :
  0 <= t <= 256 -> byte_channel a2 -> byte_channel c1 -> byte_channel c2 ->
  0 <= Int.to_uchar (Z.max (Int.sub c1 (Int.shr (Int.mul (Int.mul t a2) c2) 16)) 0) <= c1.
Proof.
  unfold byte_channel. intros Ht Ha Hc1 Hc2.
  unfold Int.mul, Int.sub.
  assert (Hp : 0 <= t * a2 <= 65280) by nia.
  rewrite (int32_id (t * a2)) by lia.
  generalize dependent (t * a2). intros p Hp.
  rewrite (int32_id (p * c2)) by nia.
  assert (Hs : 0 <= Int.shr (p * c2) 16 <= 254).
  { apply shr_between; [lia| |]; change (2 ^ 16) with 65536; nia. }
  rewrite int32_id by lia.
  rewrite to_uchar_small by lia. lia.
Qed.

Lemma mul_byte_channel (t c1 c2 : Z) :
  0 <= t <= 256 -> byte_channel c1 -> byte_channel c2 ->
  0 <= Int.to_uchar (Int.add c1 (Int.shr (Int.mul (Int.mul t c1) (Int.sub c2 255)) 16)) <= c1.
Proof.
  unfold byte_channel. intros Ht Hc1 Hc2.
  unfold Int.mul, Int.sub, Int.add.
  assert (Hp : 0 <= t * c1 <= 256 * c1) by nia.
  rewrite (int32_id (t * c1)) by lia.
  rewrite (int32_id (c2 - 255)) by lia.
  generalize dependent (t * c1). intros p Hp.
  rewrite (int32_id (p * (c2 - 255))) by nia.
  assert (Hs : - c1 <= Int.shr (p * (c2 - 255)) 16 <= 0).
  { apply shr_between; [lia| |]; change (2 ^ 16) with 65536; nia. }
  rewrite int32_id by lia.
  rewrite to_uchar_small by lia. lia.
Qed.

(** Rewrites the reading of one channel of a result pixel of an effect
    whose body is a single [store4]. *)
Ltac rewrite_pixel :=
  erewrite pixel_loop_body_store4
    by first [ intros; cbv zeta; reflexivity | lia ].

(** X7: the color channels of the byte paths of the add, subtract and
    multiply effects, for a factor whose fixed-point form [int(256 * fac)]
    lies within 0..256 and with [min_ii] and [max_ii] the minimum and the
    maximum.  The add effect never darkens input 1 and stays at most 255;
    the subtract and the multiply effect never brighten input 1 and stay
    at least 0. *)
Theorem add_sub_mul_byte_ranges
    (min_ii max_ii : Z -> Z -> Z)
    (fac : float) (x y : Z) (rect1 rect2 out : list Z) (k c : nat) :
  (forall a b, min_ii a b = Z.min a b) ->
  (forall a b, max_ii a b = Z.max a b) ->
  0 <= F32.to_int (F32.mul f256 fac) <= 256 ->
  (4 * (Z.to_nat y * Z.to_nat x) <= length out)%nat ->
  (k < Z.to_nat y * Z.to_nat x)%nat -> (c < 3)%nat ->
  byte_channel (rd rect1 (4 * k + c)) ->
  byte_channel (rd rect2 (4 * k + c)) ->
  byte_channel (rd rect2 (4 * k + 3)) ->
  let i := (4 * k + c)%nat in
  rd rect1 i <= rd (do_add_effect_byte min_ii fac x y rect1 rect2 out) i <= 255 /\
  0 <= rd (do_sub_effect_byte max_ii fac x y rect1 rect2 out) i <= rd rect1 i /\
  0 <= rd (do_mul_effect_byte fac x y rect1 rect2 out) i <= rd rect1 i.
Proof.
  intros Hmin Hmax Ht Hlen Hk Hc H1 H2 Ha i. subst i.
  unfold do_add_effect_byte, do_sub_effect_byte, do_mul_effect_byte.
  split; [|split].
  - rewrite_pixel.
    destruct c as [|[|[|c]]]; try lia; cbn [chan]; rewrite Hmin;
      apply add_byte_channel; assumption.
  - rewrite_pixel.
    destruct c as [|[|[|c]]]; try lia; cbn [chan]; rewrite Hmax;
      apply sub_byte_channel; assumption.
  - rewrite_pixel.
    destruct c as [|[|[|c]]]; try lia; cbn [chan];
      apply mul_byte_channel; assumption.
Qed.

Lemma add_sub_mul_byte_ranges_witness :
  10 <= rd (do_add_effect_byte Z.min f0_25 1 1 [10; 20; 30; 40] [50; 60; 70; 80] [0; 0; 0; 0]) 0
     <= 255.
Proof.
  apply (add_sub_mul_byte_ranges Z.min Z.max f0_25 1 1
           [10; 20; 30; 40] [50; 60; 70; 80] [0; 0; 0; 0] 0 0);
    [ reflexivity | reflexivity | vm_compute; split; discriminate
    | simpl; lia | simpl; lia | lia
    | unfold byte_channel; simpl; lia | unfold byte_channel; simpl; lia
    | unfold byte_channel; simpl; lia ].
Defined.

(** ** Alpha under *)

(** No number is both at most 0 and at least 1. *)
Lemma leb_zero_not_geb_one (a : float) :
  F32.leb a F32.zero = true -> F32.geb a F32.one = false.
Proof.
  destruct a as [s|s| |s m e]; try destruct s; intros H; try discriminate H; reflexivity.
Qed.

Lemma eqb_zero_not_geb_one (a : float) :
  F32.eqb a F32.zero = true -> F32.geb a F32.one = false.
Proof.
  destruct a as [s|s| |s m e]; try destruct s; intros H; try discriminate H; reflexivity.
Qed.

Lemma rd_chan_load4 {A} `{Inhabited A} (b : list A) (p c : nat) :
  (c < 4)%nat -> rd b (p + c) = chan c (load4 b p).
Proof.
  intros Hc. unfold load4, chan.
  destruct c as [|[|[|[|c]]]]; try lia; try reflexivity.
  rewrite Nat.add_0_r. reflexivity.
Qed.

(** One result pixel of the byte path. *)
Lemma alphaunder_byte_pixel
    (straight_uchar_to_premul_float : px Z -> px float)
    (premul_float_to_straight_uchar : px float -> px Z)
    (fac : float) (x y : Z) (k : nat) (rect1 rect2 out : list Z) :
  (4 * (Z.to_nat y * Z.to_nat x) <= length out)%nat ->
  (k < Z.to_nat y * Z.to_nat x)%nat ->
  let p := (4 * k)%nat in
  let rt1 := straight_uchar_to_premul_float (load4 rect1 p) in
  let rt2 := straight_uchar_to_premul_float (load4 rect2 p) in
  load4 (do_alphaunder_effect_byte straight_uchar_to_premul_float
           premul_float_to_straight_uchar fac x y rect1 rect2 out) p
  = if F32.leb (chan 3 rt2) F32.zero && F32.geb fac F32.one then load4 rect1 p
    else if F32.geb (chan 3 rt2) F32.one then load4 rect2 p
    else if F32.leb fac F32.zero then load4 rect2 p
    else
      let temp_fac := F32.mul fac (F32.sub F32.one (chan 3 rt2)) in
      premul_float_to_straight_uchar
        (F32.add (F32.mul temp_fac (chan 0 rt1)) (chan 0 rt2),
         F32.add (F32.mul temp_fac (chan 1 rt1)) (chan 1 rt2),
         F32.add (F32.mul temp_fac (chan 2 rt1)) (chan 2 rt2),
         F32.add (F32.mul temp_fac (chan 3 rt1)) (chan 3 rt2)).
Proof.
  intros Hlen Hk p. subst p. unfold do_alphaunder_effect_byte.
  change (F32.of_int 0) with F32.zero.
  apply (pixel_loop_body_load4 _
           (fun p =>
              let rt1 := straight_uchar_to_premul_float (load4 rect1 p) in
              let rt2 := straight_uchar_to_premul_float (load4 rect2 p) in
              if F32.leb (chan 3 rt2) F32.zero && F32.geb fac F32.one then load4 rect1 p
              else if F32.geb (chan 3 rt2) F32.one then load4 rect2 p
              else if F32.leb fac F32.zero then load4 rect2 p
              else
                let temp_fac := F32.mul fac (F32.sub F32.one (chan 3 rt2)) in
                premul_float_to_straight_uchar
                  (F32.add (F32.mul temp_fac (chan 0 rt1)) (chan 0 rt2),
                   F32.add (F32.mul temp_fac (chan 1 rt1)) (chan 1 rt2),
                   F32.add (F32.mul temp_fac (chan 2 rt1)) (chan 2 rt2),
                   F32.add (F32.mul temp_fac (chan 3 rt1)) (chan 3 rt2))));
    [|lia|lia].
  intros p rt. cbv zeta.
  destruct (_ && _); [reflexivity|].
  destruct (F32.geb _ F32.one); [reflexivity|].
  destruct (F32.leb fac F32.zero); reflexivity.
Qed.

(** One result pixel of the float path. *)
Lemma alphaunder_float_pixel
    (fac : float) (x y : Z) (k : nat) (rect1 rect2 out : list float) :
  (4 * (Z.to_nat y * Z.to_nat x) <= length out)%nat ->
  (k < Z.to_nat y * Z.to_nat x)%nat ->
  let p := (4 * k)%nat in
  let a2 := rd rect2 (p + 3) in
  load4 (do_alphaunder_effect_float fac x y rect1 rect2 out) p
  = if F32.leb a2 F32.zero && F32.geb fac F32.one then load4 rect1 p
    else if F32.geb a2 F32.one then load4 rect2 p
    else if F32.eqb fac F32.zero then load4 rect2 p
    else
      let temp_fac := F32.mul fac (F32.sub F32.one a2) in
      (F32.add (F32.mul temp_fac (rd rect1 (p + 0))) (rd rect2 (p + 0)),
       F32.add (F32.mul temp_fac (rd rect1 (p + 1))) (rd rect2 (p + 1)),
       F32.add (F32.mul temp_fac (rd rect1 (p + 2))) (rd rect2 (p + 2)),
       F32.add (F32.mul temp_fac (rd rect1 (p + 3))) (rd rect2 (p + 3)))%nat.
Proof.
  intros Hlen Hk p. subst p. unfold do_alphaunder_effect_float.
  change (F32.of_int 0) with F32.zero.
  apply (pixel_loop_body_load4 _
           (fun p =>
              let a2 := rd rect2 (p + 3) in
              if F32.leb a2 F32.zero && F32.geb fac F32.one then load4 rect1 p
              else if F32.geb a2 F32.one then load4 rect2 p
              else if F32.eqb fac F32.zero then load4 rect2 p
              else
                let temp_fac := F32.mul fac (F32.sub F32.one a2) in
                (F32.add (F32.mul temp_fac (rd rect1 (p + 0))) (rd rect2 (p + 0)),
                 F32.add (F32.mul temp_fac (rd rect1 (p + 1))) (rd rect2 (p + 1)),
                 F32.add (F32.mul temp_fac (rd rect1 (p + 2))) (rd rect2 (p + 2)),
                 F32.add (F32.mul temp_fac (rd rect1 (p + 3))) (rd rect2 (p + 3)))%nat));
    [|lia|lia].
  intros p rt. cbv zeta.
  destruct (_ && _); [reflexivity|].
  destruct (F32.geb _ F32.one); [reflexivity|].
  destruct (F32.eqb fac F32.zero); reflexivity.
Qed.

(** X8: the pixels that the alpha under effect copies.  At the factor 0
    (in the byte path: at any factor that is not above 0) the output pixel
    is the pixel of input 2; so it is where the pixel of input 2 is opaque
    (alpha at least 1).  Where the pixel of input 2 is transparent (alpha
    at most 0) and the factor is at least 1 the output pixel is the pixel
    of input 1.  Every other pixel of the float path is
    [fac * (1 - alpha2) * in1 + in2] in each channel. *)
Theorem alphaunder_verbatim_pixels
    (straight_uchar_to_premul_float : px Z -> px float)
    (premul_float_to_straight_uchar : px float -> px Z)
    (fac : float) (x y : Z) (k : nat)
    (rect1 rect2 out : list Z) (frect1 frect2 fout : list float) :
  let n := (4 * (Z.to_nat y * Z.to_nat x))%nat in
  (k < Z.to_nat y * Z.to_nat x)%nat ->
  (n <= length out)%nat -> (n <= length fout)%nat ->
  let p := (4 * k)%nat in
  let res := do_alphaunder_effect_byte straight_uchar_to_premul_float
               premul_float_to_straight_uchar fac x y rect1 rect2 out in
  let fres := do_alphaunder_effect_float fac x y frect1 frect2 fout in
  let a2 := chan 3 (straight_uchar_to_premul_float (load4 rect2 p)) in
  let fa2 := rd frect2 (p + 3) in
  (* the factor 0 gives input 2 *)
  (F32.leb fac F32.zero = true -> load4 res p = load4 rect2 p) /\
  (F32.eqb fac F32.zero = true -> load4 fres p = load4 frect2 p) /\
  (* an opaque pixel of input 2 is kept *)
  (F32.geb a2 F32.one = true -> load4 res p = load4 rect2 p) /\
  (F32.geb fa2 F32.one = true -> load4 fres p = load4 frect2 p) /\
  (* a transparent pixel of input 2 shows input 1 at the factor 1 *)
  (F32.leb a2 F32.zero = true -> F32.geb fac F32.one = true ->
   load4 res p = load4 rect1 p) /\
  (F32.leb fa2 F32.zero = true -> F32.geb fac F32.one = true ->
   load4 fres p = load4 frect1 p) /\
  (* every other pixel of the float path is input 1 under input 2 *)
  (F32.geb fa2 F32.one = false -> F32.eqb fac F32.zero = false ->
   F32.leb fa2 F32.zero && F32.geb fac F32.one = false ->
   forall c, (c < 4)%nat ->
     rd fres (p + c)
     = F32.add (F32.mul (F32.mul fac (F32.sub F32.one fa2)) (rd frect1 (p + c)))
               (rd frect2 (p + c))).
Proof.
  intros n Hk Hout Hfout p res fres a2 fa2. subst n res fres.
  pose proof (alphaunder_byte_pixel straight_uchar_to_premul_float
                premul_float_to_straight_uchar fac x y k rect1 rect2 out Hout Hk) as Hb.
  pose proof (alphaunder_float_pixel fac x y k frect1 frect2 fout Hfout Hk) as Hf.
  cbv zeta in Hb, Hf. fold p in Hb, Hf. fold a2 in Hb. fold fa2 in Hf.
  repeat split.
  - intros Hfac. rewrite Hb.
    rewrite (leb_zero_not_geb_one fac Hfac), andb_false_r, Hfac.
    destruct (F32.geb a2 F32.one); reflexivity.
  - intros Hfac. rewrite Hf.
    rewrite (eqb_zero_not_geb_one fac Hfac), andb_false_r, Hfac.
    destruct (F32.geb fa2 F32.one); reflexivity.
  - intros Ha. rewrite Hb, Ha.
    destruct (F32.leb a2 F32.zero) eqn:E; [|reflexivity].
    rewrite (leb_zero_not_geb_one a2 E) in Ha. discriminate Ha.
  - intros Ha. rewrite Hf, Ha.
    destruct (F32.leb fa2 F32.zero) eqn:E; [|reflexivity].
    rewrite (leb_zero_not_geb_one fa2 E) in Ha. discriminate Ha.
  - intros Ha Hfac. rewrite Hb, Ha, Hfac. reflexivity.
  - intros Ha Hfac. rewrite Hf, Ha, Hfac. reflexivity.
  - intros Ha Hfac Hboth c Hc.
    rewrite (rd_chan_load4 _ p c Hc), Hf, Ha, Hfac, Hboth.
    destruct c as [|[|[|[|c]]]]; try lia; reflexivity.
Qed.

Lemma alphaunder_verbatim_pixels_witness :
  load4 (do_alphaunder_effect_float F32.zero 1 1
           [f0_5; f0_5; f0_5; f0_5] [F32.zero; f0_5; F32.one; f0_5]
           (replicate 4 F32.zero)) 0
  = (F32.zero, f0_5, F32.one, f0_5).
Proof.
  apply (proj1 (proj2 (alphaunder_verbatim_pixels
                  (fun _ => (F32.zero, F32.zero, F32.zero, F32.zero))
                  (fun _ => (0, 0, 0, 0)) F32.zero 1 1 0
                  [0; 0; 0; 0] [0; 0; 0; 0] [0; 0; 0; 0]
                  [f0_5; f0_5; f0_5; f0_5] [F32.zero; f0_5; F32.one; f0_5]
                  (replicate 4 F32.zero)
                  ltac:(simpl; lia) ltac:(simpl; lia) ltac:(simpl; lia)))).
  reflexivity.
Defined.

(** ** The drop effect *)

Lemma memcpy_spec {A} `{Inhabited A} (dst src : list A) (d s n : Z) :
  0 <= d -> 0 <= n -> d + n <= Z.of_nat (length dst) ->
  length (memcpy dst d src s n) = length dst /\
  (forall i : nat, d <= Z.of_nat i < d + n ->
     memcpy dst d src s n !! i = Some (rd src (Z.to_nat (s + (Z.of_nat i - d))))) /\
  (forall i : nat, Z.of_nat i < d \/ d + n <= Z.of_nat i ->
     memcpy dst d src s n !! i = dst !! i).
Proof.
  intros Hd Hn Hlen. unfold memcpy.
  apply (for_range_inv
           (fun k m =>
              length m = length dst /\
              (forall i : nat, d <= Z.of_nat i < d + k ->
                 m !! i = Some (rd src (Z.to_nat (s + (Z.of_nat i - d))))) /\
              (forall i : nat, Z.of_nat i < d \/ d + k <= Z.of_nat i ->
                 m !! i = dst !! i))); [exact Hn| |].
  - split; [reflexivity|]. split; [intros i Hi; lia | reflexivity].
  - intros k m Hk (Hl & Hin & Hout). split; [rewrite length_insert; exact Hl|]. split.
    + intros i Hi. destruct (decide (i = Z.to_nat (d + k))) as [->|Hne].
      * rewrite list_lookup_insert_eq by lia. do 3 f_equal. lia.
      * rewrite list_lookup_insert_ne by lia. apply Hin. lia.
    + intros i Hi. rewrite list_lookup_insert_ne by lia. apply Hout. lia.
Qed.

Section DropFacts.

Context {A : Type} `{Inhabited A}.
Variable min_ii : Z -> Z -> Z.
Variable shade : A -> A -> A.
Variables (x y : Z) (rect2i rect1i outi : list A).

Hypothesis min_ii_min : forall a b, min_ii a b = Z.min a b.
Hypothesis x_range : 0 <= x.
Hypothesis y_range : 0 <= y <= Int.INT_MAX.
Hypothesis size_range : 4 * x * y <= Int.INT_MAX.
Hypothesis out_length : 4 * x * y <= Z.of_nat (length outi).

Local Abbreviation xoff := (Z.min XOFF x).
Local Abbreviation yoff := (Z.min YOFF y).

(** The offset of channel [c] of the pixel in row [r] and column [j]. *)
Local Abbreviation at_ r j c := (Z.to_nat (4 * (r * x + j) + c)).

(** What the drop effect leaves in channel [c] of the pixel in row [r]
    and column [j]. *)
Local Abbreviation drop_value r j c :=
  (if (r <? y - yoff) && (xoff <=? j)
   then shade (rd rect2i (at_ (r + yoff) (j - xoff) 3)) (rd rect1i (at_ r j c))
   else rd rect1i (at_ r j c)).

Lemma at_before_row (r j c i : Z) :
  0 <= r < i -> 0 <= j < x -> 0 <= c < 4 -> 4 * (r * x + j) + c < 4 * x * i.
Proof. intros Hr Hj Hc. nia. Qed.

Lemma at_in_image (r j c : Z) :
  0 <= r < y -> 0 <= j < x -> 0 <= c < 4 -> 0 <= 4 * (r * x + j) + c < 4 * x * y.
Proof. intros Hr Hj Hc. split; [nia|]. apply at_before_row; lia. Qed.

Lemma Z4_cases (c : Z) : 0 <= c < 4 -> c = 0 \/ c = 1 \/ c = 2 \/ c = 3.
Proof. lia. Qed.

Lemma drop_loops_spec :
  let res := drop_loops min_ii shade x y rect2i rect1i outi in
  length res = length outi /\
  (forall r j c, 0 <= r < y -> 0 <= j < x -> 0 <= c < 4 ->
     res !! at_ r j c = Some (drop_value r j c)) /\
  (forall i : nat, 4 * x * y <= Z.of_nat i -> res !! i = outi !! i).
Proof.
  unfold drop_loops. rewrite !min_ii_min.
  assert (Hxoff : 0 <= xoff <= x) by (unfold XOFF; lia).
  assert (Hyoff : 0 <= yoff <= y) by (unfold YOFF; lia).
  assert (Hyoff8 : yoff <= 8) by (unfold YOFF; lia).
  unfold Int.INT_MAX in *.
  assert (Hsub : Int.sub y yoff = y - yoff).
  { unfold Int.sub. apply int32_id. lia. }
  assert (Hmul : Int.mul (Int.mul yoff 4) x = 4 * x * yoff).
  { unfold Int.mul. rewrite (int32_id (yoff * 4)) by lia.
    rewrite int32_id by nia. ring. }
  rewrite Hsub, Hmul.
  set (P := fun (i : Z) (st : Z * Z * Z * list A) =>
              let '(rt2, rt1, out, mem) := st in
              rt2 = 4 * x * (yoff + i) /\ rt1 = 4 * x * i /\ out = 4 * x * i /\
              length mem = length outi /\
              (forall r j c, 0 <= r < i -> 0 <= j < x -> 0 <= c < 4 ->
                 mem !! at_ r j c = Some (drop_value r j c)) /\
              (forall idx : nat, 4 * x * i <= Z.of_nat idx -> mem !! idx = outi !! idx)).
  match goal with
  | |- context [for_range 0 (y - yoff) ?body ?init] =>
    pose proof (for_range_inv P body 0 (y - yoff) init) as Houter
  end.
  destruct (for_range 0 (y - yoff) _ _) as [[[rt2 rt1] out] mem].
  destruct Houter as (-> & -> & -> & Hl & Hrows & Hrest).
  - lia.
  - (* before the first row *)
    unfold P. repeat split; try ring. 
    + intros r j c Hr. lia.
  - (* one row *)
    clear rt2 rt1 out mem.
    intros i [[[rt2 rt1] out] mem] Hi (-> & -> & -> & Hl & Hrows & Hrest).
    destruct (memcpy_spec mem rect1i (4 * x * i) (4 * x * i) (xoff * 4))
      as (Hl1 & Hcp & Hkeep); [nia | lia | nia |].
    set (mem1 := memcpy mem (4 * x * i) rect1i (4 * x * i) (xoff * 4)) in *.
    set (Q := fun (j : Z) (st : Z * Z * Z * list A) =>
                let '(rt2, rt1, out, mem) := st in
                rt2 = 4 * x * (yoff + i) + 4 * (j - xoff) /\
                rt1 = 4 * (x * i + j) /\ out = 4 * (x * i + j) /\
                length mem = length outi /\
                (forall r j c, 0 <= r < i -> 0 <= j < x -> 0 <= c < 4 ->
                   mem !! at_ r j c = Some (drop_value r j c)) /\
                (forall j' c, 0 <= j' < j -> 0 <= c < 4 ->
                   mem !! at_ i j' c = Some (drop_value i j' c)) /\
                (forall idx : nat, 4 * (x * i + j) <= Z.of_nat idx ->
                   mem !! idx = outi !! idx)).
    match goal with
    | |- context [for_range xoff x ?body ?init] =>
      pose proof (for_range_inv Q body xoff x init) as Hinner
    end.
    destruct (for_range xoff x _ _) as [[[rt2' rt1'] out'] mem'].
    destruct Hinner as (-> & -> & -> & Hl' & Hrows' & Hrow & Hrest').
    + lia.
    + (* before the first shaded pixel *)
      unfold Q. split; [ring|]. split; [ring|]. split; [ring|].
      split; [congruence|]. split; [|split].
      * intros r j c Hr Hj Hc.
        pose proof (at_before_row r j c i Hr Hj Hc).
        rewrite Hkeep by lia. apply Hrows; assumption.
      * intros j' c Hj' Hc. rewrite Hcp by nia.
        replace (xoff <=? j') with false by (symmetry; apply Z.leb_gt; lia).
        rewrite andb_false_r. do 3 f_equal. lia.
      * intros idx Hidx. rewrite Hkeep by lia. apply Hrest. nia.
    + (* one shaded pixel *)
      clear rt2' rt1' out' mem'.
      intros j [[[rt2' rt1'] out'] mem'] Hj (-> & -> & -> & Hl' & Hrows' & Hrow & Hrest').
      unfold Q. split; [ring|]. split; [ring|]. split; [ring|].
      split; [rewrite store4_length; exact Hl'|].
      pose proof (at_in_image i j 3 ltac:(lia) ltac:(lia) ltac:(lia)) as Hin.
      split; [|split].
      * intros r j' c Hr Hj' Hc.
        pose proof (at_before_row r j' c i Hr Hj' Hc).
        rewrite store4_lookup_other by nia. apply Hrows'; assumption.
      * intros j' c Hj' Hc.
        destruct (decide (j' = j)) as [->|Hne].
        -- replace (at_ i j c) with (Z.to_nat (4 * (x * i + j)) + Z.to_nat c)%nat by lia.
           rewrite store4_lookup by lia. f_equal.
           replace (i <? y - yoff) with true by (symmetry; apply Z.ltb_lt; lia).
           replace (xoff <=? j) with true by (symmetry; apply Z.leb_le; lia).
           cbn [andb].
           replace (Z.to_nat (4 * x * (yoff + i) + 4 * (j - xoff) + 3))
             with (at_ (i + yoff) (j - xoff) 3) by lia.
           destruct (Z4_cases c Hc) as [-> | [-> | [-> | ->]]]; cbn [Z.to_nat chan];
             do 2 f_equal; lia.
        -- rewrite store4_lookup_other by nia. apply Hrow; lia.
      * intros idx Hidx. rewrite store4_lookup_other by lia. apply Hrest'. lia.
    + (* the end of the row *)
      unfold P. split; [ring|]. split; [ring|]. split; [ring|].
      split; [exact Hl'|]. split.
      * intros r j c Hr Hj Hc. destruct (decide (r = i)) as [->|Hne].
        -- apply Hrow; assumption.
        -- apply Hrows'; [lia|assumption|assumption].
      * intros idx Hidx. apply Hrest'. lia.
  - (* the rows copied at the end *)
    destruct (memcpy_spec mem rect1i (4 * x * (y - yoff)) (4 * x * (y - yoff)) (yoff * 4 * x))
      as (Hlf & Hcp & Hkeep); [nia | nia | nia |].
    cbv zeta. split; [congruence|]. split.
    + intros r j c Hr Hj Hc.
      pose proof (at_in_image r j c Hr Hj Hc) as Hin.
      destruct (Z_lt_le_dec r (y - yoff)) as [Hlt|Hge].
      * pose proof (at_before_row r j c (y - yoff) ltac:(lia) Hj Hc).
        rewrite Hkeep by lia. apply Hrows; [lia|assumption|assumption].
      * rewrite Hcp by nia.
        replace (r <? y - yoff) with false by (symmetry; apply Z.ltb_ge; lia).
        cbn [andb]. do 3 f_equal. lia.
    + intros idx Hidx. rewrite Hkeep by nia. apply Hrest. nia.
Qed.

End DropFacts.

Lemma pixel_loop_body_outside {A} (body : nat -> list A -> list A)
    (f : nat -> px A) (x y : Z) (b : list A) (i : nat) :
  (forall p rt, body p rt = store4 p (f p) rt) ->
  (4 * (Z.to_nat y * Z.to_nat x) <= length b)%nat ->
  (4 * (Z.to_nat y * Z.to_nat x) <= i)%nat ->
  pixel_loop x y body b !! i = b !! i.
Proof.
  intros Hbody Hlen Hi.
  rewrite pixel_loop_steps, (pixel_steps_ext _ _ Hbody).
  destruct (pixel_steps_store4 f (Z.to_nat y * Z.to_nat x) 0 b) as (_ & _ & Hout); [lia|].
  apply Hout. lia.
Qed.

(** A per-pixel effect overwrites every pixel it visits: what the output
    buffer held there before does not matter. *)
Lemma pixel_loop_body_overwrites {A} (body : nat -> list A -> list A)
    (f : nat -> px A) (x y : Z) (b b' : list A) :
  (forall p rt, body p rt = store4 p (f p) rt) ->
  length b' = length b ->
  (4 * (Z.to_nat y * Z.to_nat x) <= length b)%nat ->
  (forall i, (4 * (Z.to_nat y * Z.to_nat x) <= i)%nat -> b' !! i = b !! i) ->
  pixel_loop x y body b' = pixel_loop x y body b.
Proof.
  intros Hbody Hl Hlen Hrest. apply list_eq. intros i.
  destruct (Nat.lt_ge_cases i (4 * (Z.to_nat y * Z.to_nat x))) as [Hi|Hi].
  - rewrite !(pixel_loop_body_lookup _ f) by (assumption || lia). reflexivity.
  - rewrite !(pixel_loop_body_outside _ f) by (assumption || lia). apply Hrest, Hi.
Qed.

Lemma alphaover_byte_body
    (straight_uchar_to_premul_float : px Z -> px float)
    (premul_float_to_straight_uchar : px float -> px Z)
    (fac : float) (rect1 rect2 : list Z) (p : nat) (rt : list Z) :
  (let cp1 := load4 rect1 p in
   let cp2 := load4 rect2 p in
   let rt1 := straight_uchar_to_premul_float cp1 in
   let rt2 := straight_uchar_to_premul_float cp2 in
   let mfac := F32.sub F32.one (F32.mul fac (chan 3 rt1)) in
   if F32.leb fac F32.zero then store4 p cp2 rt
   else if F32.leb mfac F32.zero then store4 p cp1 rt
   else
     let ch c := F32.add (F32.mul fac (chan c rt1)) (F32.mul mfac (chan c rt2)) in
     store4 p (premul_float_to_straight_uchar (ch 0, ch 1, ch 2, ch 3)%nat) rt)
  = store4 p (alphaover_rule premul_float_to_straight_uchar fac
                (straight_uchar_to_premul_float (load4 rect1 p))
                (straight_uchar_to_premul_float (load4 rect2 p))
                (load4 rect1 p) (load4 rect2 p)) rt.
Proof.
  unfold alphaover_rule. cbv zeta.
  destruct (F32.leb fac F32.zero); [reflexivity|].
  destruct (F32.leb _ F32.zero); reflexivity.
Qed.

Lemma alphaover_float_body (fac : float) (rect1 rect2 : list float) (p : nat)
    (rt : list float) :
  (let mfac := F32.sub F32.one (F32.mul fac (rd rect1 (p + 3))) in
   if F32.leb fac F32.zero then store4 p (load4 rect2 p) rt
   else if F32.leb mfac F32.zero then store4 p (load4 rect1 p) rt
   else
     let ch c :=
       F32.add (F32.mul fac (rd rect1 (p + c))) (F32.mul mfac (rd rect2 (p + c))) in
     store4 p (ch 0, ch 1, ch 2, ch 3)%nat rt)
  = store4 p (alphaover_rule (fun blend => blend) fac
                (load4 rect1 p) (load4 rect2 p) (load4 rect1 p) (load4 rect2 p)) rt.
Proof.
  unfold alphaover_rule, load4, chan. cbv zeta. rewrite !Nat.add_0_r.
  destruct (F32.leb fac F32.zero); [reflexivity|].
  destruct (F32.leb _ F32.zero); reflexivity.
Qed.

(** The alpha over effect into a buffer that the drop effect wrote
    before. *)
Lemma alphaover_after_drop_float (min_ii : Z -> Z -> Z) (fac : float) (x y : Z)
    (rect1 rect2 rect_out : list float) :
  (forall a b, min_ii a b = Z.min a b) ->
  0 <= x -> 0 <= y <= Int.INT_MAX -> 4 * x * y <= Int.INT_MAX ->
  4 * x * y <= Z.of_nat (length rect_out) ->
  do_alphaover_effect_float fac x y rect1 rect2
    (do_drop_effect_float min_ii fac x y rect1 rect2 rect_out)
  = do_alphaover_effect_float fac x y rect1 rect2 rect_out.
Proof.
  intros Hmin Hx Hy Hsize Hlen.
  unfold do_drop_effect_float. cbv zeta.
  match goal with
  | |- context [drop_loops min_ii ?shade x y rect1 rect2 rect_out] =>
    destruct (drop_loops_spec min_ii shade x y rect1 rect2 rect_out Hmin Hx Hy Hsize Hlen)
      as (Hl & _ & Hrest)
  end.
  unfold do_alphaover_effect_float.
  eapply pixel_loop_body_overwrites.
  - intros p rt. apply alphaover_float_body.
  - exact Hl.
  - nia.
  - intros i Hi. apply Hrest. nia.
Qed.

Lemma alphaover_after_drop_byte (min_ii : Z -> Z -> Z)
    (straight_uchar_to_premul_float : px Z -> px float)
    (premul_float_to_straight_uchar : px float -> px Z)
    (fac : float) (x y : Z) (rect1 rect2 rect_out : list Z) :
  (forall a b, min_ii a b = Z.min a b) ->
  0 <= x -> 0 <= y <= Int.INT_MAX -> 4 * x * y <= Int.INT_MAX ->
  4 * x * y <= Z.of_nat (length rect_out) ->
  do_alphaover_effect_byte straight_uchar_to_premul_float premul_float_to_straight_uchar
    fac x y rect1 rect2
    (do_drop_effect_byte min_ii fac x y rect1 rect2 rect_out)
  = do_alphaover_effect_byte straight_uchar_to_premul_float premul_float_to_straight_uchar
      fac x y rect1 rect2 rect_out.
Proof.
  intros Hmin Hx Hy Hsize Hlen.
  unfold do_drop_effect_byte. cbv zeta.
  match goal with
  | |- context [drop_loops min_ii ?shade x y rect1 rect2 rect_out] =>
    destruct (drop_loops_spec min_ii shade x y rect1 rect2 rect_out Hmin Hx Hy Hsize Hlen)
      as (Hl & _ & Hrest)
  end.
  unfold do_alphaover_effect_byte.
  eapply pixel_loop_body_overwrites.
  - intros p rt. apply alphaover_byte_body.
  - exact Hl.
  - nia.
  - intros i Hi. apply Hrest. nia.
Qed.

(** X9: the over-drop effect gives what the alpha over effect gives: the
    alpha over pass overwrites every pixel of the slice that the drop pass
    wrote before it. *)
Theorem overdrop_is_alphaover
    (min_ii : Z -> Z -> Z)
    (straight_uchar_to_premul_float : px Z -> px float)
    (premul_float_to_straight_uchar : px float -> px Z)
    (rectx : Z) (fac : float) (ibuf1 : ImBuf) (ibuf2 : option ImBuf)
    (start_line total_lines : Z) (out : ImBuf) :
  (forall a b, min_ii a b = Z.min a b) ->
  0 <= rectx -> 0 <= total_lines <= Int.INT_MAX ->
  4 * rectx * total_lines <= Int.INT_MAX ->
  slice_fits rectx start_line total_lines out ->
  do_overdrop_effect min_ii straight_uchar_to_premul_float premul_float_to_straight_uchar
    rectx fac ibuf1 ibuf2 start_line total_lines out
  = do_alphaover_effect straight_uchar_to_premul_float premul_float_to_straight_uchar
      rectx fac ibuf1 ibuf2 start_line total_lines out.
Proof.
  intros Hmin Hx Hy Hsize (Hoff & Hfloat & Hbyte).
  unfold do_overdrop_effect, do_alphaover_effect, run_slice,
    slice_get_float_buffers, slice_get_byte_buffers.
  cbv zeta in Hoff, Hfloat, Hbyte.
  set (offset := Int.mul (Int.mul 4 start_line) rectx) in *.
  destruct (float_buffer out) as [fout|] eqn:Efout.
  - specialize (Hfloat fout eq_refl).
    destruct (float_buffer ibuf1) as [f1|]; [|reflexivity].
    destruct ibuf2 as [ibuf2|]; [|reflexivity]. cbn [mbind option_bind option_map].
    destruct (float_buffer ibuf2) as [f2|]; [|reflexivity]. cbn [option_map].
    do 3 f_equal. apply alphaover_after_drop_float; try assumption.
    unfold cells. cbn [ptr_base ptr_offset]. rewrite length_drop. lia.
  - destruct (byte_buffer out) as [bout|] eqn:Ebout; [|reflexivity].
    specialize (Hbyte bout eq_refl).
    destruct (byte_buffer ibuf1) as [b1|]; [|reflexivity].
    destruct ibuf2 as [ibuf2|]; [|reflexivity]. cbn [mbind option_bind option_map].
    destruct (byte_buffer ibuf2) as [b2|]; [|reflexivity]. cbn [option_map].
    do 3 f_equal. apply alphaover_after_drop_byte; try assumption.
    unfold cells. cbn [ptr_base ptr_offset]. rewrite length_drop. lia.
Qed.

Lemma overdrop_is_alphaover_witness :
  let ibuf1 := {| byte_buffer := Some [10; 20; 30; 255]; float_buffer := None |} in
  let ibuf2 := {| byte_buffer := Some [90; 80; 70; 128]; float_buffer := None |} in
  let out := {| byte_buffer := Some [0; 0; 0; 0]; float_buffer := None |} in
  do_overdrop_effect Z.min (fun _ => (F32.zero, F32.zero, F32.zero, F32.zero))
    (fun _ => (0, 0, 0, 0)) 1 f0_5 ibuf1 (Some ibuf2) 0 1 out
  = do_alphaover_effect (fun _ => (F32.zero, F32.zero, F32.zero, F32.zero))
      (fun _ => (0, 0, 0, 0)) 1 f0_5 ibuf1 (Some ibuf2) 0 1 out.
Proof.
  apply (overdrop_is_alphaover Z.min);
    [ reflexivity | lia | vm_compute; split; discriminate | vm_compute; discriminate | ].
  split; [vm_compute; discriminate|]. split.
  - intros data Hd. discriminate Hd.
  - intros data Hd. injection Hd as <-. vm_compute. discriminate.
Defined.

(** X10: the drop effect, pixel by pixel, with [xoff = min(8, x)] and
    [yoff = min(8, y)].  In the rows before the last [yoff] and the columns
    from [xoff] on, a channel is the channel of [rect1i] less the alpha of
    [rect2i] at the pixel [yoff] rows below and [xoff] columns to the left,
    scaled by [70 * fac] (in the byte path in fixed point, shifted by 8
    bits), and not below 0; every other pixel is the pixel of [rect1i].
    In the byte path, for [int(70 * fac)] within 0..70, the result is a
    byte that is at most the channel of [rect1i]. *)
Theorem drop_effect_pixels
    (min_ii : Z -> Z -> Z) (fac : float) (x y : Z)
    (rect2i rect1i outi : list Z) (frect2i frect1i fouti : list float) (r j c : Z) :
  (forall a b, min_ii a b = Z.min a b) ->
  0 <= x -> 0 <= y <= Int.INT_MAX -> 4 * x * y <= Int.INT_MAX ->
  4 * x * y <= Z.of_nat (length outi) -> 4 * x * y <= Z.of_nat (length fouti) ->
  0 <= r < y -> 0 <= j < x -> 0 <= c < 4 ->
  let xoff := Z.min XOFF x in
  let yoff := Z.min YOFF y in
  let at_ r j c := Z.to_nat (4 * (r * x + j) + c) in
  let shaded := (r <? y - yoff) && (xoff <=? j) in
  let temp_fac := F32.to_int (F32.mul f70_0 fac) in
  let res := rd (do_drop_effect_byte min_ii fac x y rect2i rect1i outi) (at_ r j c) in
  let fres := rd (do_drop_effect_float min_ii fac x y frect2i frect1i fouti) (at_ r j c) in
  res = (if shaded
         then Int.to_uchar
                (Z.max 0 (Int.sub (rd rect1i (at_ r j c))
                            (Int.shr (Int.mul temp_fac
                                        (rd rect2i (at_ (r + yoff) (j - xoff) 3))) 8)))
         else rd rect1i (at_ r j c)) /\
  fres = (if shaded
          then
            let v := F32.sub (rd frect1i (at_ r j c))
                       (F32.mul (F32.mul f70_0 fac)
                          (rd frect2i (at_ (r + yoff) (j - xoff) 3))) in
            if F32.ltb F32.zero v then v else F32.zero
          else rd frect1i (at_ r j c)) /\
  (0 <= temp_fac <= 70 ->
   byte_channel (rd rect1i (at_ r j c)) ->
   byte_channel (rd rect2i (at_ (r + yoff) (j - xoff) 3)) ->
   0 <= res <= rd rect1i (at_ r j c)).
Proof.
  intros Hmin Hx Hy Hsize Hlen Hflen Hr Hj Hc xoff yoff at_ shaded temp_fac res fres.
  assert (Hres : res = (if shaded
         then Int.to_uchar
                (Z.max 0 (Int.sub (rd rect1i (at_ r j c))
                            (Int.shr (Int.mul temp_fac
                                        (rd rect2i (at_ (r + yoff) (j - xoff) 3))) 8)))
         else rd rect1i (at_ r j c))).
  { subst res at_ shaded xoff yoff temp_fac. unfold do_drop_effect_byte. cbv zeta.
    match goal with
    | |- context [drop_loops min_ii ?shade x y rect2i rect1i outi] =>
      destruct (drop_loops_spec min_ii shade x y rect2i rect1i outi Hmin Hx Hy Hsize Hlen)
        as (_ & Hpix & _)
    end.
    apply rd_lookup. rewrite (Hpix r j c Hr Hj Hc). reflexivity. }
  split; [exact Hres|]. split.
  - subst fres at_ shaded xoff yoff temp_fac. unfold do_drop_effect_float. cbv zeta.
    match goal with
    | |- context [drop_loops min_ii ?shade x y frect2i frect1i fouti] =>
      destruct (drop_loops_spec min_ii shade x y frect2i frect1i fouti Hmin Hx Hy Hsize Hflen)
        as (_ & Hpix & _)
    end.
    apply rd_lookup. rewrite (Hpix r j c Hr Hj Hc). reflexivity.
  - intros Ht Hv Ha. rewrite Hres. clear Hres. unfold byte_channel in *.
    destruct shaded; [|lia].
    generalize dependent (rd rect1i (at_ r j c)). intros v Hv.
    generalize dependent (rd rect2i (at_ (r + yoff) (j - xoff) 3)). intros a Ha.
    unfold Int.mul, Int.sub. rewrite (int32_id (temp_fac * a)) by nia.
    assert (Hs : 0 <= Int.shr (temp_fac * a) 8 <= 69).
    { apply shr_between; [lia| |]; change (2 ^ 8) with 256; nia. }
    rewrite int32_id by lia. rewrite to_uchar_small by lia. lia.
Qed.

Lemma drop_effect_pixels_witness :
  rd (do_drop_effect_byte Z.min F32.one 10 9
        (replicate 360 255) (replicate 360 200) (replicate 360 0)) 32
  = 131.
Proof.
  refine (proj1 (drop_effect_pixels Z.min F32.one 10 9
                   (replicate 360 255) (replicate 360 200) (replicate 360 0)
                   (replicate 360 F32.one) (replicate 360 F32.one) (replicate 360 F32.zero)
                   0 8 0 _ _ _ _ _ _ _ _ _));
    first [ reflexivity | lia | (vm_compute; split; discriminate)
          | (vm_compute; discriminate) | (rewrite length_replicate; lia) ].
Defined.

(** ** Row slices of the cross effect *)

Lemma rd_cells {A} `{Inhabited A} (data : list A) (o : Z) (q : nat) :
  rd (cells {| ptr_base := data; ptr_offset := o |}) q = rd data (Z.to_nat o + q).
Proof. unfold rd, cells. cbn [ptr_base ptr_offset]. apply lookup_total_drop. Qed.

(** A slice of an effect that blends channel by channel: the cells of the
    slice hold the blend of the two inputs, the other cells are kept. *)
Lemma slice_blend_lookup {A} `{Inhabited A} (blend : A -> A -> A) (x y : Z)
    (data1 data2 data : list A) (o : Z) :
  let n := (4 * (Z.to_nat y * Z.to_nat x))%nat in
  let rect1 := {| ptr_base := data1; ptr_offset := o |} in
  let rect2 := {| ptr_base := data2; ptr_offset := o |} in
  let rect_out := {| ptr_base := data; ptr_offset := o |} in
  (Z.to_nat o + n <= length data)%nat ->
  let res :=
    write_cells rect_out
      (pixel_loop x y
         (fun p rt =>
            store4 p (blend (rd (cells rect1) p) (rd (cells rect2) p),
                      blend (rd (cells rect1) (p + 1)) (rd (cells rect2) (p + 1)),
                      blend (rd (cells rect1) (p + 2)) (rd (cells rect2) (p + 2)),
                      blend (rd (cells rect1) (p + 3)) (rd (cells rect2) (p + 3)))%nat rt)
         (cells rect_out)) in
  length res = length data /\
  (forall i, (Z.to_nat o <= i < Z.to_nat o + n)%nat ->
     res !! i = Some (blend (rd data1 i) (rd data2 i))) /\
  (forall i, (i < Z.to_nat o \/ Z.to_nat o + n <= i)%nat -> res !! i = data !! i).
Proof.
  intros n rect1 rect2 rect_out Hlen res. subst res.
  set (g := fun q => blend (rd (cells rect1) q) (rd (cells rect2) q)).
  change (pixel_loop x y _ (cells rect_out))
    with (pixel_loop x y
            (fun p rt => store4 p (g p, g (p + 1)%nat, g (p + 2)%nat, g (p + 3)%nat) rt)
            (cells rect_out)).
  assert (Hg : forall q, g q = blend (rd data1 (Z.to_nat o + q)) (rd data2 (Z.to_nat o + q))).
  { intros q. subst g rect1 rect2. cbv beta. rewrite !rd_cells. reflexivity. }
  clearbody g. subst rect1 rect2 rect_out.
  assert (Hcells : length (cells {| ptr_base := data; ptr_offset := o |})
                   = (length data - Z.to_nat o)%nat).
  { unfold cells. cbn [ptr_base ptr_offset]. apply length_drop. }
  assert (Htake : length (take (Z.to_nat o) data) = Z.to_nat o).
  { rewrite length_take. lia. }
  unfold write_cells. cbn [ptr_base ptr_offset].
  split; [|split].
  - rewrite length_app, Htake, pixel_loop_channelwise_length by (fold n; lia). lia.
  - intros i Hi. rewrite lookup_app_r by lia. rewrite Htake.
    rewrite pixel_loop_channelwise by (fold n; lia).
    rewrite Hg. do 3 f_equal; lia.
  - intros i [Hi|Hi].
    + rewrite lookup_app_l by lia. apply lookup_take_lt. lia.
    + rewrite lookup_app_r by lia. rewrite Htake.
      rewrite (pixel_loop_body_outside _
                 (fun p => (g p, g (p + 1)%nat, g (p + 2)%nat, g (p + 3)%nat)))
        by (reflexivity || (fold n; lia)).
      unfold cells. cbn [ptr_base ptr_offset]. rewrite lookup_drop.
      f_equal. lia.
Qed.

(** Two slices of such an effect, one after the other, in either order of
    the rows. *)
Lemma slice_blend_compose {A} `{Inhabited A} (blend : A -> A -> A) (x a b : Z)
    (data1 data2 data : list A) (o : Z) :
  let slice o y data :=
    write_cells {| ptr_base := data; ptr_offset := o |}
      (pixel_loop x y
         (fun p rt =>
            let rect1 := cells {| ptr_base := data1; ptr_offset := o |} in
            let rect2 := cells {| ptr_base := data2; ptr_offset := o |} in
            store4 p (blend (rd rect1 p) (rd rect2 p),
                      blend (rd rect1 (p + 1)) (rd rect2 (p + 1)),
                      blend (rd rect1 (p + 2)) (rd rect2 (p + 2)),
                      blend (rd rect1 (p + 3)) (rd rect2 (p + 3)))%nat rt)
         (cells {| ptr_base := data; ptr_offset := o |})) in
  0 <= x -> 0 <= a -> 0 <= b -> 0 <= o ->
  o + 4 * x * (a + b) <= Z.of_nat (length data) ->
  slice (o + 4 * x * a) b (slice o a data) = slice o (a + b) data /\
  slice o a (slice (o + 4 * x * a) b data) = slice o (a + b) data.
Proof.
  intros slice Hx Ha Hb Ho Hlen. subst slice. cbv zeta.
  destruct (slice_blend_lookup blend x a data1 data2 data o) as (L1 & I1 & O1); [nia|].
  destruct (slice_blend_lookup blend x (a + b) data1 data2 data o) as (L & I & O); [nia|].
  destruct (slice_blend_lookup blend x b data1 data2 data (o + 4 * x * a))
    as (L2 & I2 & O2); [nia|].
  cbv zeta in L1, I1, O1, L, I, O, L2, I2, O2.
  split.
  - match goal with
    | |- write_cells _ (pixel_loop x b _ (cells {| ptr_base := ?d1; ptr_offset := _ |})) = _ =>
      destruct (slice_blend_lookup blend x b data1 data2 d1 (o + 4 * x * a))
        as (L3 & I3 & O3); [rewrite L1; nia|]
    end.
    cbv zeta in L3, I3, O3.
    apply list_eq. intros i.
    destruct (Nat.lt_ge_cases i (Z.to_nat o)) as [Hi|Hi].
    { rewrite O3, O1, O by nia. reflexivity. }
    destruct (Nat.lt_ge_cases i (Z.to_nat (o + 4 * x * a))) as [Hi1|Hi1].
    { rewrite O3, I1, I by nia. reflexivity. }
    destruct (Nat.lt_ge_cases i (Z.to_nat (o + 4 * x * (a + b)))) as [Hi2|Hi2].
    { rewrite I3, I by nia. reflexivity. }
    rewrite O3, O1, O by nia. reflexivity.
  - match goal with
    | |- write_cells _ (pixel_loop x a _ (cells {| ptr_base := ?d1; ptr_offset := _ |})) = _ =>
      destruct (slice_blend_lookup blend x a data1 data2 d1 o)
        as (L3 & I3 & O3); [rewrite L2; nia|]
    end.
    cbv zeta in L3, I3, O3.
    apply list_eq. intros i.
    destruct (Nat.lt_ge_cases i (Z.to_nat o)) as [Hi|Hi].
    { rewrite O3, O2, O by nia. reflexivity. }
    destruct (Nat.lt_ge_cases i (Z.to_nat (o + 4 * x * a))) as [Hi1|Hi1].
    { rewrite I3, I by nia. reflexivity. }
    destruct (Nat.lt_ge_cases i (Z.to_nat (o + 4 * x * (a + b)))) as [Hi2|Hi2].
    { rewrite O3, I2, I by nia. reflexivity. }
    rewrite O3, O2, O by nia. reflexivity.
Qed.

(** X11: the slices of the cross effect compose: the rows [s, s + a) and
    then the rows [s + a, s + a + b), or these two slices in the other
    order, give what one slice of the rows [s, s + a + b) gives. *)
Theorem cross_slices_compose
    (rectx : Z) (fac : float) (ibuf1 : ImBuf) (ibuf2 : option ImBuf) (s a b : Z)
    (out : ImBuf) :
  0 <= rectx -> 0 <= s -> 0 <= a -> 0 <= b ->
  4 * (s + a + b) <= Int.INT_MAX -> 4 * rectx * (s + a + b) <= Int.INT_MAX ->
  slice_fits rectx s (a + b) out ->
  let slice start_line total_lines :=
    do_cross_effect rectx fac ibuf1 ibuf2 start_line total_lines in
  slice s a out ≫= slice (s + a) b = slice s (a + b) out /\
  slice (s + a) b out ≫= slice s a = slice s (a + b) out.
Proof.
  intros Hx Hs Ha Hb Hrows Hsize (Hoff & Hfloat & Hbyte) slice. subst slice.
  unfold Int.INT_MAX in *. cbv zeta in Hoff, Hfloat, Hbyte.
  assert (Ho1 : Int.mul (Int.mul 4 s) rectx = 4 * rectx * s).
  { unfold Int.mul. rewrite (int32_id (4 * s)) by lia. rewrite int32_id by nia. ring. }
  assert (Ho2 : Int.mul (Int.mul 4 (s + a)) rectx = 4 * rectx * s + 4 * rectx * a).
  { unfold Int.mul. rewrite (int32_id (4 * (s + a))) by lia. rewrite int32_id by nia. ring. }
  rewrite Ho1 in Hoff, Hfloat, Hbyte.
  unfold do_cross_effect, run_slice, slice_get_float_buffers, slice_get_byte_buffers.
  rewrite Ho1, Ho2.
  destruct (float_buffer out) as [fout|] eqn:Efout.
  - specialize (Hfloat fout eq_refl).
    destruct (float_buffer ibuf1) as [f1|]; [|split; reflexivity].
    destruct ibuf2 as [ibuf2|]; [|split; reflexivity]. cbn [mbind option_bind option_map].
    destruct (float_buffer ibuf2) as [f2|]; [|split; reflexivity].
    cbn [mbind option_bind option_map with_float_buffer float_buffer byte_buffer].
    destruct (slice_blend_compose
                (fun u v => F32.add (F32.mul (F32.sub F32.one fac) u) (F32.mul fac v))
                rectx a b f1 f2 fout (4 * rectx * s) Hx Ha Hb ltac:(nia) ltac:(nia))
      as [H12 H21].
    split.
    + exact (f_equal (fun w => Some (with_float_buffer out w)) H12).
    + exact (f_equal (fun w => Some (with_float_buffer out w)) H21).
  - destruct (byte_buffer out) as [bout|] eqn:Ebout.
    2: { destruct (byte_buffer ibuf1), ibuf2 as [ibuf2|];
           cbn [mbind option_bind option_map];
           try destruct (byte_buffer ibuf2); split; reflexivity. }
    specialize (Hbyte bout eq_refl).
    destruct (byte_buffer ibuf1) as [b1|]; [|split; reflexivity].
    destruct ibuf2 as [ibuf2|]; [|split; reflexivity]. cbn [mbind option_bind option_map].
    destruct (byte_buffer ibuf2) as [b2|]; [|split; reflexivity].
    cbn [mbind option_bind option_map with_byte_buffer float_buffer byte_buffer].
    rewrite Efout.
    cbn [mbind option_bind option_map with_byte_buffer float_buffer byte_buffer].
    destruct (slice_blend_compose
                (fun u v =>
                   Int.to_uchar
                     (Int.shr (Int.add (Int.mul (Int.sub 256 (F32.to_int (F32.mul f256 fac))) u)
                                       (Int.mul (F32.to_int (F32.mul f256 fac)) v)) 8))
                rectx a b b1 b2 bout (4 * rectx * s) Hx Ha Hb ltac:(nia) ltac:(nia))
      as [H12 H21].
    split.
    + exact (f_equal (fun w => Some (with_byte_buffer out w)) H12).
    + exact (f_equal (fun w => Some (with_byte_buffer out w)) H21).
Qed.

Lemma cross_slices_compose_witness :
  let ibuf1 := {| byte_buffer := Some [10; 20; 30; 255; 40; 50; 60; 255];
                  float_buffer := None |} in
  let ibuf2 := {| byte_buffer := Some [90; 80; 70; 128; 0; 0; 0; 0];
                  float_buffer := None |} in
  let out := {| byte_buffer := Some (replicate 8 0); float_buffer := None |} in
  do_cross_effect 1 f0_25 ibuf1 (Some ibuf2) 0 1 out
    ≫= do_cross_effect 1 f0_25 ibuf1 (Some ibuf2) (0 + 1) 1
  = do_cross_effect 1 f0_25 ibuf1 (Some ibuf2) 0 (1 + 1) out.
Proof.
  refine (proj1 (cross_slices_compose 1 f0_25 _ _ 0 1 1 _ _ _ _ _ _ _ _));
    try lia; try (vm_compute; discriminate).
  split; [vm_compute; discriminate|]. split.
  - intros data Hd. discriminate Hd.
  - intros data Hd. injection Hd as <-. vm_compute. discriminate.
Defined.

(** ** Solid color *)

Lemma pixel_count (x y : Z) :
  0 <= x -> 0 <= y -> Z.to_nat (4 * x * y) = (4 * (Z.to_nat y * Z.to_nat x))%nat.
Proof. intros Hx Hy. nia. Qed.

Lemma fill_pixels {A} `{Inhabited A} (color : px A) (x y : Z) (b : list A) :
  (4 * (Z.to_nat y * Z.to_nat x) <= length b)%nat ->
  length (pixel_loop x y (fun p rect => store4 p color rect) b) = length b /\
  forall k, (k < Z.to_nat y * Z.to_nat x)%nat ->
    load4 (pixel_loop x y (fun p rect => store4 p color rect) b) (4 * k) = color.
Proof.
  intros Hlen. split.
  - apply (pixel_loop_body_length _ (fun _ => color)); [reflexivity | exact Hlen].
  - intros k Hk.
    apply (pixel_loop_body_load4 _ (fun _ => color)); [reflexivity | exact Hlen | exact Hk].
Qed.

(** X12: the solid color effect writes its color into every pixel of an
    output image of [rectx] by [recty] pixels: a float image when one of
    the inputs has a float buffer, with the color as it is and the alpha
    255; a byte image otherwise, with each color channel times 255
    converted to a byte and the alpha 255. *)
Theorem solid_color_fills_image
    (seq_imbuf_to_sequencer_space IMB_rect_from_float : ImBuf -> ImBuf)
    (rectx recty : Z) (cv : SolidColorVars) (ibuf1 ibuf2 ibuf3 : option ImBuf) :
  0 <= rectx -> 0 <= recty ->
  let out := fst (do_solid_color seq_imbuf_to_sequencer_space IMB_rect_from_float
                    rectx recty cv ibuf1 ibuf2 ibuf3) in
  let '(col0, col1, col2) := col cv in
  if has_float ibuf1 || has_float ibuf2 || has_float ibuf3
  then
    exists rect_float,
      float_buffer out = Some rect_float /\ byte_buffer out = None /\
      length rect_float = Z.to_nat (4 * rectx * recty) /\
      forall k, (k < Z.to_nat recty * Z.to_nat rectx)%nat ->
        load4 rect_float (4 * k) = (col0, col1, col2, F32.of_int 255)
  else
    exists rect,
      byte_buffer out = Some rect /\ float_buffer out = None /\
      length rect = Z.to_nat (4 * rectx * recty) /\
      forall k, (k < Z.to_nat recty * Z.to_nat rectx)%nat ->
        load4 rect (4 * k)
        = (F32.to_uchar (F32.mul col0 (F32.of_int 255)),
           F32.to_uchar (F32.mul col1 (F32.of_int 255)),
           F32.to_uchar (F32.mul col2 (F32.of_int 255)),
           255).
Proof.
  intros Hx Hy out. subst out.
  unfold do_solid_color, prepare_effect_imbufs.
  destruct cv as [[[c0 c1] c2]]. cbn [col].
  assert (Hn : forall {A} (v : A),
            (4 * (Z.to_nat recty * Z.to_nat rectx)
             <= length (replicate (Z.to_nat (4 * rectx * recty)) v))%nat).
  { intros A v. rewrite length_replicate, pixel_count by assumption. lia. }
  destruct ibuf1 as [[b1 [f1|]]|], ibuf2 as [[b2 [f2|]]|], ibuf3 as [[b3 [f3|]]|];
    cbn [has_float is_null float_buffer byte_buffer orb andb IMB_allocImBuf fst
         with_byte_buffer with_float_buffer];
    (eexists; split; [reflexivity|]; split; [reflexivity|];
     match goal with
     | |- context [pixel_loop rectx recty (fun p rect => store4 p ?color rect) ?b] =>
       destruct (fill_pixels color rectx recty b) as [Hl Hpx]; [apply Hn|]
     end;
     split; [rewrite Hl; apply length_replicate | exact Hpx]).
Qed.

Lemma solid_color_fills_image_witness :
  exists rect,
    byte_buffer (fst (do_solid_color (fun i => i) (fun i => i) 2 2
                        {| col := (f0_5, f0_5, f0_5) |} None None None))
    = Some rect /\
    forall k, (k < 4)%nat -> load4 rect (4 * k) = (127, 127, 127, 255).
Proof.
  destruct (solid_color_fills_image (fun i => i) (fun i => i) 2 2
              {| col := (f0_5, f0_5, f0_5) |} None None None
              ltac:(lia) ltac:(lia)) as (rect & Hb & _ & _ & Hpx).
  exists rect. split; [exact Hb | exact Hpx].
Defined.

(** ** Glow *)

Section GlowFacts.

Variable float4_add : px float -> px float -> px float.
Variable float4_mul : px float -> float -> px float.
Variable float4_min : px float -> px float -> px float.
Variables (in_ out : list float) (width height : Z) (threshold boost clamp : float).

Hypothesis width_range : 0 <= width.
Hypothesis height_range : 0 <= height.
Hypothesis size_range : width * height <= Int.INT_MAX.
Hypothesis out_length : 4 * (width * height) <= Z.of_nat (length out).

(** The highlight of pixel number [q]. *)
Local Abbreviation highlight q :=
  (let px_in := load4 in_ (Z.to_nat (4 * q)) in
   let intensity :=
     F32.sub (F32.add (F32.add (chan 0 px_in) (chan 1 px_in)) (chan 2 px_in)) threshold in
   if F32.gtb intensity F32.zero
   then float4_min (float4 clamp) (float4_mul px_in (F32.mul boost intensity))
   else float4 F32.zero).

Lemma blur_isolate_highlights_spec :
  let res :=
    blur_isolate_highlights float4_mul float4_min in_ out width height
      threshold boost clamp in
  length res = length out /\
  (forall q, 0 <= q < width * height -> load4 res (Z.to_nat (4 * q)) = highlight q) /\
  (forall i : nat, 4 * (width * height) <= Z.of_nat i -> res !! i = out !! i).
Proof.
  unfold blur_isolate_highlights. change (F32.of_int 0) with F32.zero.
  unfold Int.INT_MAX in *.
  set (P := fun (y : Z) (mem : list float) =>
              length mem = length out /\
              (forall q (c : nat), 0 <= q < y * width -> (c < 4)%nat ->
                 mem !! (Z.to_nat (4 * q) + c)%nat = Some (chan c (highlight q))) /\
              (forall i : nat, 4 * (y * width) <= Z.of_nat i -> mem !! i = out !! i)).
  match goal with
  | |- context [for_range 0 height ?body out] =>
    pose proof (for_range_inv P body 0 height out) as Houter
  end.
  destruct Houter as (Hl & Hpix & Hrest).
  - exact height_range.
  - unfold P. split; [reflexivity|]. split; [intros q c Hq; lia | reflexivity].
  - intros y mem Hy (Hl & Hpix & Hrest).
    assert (Hmul : Int.mul y width = y * width).
    { unfold Int.mul. apply int32_id. nia. }
    rewrite Hmul.
    set (Q := fun (x : Z) (st : Z * list float) =>
                let '(index, mem) := st in
                index = y * width + x /\
                length mem = length out /\
                (forall q (c : nat), 0 <= q < y * width + x -> (c < 4)%nat ->
                   mem !! (Z.to_nat (4 * q) + c)%nat = Some (chan c (highlight q))) /\
                (forall i : nat, 4 * (y * width + x) <= Z.of_nat i -> mem !! i = out !! i)).
    match goal with
    | |- context [for_range 0 width ?body ?init] =>
      pose proof (for_range_inv Q body 0 width init) as Hinner
    end.
    destruct (for_range 0 width _ _) as [index mem'].
    destruct Hinner as (-> & Hl' & Hpix' & Hrest').
    + exact width_range.
    + unfold Q. split; [ring|]. split; [exact Hl|]. split.
      * intros q c Hq Hc. apply Hpix; [lia | exact Hc].
      * intros i Hi. apply Hrest. lia.
    + clear index mem'. intros x [index mem'] Hx (-> & Hl' & Hpix' & Hrest').
      unfold Q. split; [ring|]. split; [rewrite store4_length; exact Hl'|].
      assert (Hfit : 4 * (y * width + x) + 3 < Z.of_nat (length mem')) by nia.
      split.
      * intros q c Hq Hc. destruct (decide (q = y * width + x)) as [->|Hne].
        -- rewrite store4_lookup by lia. reflexivity.
        -- rewrite store4_lookup_other by lia. apply Hpix'; [lia | exact Hc].
      * intros i Hi. rewrite store4_lookup_other by lia. apply Hrest'. lia.
    + cbn [snd]. unfold P. split; [exact Hl'|]. split.
      * intros q c Hq Hc. apply Hpix'; [lia | exact Hc].
      * intros i Hi. apply Hrest'. lia.
  - cbv zeta. split; [exact Hl|]. split.
    + intros q Hq. apply load4_chan. intros c Hc.
      apply rd_lookup. apply Hpix; [lia | exact Hc].
    + intros i Hi. apply Hrest. lia.
Qed.

End GlowFacts.

(** X13: the isolation of the highlights keeps the size of the output
    buffer; a pixel whose red, green and blue sum is not above the
    threshold gives a pixel of four zeros, every other pixel gives the
    input pixel scaled by [boost * intensity] and limited by [math::min]
    with the clamp. *)
Theorem isolate_highlights_pixels
    (float4_mul : px float -> float -> px float)
    (float4_min : px float -> px float -> px float)
    (in_ out : list float) (width height : Z) (threshold boost clamp : float) (q : Z) :
  0 <= width -> 0 <= height -> width * height <= Int.INT_MAX ->
  4 * (width * height) <= Z.of_nat (length out) ->
  0 <= q < width * height ->
  let res :=
    blur_isolate_highlights float4_mul float4_min in_ out width height
      threshold boost clamp in
  let px_in := load4 in_ (Z.to_nat (4 * q)) in
  let intensity :=
    F32.sub (F32.add (F32.add (chan 0 px_in) (chan 1 px_in)) (chan 2 px_in)) threshold in
  length res = length out /\
  (F32.gtb intensity F32.zero = false ->
   load4 res (Z.to_nat (4 * q)) = (F32.zero, F32.zero, F32.zero, F32.zero)) /\
  (F32.gtb intensity F32.zero = true ->
   load4 res (Z.to_nat (4 * q))
   = float4_min (clamp, clamp, clamp, clamp) (float4_mul px_in (F32.mul boost intensity))).
Proof.
  intros Hw Hh Hsize Hlen Hq res px_in intensity.
  destruct (blur_isolate_highlights_spec float4_mul float4_min in_ out width height
              threshold boost clamp Hw Hh Hsize Hlen) as (Hl & Hpix & _).
  fold res in Hl, Hpix. specialize (Hpix q Hq). cbv zeta in Hpix.
  fold px_in in Hpix. fold intensity in Hpix.
  split; [exact Hl|]. split; intros Hi; rewrite Hi in Hpix; exact Hpix.
Qed.

Lemma isolate_highlights_pixels_witness :
  load4 (blur_isolate_highlights (fun v _ => v) (fun a _ => a)
           [f0_25; f0_25; f0_25; F32.one] (replicate 4 F32.one) 1 1
           F32.one F32.one F32.one) (Z.to_nat (4 * 0))
  = (F32.zero, F32.zero, F32.zero, F32.zero).
Proof.
  refine (proj1 (proj2 (isolate_highlights_pixels (fun v _ => v) (fun a _ => a)
                   [f0_25; f0_25; f0_25; F32.one] (replicate 4 F32.one) 1 1
                   F32.one F32.one F32.one 0 _ _ _ _ _)) _);
    first [ lia | reflexivity | (vm_compute; discriminate) | (simpl; lia) ].
Defined.

(** X14: without a blur radius (a blur that is not above 0, or a half
    width of the filter that is 0) the float glow effect returns the
    isolated highlights alone: [glow_blur_bitmap] returns before the pass
    that adds the source image, whatever [bNoComp] says. *)
Theorem glow_without_blur_is_highlights
    (float4_add : px float -> px float -> px float)
    (float4_mul : px float -> float -> px float)
    (float4_min : px float -> px float -> px float)
    (math_max math_min : Z -> Z -> Z) (exp_fl : float -> float)
    (glow : GlowVars) (render_size : Z) (fac : float) (x y : Z)
    (rect1 out : list float) :
  let blur := F32.mul (dDist glow) (F32.div (F32.of_int render_size) f100_0) in
  let halfWidth := F32.to_int (F32.mul (F32.of_int (Int.add (dQuality glow) 1)) blur) in
  F32.leb blur F32.zero = true \/ halfWidth = 0 ->
  do_glow_effect_float float4_add float4_mul float4_min math_max math_min exp_fl
    glow render_size fac x y rect1 out
  = blur_isolate_highlights float4_mul float4_min rect1 out x y
      (F32.mul (fMini glow) f3_0) (F32.mul (fBoost glow) fac) (fClamp glow).
Proof.
  intros blur halfWidth Hno.
  unfold do_glow_effect_float, glow_blur_bitmap. cbv zeta.
  change (F32.of_int 0) with F32.zero. fold blur. fold halfWidth.
  destruct (F32.leb blur F32.zero); [reflexivity|].
  destruct Hno as [Hno| ->]; [discriminate Hno | reflexivity].
Qed.

Lemma glow_without_blur_is_highlights_witness :
  let glow := {| fMini := f0_25; fClamp := F32.one; fBoost := f0_5;
                 dDist := F32.zero; dQuality := 3; bNoComp := 0 |} in
  do_glow_effect_float (fun a _ => a) (fun v _ => v) (fun a _ => a) Z.max Z.min
    (fun v => v) glow 100 F32.one 1 1 [F32.one; F32.one; F32.one; F32.one]
    (replicate 4 F32.zero)
  = blur_isolate_highlights (fun v _ => v) (fun a _ => a)
      [F32.one; F32.one; F32.one; F32.one] (replicate 4 F32.zero) 1 1
      (F32.mul f0_25 f3_0) (F32.mul f0_5 F32.one) F32.one.
Proof.
  apply (glow_without_blur_is_highlights (fun a _ => a) (fun v _ => v) (fun a _ => a)
           Z.max Z.min (fun v => v)
           {| fMini := f0_25; fClamp := F32.one; fBoost := f0_5;
              dDist := F32.zero; dQuality := 3; bNoComp := 0 |}).
  left. reflexivity.
Defined.

(** ** Wipe *)

(** The clamp that ends [check_zone]. *)
Lemma clamp_unit (output : float) :
  let r := if F32.ltb output (F32.of_int 0) then F32.of_int 0
           else if F32.gtb output (F32.of_int 1) then F32.of_int 1
           else output in
  F32.ltb r F32.zero = false /\ F32.gtb r F32.one = false /\
  (F32.is_nan output = false -> within F32.zero F32.one r).
Proof.
  change (F32.of_int 0) with F32.zero. change (F32.of_int 1) with F32.one. cbv zeta.
  destruct (F32.ltb output F32.zero) eqn:E0.
  - repeat split; reflexivity.
  - destruct (F32.gtb output F32.one) eqn:E1.
    + repeat split; reflexivity.
    + split; [exact E0|]. split; [exact E1|].
      intros Hnan. split.
      * apply F32Facts.not_ltb_leb; [exact Hnan | reflexivity | exact E0].
      * apply F32Facts.not_ltb_leb; [reflexivity | exact Hnan | exact E1].
Qed.

Lemma sub_not_nan (a b : float) :
  F32.is_finite a = true -> F32.is_nan b = false -> F32.is_nan (F32.sub a b) = false.
Proof.
  unfold F32.sub, SFsub.
  destruct a as [sa|sa| |sa ma ea]; try discriminate;
    destruct b as [sb|sb| |sb mb eb]; try discriminate; intros _ _; try reflexivity.
  - destruct sa, sb; reflexivity.
  - apply F32Facts.binary_normalize_not_nan.
Qed.

Lemma eqb_self_not_nan (a : float) : negb (F32.eqb a a) = F32.is_nan a.
Proof.
  destruct a as [s|s| |s m e]; try reflexivity; try (destruct s; reflexivity).
  unfold F32.eqb, SFeqb. rewrite F32Facts.compare_refl; reflexivity.
Qed.

(** X15: the coverage that [check_zone] returns is never below 0 and
    never above 1, for every wipe type, position and factor, and whatever
    the functions of the C library return.  For the clock wipe and for a
    wipe type outside the [switch] it is a number within [[0, 1]]. *)
Theorem check_zone_unit_range
    (tanf sqrtf : float -> float) (atan2f hypotf : float -> float -> float)
    (min_ii : Z -> Z -> Z) (min_ff : float -> float -> float)
    (wipezone : Zone.WipeZone) (x y : Z) (fac : float) :
  let check := check_zone atan2f hypotf min_ii min_ff wipezone x y fac in
  F32.ltb check F32.zero = false /\
  F32.gtb check F32.one = false /\
  (Zone.type wipezone = DO_CLOCK_WIPE \/ Zone.type wipezone = DO_WIPE_other ->
   within F32.zero F32.one check).
Proof.
  unfold check_zone. cbv zeta.
  destruct (if Zone.forward wipezone then _ else _) as [posx posy].
  match goal with
  | |- context [F32.ltb ?o (F32.of_int 0)] => set (output := o)
  end.
  destruct (clamp_unit output) as (H0 & H1 & Hw).
  split; [exact H0|]. split; [exact H1|].
  intros Htype. apply Hw. subst output.
  destruct Htype as [-> | ->]; [|reflexivity].
  destruct (if Zone.forward wipezone then _ else _) as [temp3 temp4].
  match goal with
  | |- F32.is_nan (if Zone.forward wipezone then F32.sub _ ?o else ?o) = false =>
    assert (Ho : F32.is_nan o = false)
  end.
  { match goal with
    | |- F32.is_nan (if negb (F32.eqb ?o ?o) then _ else _) = false =>
      rewrite (eqb_self_not_nan o); destruct (F32.is_nan o) eqn:E; [reflexivity | exact E]
    end. }
  destruct (Zone.forward wipezone); [|exact Ho].
  apply sub_not_nan; [reflexivity | exact Ho].
Qed.

(** The loops that the wipe effect runs on one range of rows: three
    pointers that advance by one pixel where they are not null, and one
    pixel stored per step, as long as no pointer that points into no
    buffer is read. *)
Lemma wipe_rows_spec {A} (pix : Z -> Z -> row_ptr -> row_ptr -> option (px A))
    (val : Z -> Z -> px A) (n1 n2 : bool) (width first size : Z) (out : list A) :
  let P n (q : nat) := if n : bool then row_at q else row_null in
  let base := Z.to_nat (first * width * 4) in
  0 <= width -> 0 <= first -> 0 <= size ->
  4 * (width * (first + size)) <= Z.of_nat (length out) ->
  (forall x y, 0 <= x < width -> first <= y < first + size ->
     pix x y (P n1 (Z.to_nat (4 * (y * width + x)))) (P n2 (Z.to_nat (4 * (y * width + x))))
     = Some (val x y)) ->
  exists res,
    snd <$>
      for_range first (first + size)
        (fun y st =>
           for_range 0 width
             (fun x st =>
                '((rt1, rt2, rt), out) ← st;
                val ← pix x y rt1 rt2;
                Some ((row_next rt1, row_next rt2, (rt + 4)%nat), store4 rt val out))
             st)
        (Some ((P n1 base, P n2 base, base), out))
    = Some res /\
    length res = length out /\
    (forall x y (c : nat), 0 <= x < width -> first <= y < first + size -> (c < 4)%nat ->
       res !! (Z.to_nat (4 * (y * width + x)) + c)%nat = Some (chan c (val x y))) /\
    (forall i : nat,
       Z.of_nat i < 4 * (first * width) \/ 4 * ((first + size) * width) <= Z.of_nat i ->
       res !! i = out !! i).
Proof.
  intros P base Hw Hf Hs Hlen Hpix.
  set (at_ := fun x y => Z.to_nat (4 * (y * width + x))).
  set (I := fun (bound : Z) (st : option (row_ptr * row_ptr * nat * list A)) =>
              exists mem,
                st = Some ((P n1 (Z.to_nat (4 * bound)), P n2 (Z.to_nat (4 * bound)),
                            Z.to_nat (4 * bound)), mem) /\
                length mem = length out /\
                (forall x y (c : nat), 0 <= x < width -> first <= y ->
                   y * width + x < bound -> (c < 4)%nat ->
                   mem !! (at_ x y + c)%nat = Some (chan c (val x y))) /\
                (forall i : nat,
                   Z.of_nat i < 4 * (first * width) \/ 4 * bound <= Z.of_nat i ->
                   mem !! i = out !! i)).
  match goal with
  | |- context [for_range first (first + size) ?body ?init] =>
    pose proof (for_range_inv (fun y st => I (y * width) st) body first (first + size) init)
      as Houter
  end.
  destruct Houter as (mem & -> & Hl & Hv & Hrest).
  - lia.
  - exists out. split; [|split; [reflexivity|split]].
    + replace (Z.to_nat (4 * (first * width))) with base by (subst base; lia).
      reflexivity.
    + intros x y c Hx Hy Hb. nia.
    + reflexivity.
  - intros y st Hy Hst.
    match goal with
    | |- context [for_range 0 width ?body st] =>
      pose proof (for_range_inv (fun x st => I (y * width + x) st) body 0 width st) as Hinner
    end.
    replace ((y + 1) * width) with (y * width + width) by ring.
    apply Hinner; [exact Hw | rewrite Z.add_0_r; exact Hst |].
    clear Hinner Hst st.
    intros x st Hx (mem & -> & Hl & Hv & Hrest).
    cbv beta. cbn [mbind option_bind].
    rewrite (Hpix x y Hx Hy). cbn [mbind option_bind].
    fold (at_ x y).
    exists (store4 (at_ x y) (val x y) mem).
    assert (Hfit : 4 * (y * width + x) + 3 < Z.of_nat (length mem)) by nia.
    split; [|split; [rewrite store4_length; exact Hl|split]].
    + replace (Z.to_nat (4 * (y * width + (x + 1)))) with (at_ x y + 4)%nat
        by (subst at_; cbv beta; nia).
      destruct n1, n2; reflexivity.
    + intros x' y' c Hx' Hy' Hb Hc.
      assert (0 <= y * width) by nia. assert (0 <= y' * width) by nia.
      destruct (decide (y' * width + x' = y * width + x)) as [Heq|Hne].
      * assert (y' = y) by nia. assert (x' = x) by nia. subst x' y'.
        rewrite store4_lookup by (subst at_; cbv beta; nia). reflexivity.
      * subst at_. cbv beta. rewrite store4_lookup_other by lia.
        apply Hv; [exact Hx' | exact Hy' | lia | exact Hc].
    + intros i Hi. assert (0 <= y * width) by nia.
      assert (first * width <= y * width) by nia.
      subst at_. cbv beta. rewrite store4_lookup_other by lia.
      apply Hrest. lia.
  - exists mem. split; [reflexivity|]. split; [exact Hl|]. split.
    + intros x y c Hx Hy Hc. apply Hv; [exact Hx | lia | nia | exact Hc].
    + intros i Hi. apply Hrest. lia.
Qed.

(** The ranges of rows, one after the other: every pixel of a row that
    some range holds has the value of the wipe. *)
Lemma wipe_ranges_spec {A} (rows : Z -> Z -> list A -> option (list A))
    (val : Z -> Z -> px A) (ok : Z -> Z -> Prop) (width : Z) (L : nat) :
  0 <= width ->
  (forall first size mem,
     ok first size -> length mem = L ->
     0 <= first /\ 0 <= size /\
     exists res,
       rows first size mem = Some res /\
       length res = L /\
       (forall x y (c : nat), 0 <= x < width -> first <= y < first + size -> (c < 4)%nat ->
          res !! (Z.to_nat (4 * (y * width + x)) + c)%nat = Some (chan c (val x y))) /\
       (forall i : nat,
          Z.of_nat i < 4 * (first * width) \/ 4 * ((first + size) * width) <= Z.of_nat i ->
          res !! i = mem !! i)) ->
  forall (rs : list (Z * Z)) (mem : list A),
    (forall r, In r rs -> ok (fst r) (snd r)) ->
    length mem = L ->
    exists res,
      foldl (fun out '(first, size) => out ≫= rows first size) (Some mem) rs = Some res /\
      length res = L /\
      forall x y, 0 <= x < width -> 0 <= y ->
        (exists r, In r rs /\ fst r <= y < fst r + snd r) \/
        (forall c : nat, (c < 4)%nat ->
           mem !! (Z.to_nat (4 * (y * width + x)) + c)%nat = Some (chan c (val x y))) ->
        forall c : nat, (c < 4)%nat ->
          res !! (Z.to_nat (4 * (y * width + x)) + c)%nat = Some (chan c (val x y)).
Proof.
  intros Hw Hrows. induction rs as [|[first size] rs IH]; intros mem Hrs Hlen.
  - exists mem. split; [reflexivity|]. split; [exact Hlen|].
    intros x y Hx Hy [(r & [] & _)|Hmem]. exact Hmem.
  - destruct (Hrows first size mem (Hrs (first, size) (or_introl eq_refl)) Hlen)
      as (Hf & Hs & mem1 & Hr & Hl1 & Hin & Hout).
    destruct (IH mem1 (fun r Hr' => Hrs r (or_intror Hr')) Hl1) as (res & Hres & Hlres & Hpix).
    exists res. cbn [foldl mbind option_bind]. rewrite Hr.
    split; [exact Hres|]. split; [exact Hlres|].
    intros x y Hx Hy Hcase. apply Hpix; [exact Hx | exact Hy |].
    destruct (decide (first <= y < first + size)) as [Hyr|Hyr].
    + right. intros c Hc. apply Hin; assumption.
    + destruct Hcase as [(r & [<-|Hr'] & Hyin)|Hmem].
      * cbn [fst snd] in Hyin. lia.
      * left. exists r. split; assumption.
      * right. intros c Hc. rewrite Hout; [apply Hmem, Hc|].
        assert (0 <= y * width) by nia. assert (0 <= first * width) by nia.
        destruct (Z_lt_le_dec y first); [left; nia | right; nia].
Qed.

(** X16: the wipe effect, pixel by pixel, for inputs that are not null,
    or that are null while every range of rows that [parallel_for] makes
    starts at the first cell of the image (with a null input 2 only beside
    a null input 1).  The effect then reads no pointer that points into no
    buffer, and in every row that some range holds: where the coverage of
    [check_zone] is 0 the output pixel is the pixel of input 2; elsewhere
    each channel is [in1 * check + in2 * (1 - check)], in the byte path
    between the conversions to and from premultiplied float; where the
    input that would be taken is null the pixel is opaque black. *)
Theorem wipe_pixels
    (tanf sqrtf : float -> float) (atan2f hypotf : float -> float -> float)
    (min_ii : Z -> Z -> Z) (min_ff : float -> float -> float)
    (parallel_for_ranges : Z -> Z -> list (Z * Z))
    (straight_uchar_to_premul_float : px Z -> px float)
    (premul_float_to_straight_uchar : px float -> px Z)
    (wipe : WipeVars) (fac : float) (width height : Z)
    (rect1 rect2 : option (list float)) (out : list float)
    (brect1 brect2 : option (list Z)) (bout : list Z) (x y : Z) :
  let y_ranges := parallel_for_ranges height 64 in
  0 <= width -> 0 <= height ->
  4 * (width * height) <= Z.of_nat (length out) ->
  4 * (width * height) <= Z.of_nat (length bout) ->
  Forall (fun r => 0 <= fst r /\ 0 <= snd r /\ fst r + snd r <= height) y_ranges ->
  (exists r, In r y_ranges /\ fst r <= y < fst r + snd r) ->
  0 <= x < width -> 0 <= y < height ->
  (rect1 = None \/ rect2 = None \/ brect1 = None \/ brect2 = None ->
   Forall (fun r => fst r * width * 4 = 0) y_ranges) ->
  (rect2 = None -> rect1 = None) ->
  (brect2 = None -> brect1 = None) ->
  let check :=
    check_zone atan2f hypotf min_ii min_ff (precalc_wipe_zone tanf sqrtf wipe width height)
      x y fac in
  let p := Z.to_nat (4 * (y * width + x)) in
  let rt1 := load4 (default [] rect1) p in
  let rt2 := load4 (default [] rect2) p in
  let brt1 := straight_uchar_to_premul_float (load4 (default [] brect1) p) in
  let brt2 := straight_uchar_to_premul_float (load4 (default [] brect2) p) in
  let blend (a b : float) := F32.add (F32.mul a check) (F32.mul b (F32.sub F32.one check)) in
  exists res bres,
    do_wipe_effect_float tanf sqrtf atan2f hypotf min_ii min_ff parallel_for_ranges
      wipe fac width height rect1 rect2 out = Some res /\
    do_wipe_effect_byte tanf sqrtf atan2f hypotf min_ii min_ff parallel_for_ranges
      straight_uchar_to_premul_float premul_float_to_straight_uchar
      wipe fac width height brect1 brect2 bout = Some bres /\
    length res = length out /\ length bres = length bout /\
    load4 res p
    = (if F32.eqb check F32.zero
       then if non_null rect2 then rt2 else (F32.zero, F32.zero, F32.zero, F32.one)
       else if non_null rect1
            then (blend (chan 0 rt1) (chan 0 rt2), blend (chan 1 rt1) (chan 1 rt2),
                  blend (chan 2 rt1) (chan 2 rt2), blend (chan 3 rt1) (chan 3 rt2))
            else (F32.zero, F32.zero, F32.zero, F32.one)) /\
    load4 bres p
    = (if F32.eqb check F32.zero
       then if non_null brect2 then load4 (default [] brect2) p else (0, 0, 0, 255)
       else if non_null brect1
            then premul_float_to_straight_uchar
                   (blend (chan 0 brt1) (chan 0 brt2), blend (chan 1 brt1) (chan 1 brt2),
                    blend (chan 2 brt1) (chan 2 brt2), blend (chan 3 brt1) (chan 3 brt2))
            else (0, 0, 0, 255)).
Proof.
  intros y_ranges Hw Hh Hlen Hblen Hranges Hcover Hx Hy Hnull H21 Hb21
    check p rt1 rt2 brt1 brt2 blend.
  set (wipezone := precalc_wipe_zone tanf sqrtf wipe width height) in *.
  (* the float image *)
  set (val := fun x y =>
         let check := check_zone atan2f hypotf min_ii min_ff wipezone x y fac in
         let p := Z.to_nat (4 * (y * width + x)) in
         let v1 := load4 (default [] rect1) p in
         let v2 := load4 (default [] rect2) p in
         if negb (F32.eqb check F32.zero) then
           if non_null rect1 then
             let ch c :=
               F32.add (F32.mul (chan c v1) check)
                       (F32.mul (chan c v2) (F32.sub (F32.of_int 1) check)) in
             (ch 0, ch 1, ch 2, ch 3)%nat
           else (F32.of_int 0, F32.of_int 0, F32.of_int 0, F32.one)
         else
           if non_null rect2 then v2
           else (F32.of_int 0, F32.of_int 0, F32.of_int 0, F32.one)).
  set (bval := fun x y =>
         let check := check_zone atan2f hypotf min_ii min_ff wipezone x y fac in
         let p := Z.to_nat (4 * (y * width + x)) in
         let v1 := straight_uchar_to_premul_float (load4 (default [] brect1) p) in
         let v2 := straight_uchar_to_premul_float (load4 (default [] brect2) p) in
         if negb (F32.eqb check F32.zero) then
           if non_null brect1 then
             let ch c :=
               F32.add (F32.mul (chan c v1) check)
                       (F32.mul (chan c v2) (F32.sub (F32.of_int 1) check)) in
             premul_float_to_straight_uchar (ch 0, ch 1, ch 2, ch 3)%nat
           else (0, 0, 0, 255)
         else
           if non_null brect2 then load4 (default [] brect2) p
           else (0, 0, 0, 255)).
  assert (Hstart : forall {A} (rect : option (list A)) first,
            (rect = None -> first * width * 4 = 0) ->
            row_start rect (first * width * 4)
            = if non_null rect then row_at (Z.to_nat (first * width * 4)) else row_null).
  { intros A [b|] first H0; [reflexivity|]. cbn. rewrite (H0 eq_refl). reflexivity. }
  assert (Hfrows : forall first size mem,
            In (first, size) y_ranges ->
            0 <= first -> 0 <= size -> first + size <= height ->
            length mem = length out ->
            exists res,
              wipe_rows_float atan2f hypotf min_ii min_ff wipezone fac width rect1 rect2
                first size mem = Some res /\
              length res = length out /\
              (forall x y (c : nat), 0 <= x < width -> first <= y < first + size ->
                 (c < 4)%nat ->
                 res !! (Z.to_nat (4 * (y * width + x)) + c)%nat = Some (chan c (val x y))) /\
              (forall i : nat,
                 Z.of_nat i < 4 * (first * width) \/
                 4 * ((first + size) * width) <= Z.of_nat i ->
                 res !! i = mem !! i)).
  { intros first size mem Hin Hf Hs Hfs Hl.
    assert (H0 : forall {A} (rect : option (list A)), rect = None ->
                   (rect1 = None \/ rect2 = None \/ brect1 = None \/ brect2 = None) ->
                   first * width * 4 = 0).
    { intros A rect _ Hn. exact (proj1 (List.Forall_forall _ _) (Hnull Hn) _ Hin). }
    unfold wipe_rows_float.
    rewrite (Hstart _ rect1 first), (Hstart _ rect2 first)
      by (intros Hn; apply (H0 _ _ Hn); subst; tauto).
    destruct (wipe_rows_spec
                (fun x y rt1 rt2 =>
                   let check := check_zone atan2f hypotf min_ii min_ff wipezone x y fac in
                   if negb (F32.eqb check F32.zero) then
                     match rt1 with
                     | row_null => Some (F32.of_int 0, F32.of_int 0, F32.of_int 0, F32.one)
                     | _ =>
                       v1 ← row_load4 rect1 rt1;
                       v2 ← row_load4 rect2 rt2;
                       let ch c :=
                         F32.add (F32.mul (chan c v1) check)
                                 (F32.mul (chan c v2) (F32.sub (F32.of_int 1) check)) in
                       Some (ch 0, ch 1, ch 2, ch 3)%nat
                     end
                   else
                     match rt2 with
                     | row_null => Some (F32.of_int 0, F32.of_int 0, F32.of_int 0, F32.one)
                     | _ => row_load4 rect2 rt2
                     end)
                val (non_null rect1) (non_null rect2) width first size mem
                Hw Hf Hs ltac:(nia)) as (res & Hres & Hlres & Hv & Hrest).
    - intros x' y' Hx' Hy'. subst val. cbv beta zeta.
      destruct rect1 as [b1|], rect2 as [b2|]; cbn [non_null default row_load4];
        try (discriminate (H21 eq_refl));
        destruct (negb (F32.eqb _ F32.zero)); reflexivity.
    - exists res. split; [exact Hres|]. split; [congruence|]. split; assumption. }
  assert (Hbrows : forall first size mem,
            In (first, size) y_ranges ->
            0 <= first -> 0 <= size -> first + size <= height ->
            length mem = length bout ->
            exists res,
              wipe_rows_byte atan2f hypotf min_ii min_ff straight_uchar_to_premul_float
                premul_float_to_straight_uchar wipezone fac width brect1 brect2
                first size mem = Some res /\
              length res = length bout /\
              (forall x y (c : nat), 0 <= x < width -> first <= y < first + size ->
                 (c < 4)%nat ->
                 res !! (Z.to_nat (4 * (y * width + x)) + c)%nat
                 = Some (chan c (bval x y))) /\
              (forall i : nat,
                 Z.of_nat i < 4 * (first * width) \/
                 4 * ((first + size) * width) <= Z.of_nat i ->
                 res !! i = mem !! i)).
  { intros first size mem Hin Hf Hs Hfs Hl.
    assert (H0 : forall {A} (rect : option (list A)), rect = None ->
                   (rect1 = None \/ rect2 = None \/ brect1 = None \/ brect2 = None) ->
                   first * width * 4 = 0).
    { intros A rect _ Hn. exact (proj1 (List.Forall_forall _ _) (Hnull Hn) _ Hin). }
    unfold wipe_rows_byte.
    rewrite (Hstart _ brect1 first), (Hstart _ brect2 first)
      by (intros Hn; apply (H0 _ _ Hn); subst; tauto).
    destruct (wipe_rows_spec
                (fun x y cp1 cp2 =>
                   let check := check_zone atan2f hypotf min_ii min_ff wipezone x y fac in
                   if negb (F32.eqb check F32.zero) then
                     match cp1 with
                     | row_null => Some (0, 0, 0, 255)
                     | _ =>
                       v1 ← row_load4 brect1 cp1;
                       v2 ← row_load4 brect2 cp2;
                       let rt1 := straight_uchar_to_premul_float v1 in
                       let rt2 := straight_uchar_to_premul_float v2 in
                       let ch c :=
                         F32.add (F32.mul (chan c rt1) check)
                                 (F32.mul (chan c rt2) (F32.sub (F32.of_int 1) check)) in
                       Some (premul_float_to_straight_uchar (ch 0, ch 1, ch 2, ch 3)%nat)
                     end
                   else
                     match cp2 with
                     | row_null => Some (0, 0, 0, 255)
                     | _ => row_load4 brect2 cp2
                     end)
                bval (non_null brect1) (non_null brect2) width first size mem
                Hw Hf Hs ltac:(nia)) as (res & Hres & Hlres & Hv & Hrest).
    - intros x' y' Hx' Hy'. subst bval. cbv beta zeta.
      destruct brect1 as [b1|], brect2 as [b2|]; cbn [non_null default row_load4];
        try (discriminate (Hb21 eq_refl));
        destruct (negb (F32.eqb _ F32.zero)); reflexivity.
    - exists res. split; [exact Hres|]. split; [congruence|]. split; assumption. }
  set (ok := fun first size =>
         In (first, size) y_ranges /\ 0 <= first /\ 0 <= size /\ first + size <= height).
  assert (Hok : forall r, In r y_ranges -> ok (fst r) (snd r)).
  { intros [first size] Hin.
    pose proof (proj1 (List.Forall_forall _ _) Hranges _ Hin) as Hr.
    cbn [fst snd] in *. unfold ok. tauto. }
  destruct (wipe_ranges_spec
              (wipe_rows_float atan2f hypotf min_ii min_ff wipezone fac width rect1 rect2)
              val ok width (length out) Hw) with (rs := y_ranges) (mem := out)
    as (res & Hres & Hlres & Hpix); [|exact Hok|reflexivity|].
  { intros first size mem (Hin & Hf & Hs & Hfs) Hl.
    split; [exact Hf|]. split; [exact Hs|]. apply Hfrows; assumption. }
  destruct (wipe_ranges_spec
              (wipe_rows_byte atan2f hypotf min_ii min_ff straight_uchar_to_premul_float
                 premul_float_to_straight_uchar wipezone fac width brect1 brect2)
              bval ok width (length bout) Hw) with (rs := y_ranges) (mem := bout)
    as (bres & Hbres & Hlbres & Hbpix); [|exact Hok|reflexivity|].
  { intros first size mem (Hin & Hf & Hs & Hfs) Hl.
    split; [exact Hf|]. split; [exact Hs|]. apply Hbrows; assumption. }
  exists res, bres.
  split; [exact Hres|]. split; [exact Hbres|]. split; [exact Hlres|]. split; [exact Hlbres|].
  split.
  - transitivity (val x y).
    + apply load4_chan. intros c Hc. apply rd_lookup.
      apply (Hpix x y Hx (proj1 Hy) (or_introl Hcover) c Hc).
    + subst val. cbv beta zeta. fold p check rt1 rt2.
      change (F32.of_int 0) with F32.zero. change (F32.of_int 1) with F32.one.
      destruct (F32.eqb check F32.zero); reflexivity.
  - transitivity (bval x y).
    + apply load4_chan. intros c Hc. apply rd_lookup.
      apply (Hbpix x y Hx (proj1 Hy) (or_introl Hcover) c Hc).
    + subst bval. cbv beta zeta. fold p check brt1 brt2.
      change (F32.of_int 1) with F32.one.
      destruct (F32.eqb check F32.zero); reflexivity.
Qed.

Lemma wipe_pixels_witness :
  exists res,
    do_wipe_effect_float (fun v => v) (fun v => v) (fun a _ => a) (fun a _ => a)
      Z.min (fun a _ => a) (fun n _ => [(1, n - 1); (0, 1)])
      {| edgeWidth := F32.zero; angle := F32.zero; forward := 1;
         wipetype := DO_SINGLE_WIPE |}
      f0_5 2 2 (Some (replicate 16 F32.one)) (Some (replicate 16 f0_5))
      (replicate 16 F32.zero) = Some res /\
    load4 res 12 = (f0_5, f0_5, f0_5, f0_5).
Proof.
  destruct (wipe_pixels (fun v => v) (fun v => v) (fun a _ => a) (fun a _ => a)
              Z.min (fun a _ => a) (fun n _ => [(1, n - 1); (0, 1)])
              (fun _ => (F32.zero, F32.zero, F32.zero, F32.zero))
              (fun _ => (0, 0, 0, 0))
              {| edgeWidth := F32.zero; angle := F32.zero; forward := 1;
                 wipetype := DO_SINGLE_WIPE |}
              f0_5 2 2 (Some (replicate 16 F32.one)) (Some (replicate 16 f0_5))
              (replicate 16 F32.zero) (Some (replicate 16 0)) (Some (replicate 16 0))
              (replicate 16 0) 1 1)
    as (res & bres & Hres & _ & _ & _ & Hpx & _).
  - lia.
  - lia.
  - rewrite length_replicate. lia.
  - rewrite length_replicate. lia.
  - repeat constructor; cbn; lia.
  - exists (1, 1). split; [left; reflexivity | cbn; lia].
  - lia.
  - lia.
  - intros [H|[H|[H|H]]]; discriminate H.
  - discriminate.
  - discriminate.
  - exists res. split; [exact Hres | exact Hpx].
Defined.

(** ** Default effect factor *)

Lemma shr_1_lower r k : 0 <= k -> 2 ^ (k + 1) <= shr_m r -> 2 ^ k <= shr_m (shr_1 r).
Proof.
  intros Hk. rewrite Z.pow_add_r, Z.pow_1_r by lia.
  pose proof (Z.pow_pos_nonneg 2 k ltac:(lia) Hk) as Hp.
  destruct r as [m r s]. simpl.
  destruct m as [|p|p]; simpl; try lia; destruct p; simpl; lia.
Qed.

Lemma iter_shr_1_lower p : forall r k,
  0 <= k -> 2 ^ (k + Zpos p) <= shr_m r -> 2 ^ k <= shr_m (SpecFloat.iter_pos shr_1 p r).
Proof.
  induction p as [p IH|p IH|]; intros r k Hk Hr; simpl.
  - apply IH; [exact Hk|]. apply IH; [lia|]. apply shr_1_lower; [lia|].
    replace (k + Zpos p + Zpos p + 1) with (k + Zpos p~1) by lia. exact Hr.
  - apply IH; [exact Hk|]. apply IH; [lia|].
    replace (k + Zpos p + Zpos p) with (k + Zpos p~0) by lia. exact Hr.
  - apply shr_1_lower; assumption.
Qed.

Lemma shr_fexp_pos m e l :
  0 < m -> emin F32.prec F32.emax <= e ->
  0 < shr_m (fst (shr_fexp F32.prec F32.emax m e l)) /\
  emin F32.prec F32.emax <= snd (shr_fexp F32.prec F32.emax m e l).
Proof.
  intros Hm He. unfold shr_fexp, shr.
  destruct (fexp F32.prec F32.emax (Zdigits2 m + e) - e) as [|p|p] eqn:E; simpl;
    try (rewrite F32Facts.shr_record_of_loc_m; lia).
  destruct m as [|q|q]; try lia.
  pose proof (F32Facts.digits2_pos_bounds q) as [Dlo _].
  simpl Zdigits2 in E.
  assert (Hp : Zpos p <= Zpos (digits2_pos q) - 1).
  { unfold fexp, emin, F32.prec, F32.emax in *. lia. }
  split; [|lia].
  pose proof (iter_shr_1_lower p (shr_record_of_loc (Zpos q) l) 0 ltac:(lia)) as H.
  rewrite F32Facts.shr_record_of_loc_m, Z.add_0_l, Z.pow_0_r in H.
  assert (2 ^ Zpos p <= 2 ^ (Zpos (digits2_pos q) - 1)) by (apply Z.pow_le_mono_r; lia).
  simpl fst. lia.
Qed.

Lemma binary_round_aux_nonzero s m e l :
  0 < m -> emin F32.prec F32.emax <= e ->
  F32.is_zero (binary_round_aux F32.prec F32.emax s m e l) = false.
Proof.
  intros Hm He. unfold binary_round_aux.
  pose proof (shr_fexp_pos m e l Hm He) as [H1 E1].
  destruct (shr_fexp F32.prec F32.emax m e l) as [mrs' e']. simpl in H1, E1.
  assert (H0 : 0 <= shr_m mrs') by lia.
  pose proof (F32Facts.round_nearest_even_nonneg (shr_m mrs') (loc_of_shr_record mrs') H0)
    as H2.
  assert (H2' : 0 < round_nearest_even (shr_m mrs') (loc_of_shr_record mrs')) by lia.
  pose proof (shr_fexp_pos _ e' loc_Exact H2' E1) as [H3 _].
  destruct (shr_fexp F32.prec F32.emax _ e' loc_Exact) as [mrs'' e'']. simpl in H3.
  destruct (shr_m mrs'') as [|p|p]; try lia.
  destruct (e'' <=? F32.emax - F32.prec); reflexivity.
Qed.

Lemma of_int_nonzero z : z <> 0 -> F32.is_zero (F32.of_int z) = false.
Proof.
  intros Hz.
  assert (Hp : forall s p, F32.is_zero (binary_round F32.prec F32.emax s p 0) = false).
  { intros s p. unfold binary_round, shl_align.
    destruct (fexp F32.prec F32.emax (Zpos (digits2_pos p) + 0) - 0) eqn:E;
      apply binary_round_aux_nonzero; try lia;
      unfold fexp, emin, F32.prec, F32.emax in *; lia. }
  unfold F32.of_int, F32.lit. destruct z as [|p|p]; simpl; [lia | apply Hp | apply Hp].
Qed.

Lemma sub_self x : F32.is_finite x = true -> F32.sub x x = F32.zero.
Proof.
  destruct x as [s|s| |s m e]; try discriminate; intros _.
  - destruct s; reflexivity.
  - unfold F32.sub, SFsub. rewrite Z.sub_diag. reflexivity.
Qed.

(** X17: the default factor at the first frame of a strip.  For the
    effects that fade (cross, gamma cross and wipe) it is 0 when the strip
    length is not 0, and their [early_out] then answers
    [EARLY_USE_INPUT_1]; for a strip of length 0 the division gives NaN and
    [early_out] answers [EARLY_DO_EFFECT].  Every other effect has the
    default factor 1 at every frame. *)
Theorem default_fac_at_strip_start
    (SEQ_TEXT_SHADOW : Z) (Scene Sequence : Type)
    (SEQ_time_left_handle_frame_get SEQ_time_strip_length_get : Scene -> Sequence -> Z)
    (scene : Scene) (seq : Sequence) (t : seq_type) (effectdata : effectdata_t) :
  Int.INT_MIN <= SEQ_time_left_handle_frame_get scene seq <= Int.INT_MAX ->
  let h := get_sequence_effect_impl t in
  let fac timeline_frame :=
    call_get_default_fac Scene Sequence SEQ_time_left_handle_frame_get
      SEQ_time_strip_length_get (get_default_fac h) scene seq timeline_frame in
  let first_frame := F32.of_int (SEQ_time_left_handle_frame_get scene seq) in
  (t = SEQ_TYPE_CROSS \/ t = SEQ_TYPE_GAMCROSS \/ t = SEQ_TYPE_WIPE ->
   (SEQ_time_strip_length_get scene seq <> 0 ->
    F32.is_zero (fac first_frame) = true /\
    call_early_out SEQ_TEXT_SHADOW (early_out h) effectdata (fac first_frame)
    = Some EARLY_USE_INPUT_1) /\
   (SEQ_time_strip_length_get scene seq = 0 ->
    F32.is_nan (fac first_frame) = true /\
    call_early_out SEQ_TEXT_SHADOW (early_out h) effectdata (fac first_frame)
    = Some EARLY_DO_EFFECT)) /\
  (t <> SEQ_TYPE_CROSS -> t <> SEQ_TYPE_GAMCROSS -> t <> SEQ_TYPE_WIPE ->
   forall timeline_frame, fac timeline_frame = F32.one).
Proof.
  intros Hleft h fac first_frame.
  assert (Hsub : F32.sub first_frame first_frame = F32.zero).
  { apply sub_self, F32Facts.of_int_finite, Hleft. }
  assert (Hfade : get_default_fac_fade Scene Sequence SEQ_time_left_handle_frame_get
                    SEQ_time_strip_length_get scene seq first_frame
                  = F32.div F32.zero (F32.of_int (SEQ_time_strip_length_get scene seq))).
  { unfold get_default_fac_fade. cbv zeta. fold first_frame. rewrite Hsub. reflexivity. }
  assert (Hnz : SEQ_time_strip_length_get scene seq <> 0 ->
                F32.is_zero (get_default_fac_fade Scene Sequence
                               SEQ_time_left_handle_frame_get SEQ_time_strip_length_get
                               scene seq first_frame) = true).
  { intros Hlen. rewrite Hfade.
    pose proof (of_int_nonzero _ Hlen) as Hz.
    pose proof (F32Facts.binary_normalize_not_nan
                  (SEQ_time_strip_length_get scene seq) 0 false) as Hn.
    change (binary_normalize F32.prec F32.emax (SEQ_time_strip_length_get scene seq) 0 false)
      with (F32.of_int (SEQ_time_strip_length_get scene seq)) in Hn.
    destruct (F32.of_int (SEQ_time_strip_length_get scene seq)); try discriminate;
      reflexivity. }
  assert (Hz : SEQ_time_strip_length_get scene seq = 0 ->
               get_default_fac_fade Scene Sequence
                 SEQ_time_left_handle_frame_get SEQ_time_strip_length_get
                 scene seq first_frame = F32.nan).
  { intros Hlen. rewrite Hfade, Hlen. reflexivity. }
  split.
  - intros Ht.
    assert (Hh : get_default_fac h = Fn.get_default_fac_fade /\
                 early_out h = Fn.early_out_fade).
    { subst h. destruct Ht as [->|[->| ->]]; split; reflexivity. }
    destruct Hh as [Hg He]. subst fac. cbv beta. rewrite Hg, He.
    cbn [call_get_default_fac call_early_out]. split.
    + intros Hlen. specialize (Hnz Hlen). split; [exact Hnz|].
      unfold early_out_fade.
      destruct (get_default_fac_fade _ _ _ _ _ _ _); try discriminate. reflexivity.
    + intros Hlen. rewrite (Hz Hlen). split; reflexivity.
  - intros H1 H2 H3 timeline_frame. subst fac h. cbv beta.
    destruct t; try reflexivity; congruence.
Qed.

Lemma default_fac_at_strip_start_witness :
  call_early_out 0 (early_out (get_sequence_effect_impl SEQ_TYPE_CROSS)) effectdata_null
    (call_get_default_fac unit unit (fun _ _ => 5) (fun _ _ => 10)
       (get_default_fac (get_sequence_effect_impl SEQ_TYPE_CROSS)) tt tt (F32.of_int 5))
  = Some EARLY_USE_INPUT_1.
Proof.
  refine (proj2 (proj1 (proj1 (default_fac_at_strip_start 0 unit unit
                                 (fun _ _ => 5) (fun _ _ => 10) tt tt SEQ_TYPE_CROSS
                                 effectdata_null _) _) _)).
  - unfold Int.INT_MIN, Int.INT_MAX. lia.
  - left. reflexivity.
  - discriminate.
Defined.

(** ** Add, subtract and multiply at the factor 0 *)

Lemma add_byte_channel_0 (a2 c1 c2 : Z) :
  byte_channel c1 ->
  Int.to_uchar (Z.min (Int.add c1 (Int.shr (Int.mul (Int.mul 0 a2) c2) 16)) 255) = c1.
Proof.
  unfold byte_channel. intros Hc1.
  change (Int.shr (Int.mul (Int.mul 0 a2) c2) 16) with 0.
  unfold Int.add. rewrite Z.add_0_r, int32_id by lia.
  rewrite Z.min_l by lia. apply to_uchar_small. lia.
Qed.

Lemma sub_byte_channel_0 (a2 c1 c2 : Z) :
  byte_channel c1 ->
  Int.to_uchar (Z.max (Int.sub c1 (Int.shr (Int.mul (Int.mul 0 a2) c2) 16)) 0) = c1.
Proof.
  unfold byte_channel. intros Hc1.
  change (Int.shr (Int.mul (Int.mul 0 a2) c2) 16) with 0.
  unfold Int.sub. rewrite Z.sub_0_r, int32_id by lia.
  rewrite Z.max_l by lia. apply to_uchar_small. lia.
Qed.

Lemma mul_byte_channel_0 (c1 c2 : Z) :
  byte_channel c1 ->
  Int.to_uchar (Int.add c1 (Int.shr (Int.mul (Int.mul 0 c1) (Int.sub c2 255)) 16)) = c1.
Proof.
  unfold byte_channel. intros Hc1.
  change (Int.shr (Int.mul (Int.mul 0 c1) (Int.sub c2 255)) 16) with 0.
  unfold Int.add. rewrite Z.add_0_r, int32_id by lia.
  apply to_uchar_small. lia.
Qed.

(** X18: at the factor 0 the early-out of the add, subtract and multiply
    effects answers [EARLY_USE_INPUT_1], and the byte paths of the three
    effects, when they are run at that factor, return input 1 as well. *)
Theorem add_sub_mul_byte_fac_zero
    (SEQ_TEXT_SHADOW : Z) (effectdata : effectdata_t)
    (min_ii max_ii : Z -> Z -> Z) (x y : Z) (rect1 rect2 out : list Z) :
  let n := (4 * (Z.to_nat y * Z.to_nat x))%nat in
  (forall a b, min_ii a b = Z.min a b) ->
  (forall a b, max_ii a b = Z.max a b) ->
  length rect1 = n -> length out = n ->
  Forall byte_channel rect1 ->
  (forall t, t = SEQ_TYPE_ADD \/ t = SEQ_TYPE_SUB \/ t = SEQ_TYPE_MUL ->
     call_early_out SEQ_TEXT_SHADOW (early_out (get_sequence_effect_impl t)) effectdata
       F32.zero
     = Some EARLY_USE_INPUT_1) /\
  do_add_effect_byte min_ii F32.zero x y rect1 rect2 out = rect1 /\
  do_sub_effect_byte max_ii F32.zero x y rect1 rect2 out = rect1 /\
  do_mul_effect_byte F32.zero x y rect1 rect2 out = rect1.
Proof.
  intros n Hmin Hmax H1 Ho B1.
  assert (Hbyte : forall i, (i < n)%nat -> byte_channel (rd rect1 i)).
  { intros i Hi. destruct (lookup_lt_is_Some_2 rect1 i ltac:(lia)) as [v Hv].
    rewrite (rd_lookup _ _ _ Hv). exact (Forall_lookup_1 _ _ _ _ B1 Hv). }
  assert (Hpix : forall (ch : nat -> nat -> Z) (alpha : nat -> Z),
            (forall p c, (p + c < n)%nat -> ch p c = rd rect1 (p + c)) ->
            (forall p, (p + 3 < n)%nat -> alpha p = rd rect1 (p + 3)) ->
            pixel_loop x y
              (fun p rt => store4 p (ch p 0, ch p 1, ch p 2, alpha p)%nat rt) out
            = rect1).
  { intros ch alpha Hch Halpha.
    apply (list_eq_same_length _ _ n); [assumption| |].
    { rewrite (pixel_loop_body_length _ (fun p => (ch p 0, ch p 1, ch p 2, alpha p)%nat));
        [assumption | reflexivity | lia]. }
    intros i a b Hi Ha Hb.
    rewrite (pixel_loop_body_lookup _ (fun p => (ch p 0, ch p 1, ch p 2, alpha p)%nat))
      in Ha; [|reflexivity|lia|exact Hi].
    apply (inj Some) in Ha. subst a. cbv beta. rewrite <- (rd_lookup _ _ _ Hb).
    pose proof (Nat.div_mod_eq i 4) as Hdm.
    pose proof (Nat.mod_upper_bound i 4 ltac:(lia)) as Hc.
    destruct (i mod 4)%nat as [|[|[|[|c]]]] eqn:E; cbn [chan]; try lia;
      first [rewrite Hch by lia | rewrite Halpha by lia]; f_equal; lia. }
  split; [|split; [|split]].
  - intros t [->|[->| ->]]; reflexivity.
  - unfold do_add_effect_byte. rewrite cross_byte_temp_fac_0. cbv zeta.
    apply (Hpix (fun p c => Int.to_uchar
                   (min_ii (Int.add (rd rect1 (p + c))
                              (Int.shr (Int.mul (Int.mul 0 (rd rect2 (p + 3)))
                                          (rd rect2 (p + c))) 16)) 255))
                (fun p => rd rect1 (p + 3))); [|reflexivity].
    intros p c Hp. rewrite Hmin. apply add_byte_channel_0, Hbyte, Hp.
  - unfold do_sub_effect_byte. rewrite cross_byte_temp_fac_0. cbv zeta.
    apply (Hpix (fun p c => Int.to_uchar
                   (max_ii (Int.sub (rd rect1 (p + c))
                              (Int.shr (Int.mul (Int.mul 0 (rd rect2 (p + 3)))
                                          (rd rect2 (p + c))) 16)) 0))
                (fun p => rd rect1 (p + 3))); [|reflexivity].
    intros p c Hp. rewrite Hmax. apply sub_byte_channel_0, Hbyte, Hp.
  - unfold do_mul_effect_byte. rewrite cross_byte_temp_fac_0. cbv zeta.
    apply (Hpix (fun p c => Int.to_uchar
                   (Int.add (rd rect1 (p + c))
                      (Int.shr (Int.mul (Int.mul 0 (rd rect1 (p + c)))
                                  (Int.sub (rd rect2 (p + c)) 255)) 16)))
                (fun p => Int.to_uchar
                   (Int.add (rd rect1 (p + 3))
                      (Int.shr (Int.mul (Int.mul 0 (rd rect1 (p + 3)))
                                  (Int.sub (rd rect2 (p + 3)) 255)) 16)))).
    + intros p c Hp. apply mul_byte_channel_0, Hbyte, Hp.
    + intros p Hp. apply mul_byte_channel_0, Hbyte, Hp.
Qed.

Lemma add_sub_mul_byte_fac_zero_witness :
  do_add_effect_byte Z.min F32.zero 1 1 [10; 20; 30; 40] [50; 60; 70; 80] [0; 0; 0; 0]
  = [10; 20; 30; 40].
Proof.
  refine (proj1 (proj2 (add_sub_mul_byte_fac_zero 0 effectdata_null Z.min Z.max 1 1
                          [10; 20; 30; 40] [50; 60; 70; 80] [0; 0; 0; 0] _ _ _ _ _)));
    first [ reflexivity | (repeat constructor; unfold byte_channel; lia) ].
Defined.

(** ** The kernel of the gaussian blur *)






Section KernelFacts.

Variable RE_filter_value : float -> float.
Variables (rad : float) (size : Z).
Hypothesis Hsize : 0 <= size.

Local Abbreviation fac := (if F32.gtb rad F32.zero then F32.div F32.one rad else F32.zero).
Local Abbreviation val i := (RE_filter_value (F32.mul (F32.of_int i) fac)).
Local Abbreviation n := (2 * size + 1).




End KernelFacts.



(* ===================================================================== *)
(** ** Rounding error of the float operations *)

(** *** Right shifts *)




(** *** Number of digits *)





(** *** Rounding to nearest *)


Section RoundingFacts.

Local Open Scope Q_scope.

(** *** Powers of two in the rationals *)





Lemma pow2_lt_inv (a b : Z) : 2 ^ a < 2 ^ b -> (a < b)%Z.
Proof. intros H. apply (Qpower_lt_compat_l_inv 2); [exact H | reflexivity]. Qed.




(** *** One rounding *)

(** The relative error of one float operation in the normal range is at
    most one unit in the last place, [2 ^ (-23)]. *)


(** *** The operations on floats above zero *)









(** *** Powers of the rounding factors *)




Lemma up_ge1 n : (0 <= n)%Z -> 1 <= (1 + roundoff) ^ n.
Proof. intros Hn. apply Qpower_1_le; [unfold roundoff; lra | exact Hn]. Qed.













(** *** Values up to a number of roundings *)











(** *** The operations of the blur, up to roundings *)







Lemma add_zero_zero : F32.add F32.zero F32.zero = F32.zero.
Proof. reflexivity. Qed.









End RoundingFacts.

(** ** Gaussian blur of a uniform image, in single precision *)










